(** * k8s-service-loader-script: the pod-list parser and the selection flow

    A shallow embedding of [k8s-service-loader-script.js] (version 0.0.2)
    and of its predecessor (version 0.0.1), followed by the properties
    that the specification states about them.

    Conventions of the embedding.
    - A JavaScript string is a [string]: one [ascii] per UTF-16 code
      unit, for strings whose code units are below 256.  In that range
      the white space of [trim], of [/\s+/] and of [parseInt] is
      TAB, LF, VT, FF, CR, SP and NBSP.
    - [undefined] and [null] are [None].
    - A number produced by [parseInt] is an exact integer ([Z]), [NaN]
      is [None].  The script only compares such numbers with 0, with 1,
      2, 3 and with the length of an array, where the rounding of large
      values to doubles makes no difference.
    - The regular expression that the parser builds from a namespace is
      given its meaning here when the namespace consists of ordinary
      characters, as the names of Kubernetes namespaces do (lower-case
      letters, digits and [-]).  What the host's engine answers for a
      namespace that contains pattern syntax is a parameter
      ([host_regexp]).
    - A run is the list of the script's actions on the outside: lines
      printed, commands executed, questions asked, children spawned,
      the closing of the readline interface.  Left out are the banner
      of version 0.0.2, the ticks of the spinner's timer, the delay
      before the question about logs, and the handlers of the children
      that only print. *)

From Stdlib Require Import String Ascii List ZArith Lia Bool Arith DecimalString.
From Stdlib Require Import Sorted Permutation.
Import ListNotations.

Open Scope string_scope.
Open Scope list_scope.
Open Scope Z_scope.

Infix "+++" := String.append (right associativity, at level 60).

(** ** The part of the JavaScript library that the script calls *)

Module JS.

Definition LF : ascii := "010"%char.
Definition ESC : ascii := "027"%char.
Definition nl : string := String LF "".

(** WhiteSpace and LineTerminator code units below 256. *)
Definition is_space (c : ascii) : bool :=
  match nat_of_ascii c with
  | 9%nat | 10%nat | 11%nat | 12%nat | 13%nat | 32%nat | 160%nat => true
  | _ => false
  end.

Fixpoint trimStart (s : string) : string :=
  match s with
  | "" => ""
  | String c s' => if is_space c then trimStart s' else s
  end.

Fixpoint trimEnd (s : string) : string :=
  match s with
  | "" => ""
  | String c s' =>
      match trimEnd s' with
      | "" => if is_space c then "" else String c ""
      | t => String c t
      end
  end.

(** [s.trim()] *)
Definition trim (s : string) : string := trimEnd (trimStart s).

(** [s.split(sep)] for a separator of one character: n occurrences of
    the separator give n + 1 pieces, and the empty string gives
    [[""]]. *)
Fixpoint split (sep : ascii) (s : string) : list string :=
  match s with
  | "" => [""]
  | String c s' =>
      if Ascii.eqb c sep then "" :: split sep s'
      else match split sep s' with
           | p :: ps => String c p :: ps
           | [] => [String c ""]
           end
  end.

(** [s.split(/\s+/)]: every maximal run of white space is one
    separator; a run at either end leaves an empty piece there. *)
Fixpoint split_spaces (s : string) : list string :=
  match s with
  | "" => [""]
  | String c s' =>
      if is_space c then
        match s' with
        | "" => [""; ""]
        | String c' _ => if is_space c' then split_spaces s'
                         else "" :: split_spaces s'
        end
      else match split_spaces s' with
           | p :: ps => String c p :: ps
           | [] => [String c ""]
           end
  end.

(** [a.join(sep)] *)
Fixpoint join (sep : string) (a : list string) : string :=
  match a with
  | [] => ""
  | [x] => x
  | x :: xs => x +++ sep +++ join sep xs
  end.

(** [s.startsWith(p)] *)
Definition startsWith (s p : string) : bool := String.prefix p s.

(** [a.indexOf(x)]: the first position holding [x], or -1. *)
Fixpoint indexOf (a : list string) (x : string) : Z :=
  match a with
  | [] => -1
  | y :: a' =>
      if String.eqb y x then 0
      else let r := indexOf a' x in if r <? 0 then -1 else r + 1
  end.

(** [a[i]] for a number [i]: [undefined] outside the array. *)
Definition at_index {A : Type} (a : list A) (i : Z) : option A :=
  if i <? 0 then None else nth_error a (Z.to_nat i).

(** [a.slice(0, -2)] and [a.slice(-2)]. *)
Definition slice_but_last2 {A : Type} (a : list A) : list A :=
  firstn (length a - 2) a.
Definition slice_last2 {A : Type} (a : list A) : list A :=
  skipn (length a - 2) a.

(** [a.slice(1)] *)
Definition slice_from1 {A : Type} (a : list A) : list A := tl a.

(** Truthiness of a value that is a string or [undefined]/[null]. *)
Definition truthy (v : option string) : bool :=
  match v with
  | Some s => negb (String.eqb s "")
  | None => false
  end.

(** [a ?? b] *)
Definition nullish {A : Type} (a b : option A) : option A :=
  match a with Some _ => a | None => b end.

(** [s || d] for a string [s]. *)
Definition or_default (s d : string) : string :=
  if String.eqb s "" then d else s.

(** How a template literal prints a value that is a string or
    [undefined]. *)
Definition show (v : option string) : string :=
  match v with Some s => s | None => "undefined" end.

(** *** parseInt *)

Definition digit_value (c : ascii) : option Z :=
  let n := Z.of_nat (nat_of_ascii c) in
  if (48 <=? n) && (n <=? 57) then Some (n - 48)
  else if (97 <=? n) && (n <=? 122) then Some (n - 87)
  else if (65 <=? n) && (n <=? 90) then Some (n - 55)
  else None.

(** The longest prefix of digits of radix [r], read from the left
    with accumulator [acc]; [seen] tells whether a digit was read. *)
Fixpoint digits (r : Z) (s : string) (seen : bool) (acc : Z) : option Z :=
  match s with
  | "" => if seen then Some acc else None
  | String c s' =>
      match digit_value c with
      | Some d =>
          if d <? r then digits r s' true (acc * r + d)
          else if seen then Some acc else None
      | None => if seen then Some acc else None
      end
  end.

Definition strip_sign (s : string) : Z * string :=
  match s with
  | String "-" s' => (-1, s')
  | String "+" s' => (1, s')
  | _ => (1, s)
  end.

(** [parseInt(s)] with no radix: leading white space is skipped, a
    sign is read, [0x]/[0X] selects radix 16, and the longest prefix
    of digits gives the value; no digit gives [NaN]. *)
Definition parseInt (s : string) : option Z :=
  let '(sign, body) := strip_sign (trimStart s) in
  let r :=
    match body with
    | String "0" (String "x" rest) | String "0" (String "X" rest) =>
        digits 16 rest false 0
    | _ => digits 10 body false 0
    end in
  option_map (Z.mul sign) r.

(** [a.sort()] on an array of strings: ascending code-unit order. *)
Fixpoint insert_sorted (x : string) (a : list string) : list string :=
  match a with
  | [] => [x]
  | y :: a' => if String.leb x y then x :: a else y :: insert_sorted x a'
  end.

Definition sort (a : list string) : list string :=
  fold_right insert_sorted [] a.

End JS.

(** ** Data model *)

(** What a call can do besides returning: throw. *)
Inductive Error : Type :=
| ChildError (message : string)   (* the error [exec] passes to its callback *)
| PlainError (message : string)   (* [new Error(message)] *)
| TypeError (message : string)
| SyntaxError (message : string).

Definition message (e : Error) : string :=
  match e with
  | ChildError m | PlainError m | TypeError m | SyntaxError m => m
  end.

Inductive outcome (A : Type) : Type :=
| Ok (a : A)
| Throw (e : Error).
Arguments Ok {A} a.
Arguments Throw {A} e.

(** The three environment tags, the property names of a service's
    object. *)
Inductive Env : Type := Dev | Qa | Stg.

Definition env_name (e : Env) : string :=
  match e with Dev => "dev" | Qa => "qa" | Stg => "stg" end.

(** [{ id: serviceId, namespace: namespaceColumn }] *)
Record ServiceDetails : Type := {
  id : string;
  namespace : option string
}.

(** The object stored per service: it starts as [{}] and only ever
    receives the properties [dev], [qa] and [stg]. *)
Record EnvObject : Type := {
  dev : option ServiceDetails;
  qa : option ServiceDetails;
  stg : option ServiceDetails
}.

Definition empty_object : EnvObject := {| dev := None; qa := None; stg := None |}.

(** [o[e]] *)
Definition get_env (o : EnvObject) (e : Env) : option ServiceDetails :=
  match e with Dev => dev o | Qa => qa o | Stg => stg o end.

(** [o[e] = d] *)
Definition set_env (o : EnvObject) (e : Env) (d : ServiceDetails) : EnvObject :=
  match e with
  | Dev => {| dev := Some d; qa := qa o; stg := stg o |}
  | Qa => {| dev := dev o; qa := Some d; stg := stg o |}
  | Stg => {| dev := dev o; qa := qa o; stg := Some d |}
  end.

(** A JavaScript [Map] from service name to object: the entries in
    insertion order, every key once. *)
Definition ServicesMap : Type := list (string * EnvObject).

Fixpoint Map_get (m : ServicesMap) (k : string) : option EnvObject :=
  match m with
  | [] => None
  | (k', o) :: m' => if String.eqb k' k then Some o else Map_get m' k
  end.

Definition Map_has (m : ServicesMap) (k : string) : bool :=
  match Map_get m k with Some _ => true | None => false end.

(** [m.set(k, o)]: an existing key keeps its place, a new one goes to
    the end. *)
Fixpoint Map_set (m : ServicesMap) (k : string) (o : EnvObject) : ServicesMap :=
  match m with
  | [] => [(k, o)]
  | (k', o') :: m' =>
      if String.eqb k' k then (k', o) :: m' else (k', o') :: Map_set m' k o
  end.

Definition Map_keys (m : ServicesMap) : list string := map fst m.

(** ** The parser *)

Fixpoint drop (n : nat) (s : string) : string :=
  match n, s with
  | O, _ => s
  | S n', String _ s' => drop n' s'
  | S _, "" => ""
  end.

(** The characters with a meaning of their own in a pattern; a string
    without them, used as a pattern, matches itself and nothing else. *)
Definition is_syntax_char (c : ascii) : bool :=
  match c with
  | "^" | "$" | "\" | "." | "*" | "+" | "?" | "(" | ")"
  | "[" | "]" | "{" | "}" | "|" => true
  | _ => false
  end%char.

Fixpoint ordinary (s : string) : bool :=
  match s with
  | "" => true
  | String c s' => negb (is_syntax_char c) && ordinary s'
  end.

(** The environment tag chosen by the chain of [startsWith] tests. *)
Definition env_of (nameColumn : string) : option Env :=
  if JS.startsWith nameColumn "dev-" then Some Dev
  else if JS.startsWith nameColumn "qa-" then Some Qa
  else if JS.startsWith nameColumn "stg-" then Some Stg
  else None.

(** [nameColumn.replace(/^(dev-|qa-|stg-)/, "")] *)
Definition strip_env (nameColumn : string) : string :=
  if String.prefix "dev-" nameColumn then drop 4 nameColumn
  else if String.prefix "qa-" nameColumn then drop 3 nameColumn
  else if String.prefix "stg-" nameColumn then drop 4 nameColumn
  else nameColumn.

Section Parser.

(** The answer of the host's engine to
    [subject.replace(new RegExp(source, "g"), "")] when [source] was
    built from a namespace with pattern syntax in it: a string, or
    the exception of the constructor. *)
Variable host_regexp : string -> string -> outcome string.

(** [modifiedName.replace(new RegExp(`^${namespaceColumn}-`, "g"), "")].
    For an ordinary namespace the pattern is the anchor followed by
    literal characters: it matches at position 0 or nowhere, once. *)
Definition strip_namespace (namespaceColumn modifiedName : string)
  : outcome string :=
  if ordinary namespaceColumn then
    Ok (if String.prefix (namespaceColumn +++ "-") modifiedName
        then drop (String.length namespaceColumn + 1) modifiedName
        else modifiedName)
  else host_regexp ("^" +++ namespaceColumn +++ "-") modifiedName.

(** [modifiedName] after the two [replace] statements: the
    environment prefix goes, then, when [namespaceColumn] is truthy,
    the namespace pattern is applied. *)
Definition modified_name (namespaceColumn : option string)
           (nameColumn : string) : outcome string :=
  let modifiedName := strip_env nameColumn in
  match namespaceColumn with
  | Some ns =>
      if String.eqb ns "" then Ok modifiedName
      else strip_namespace ns modifiedName
  | None => Ok modifiedName
  end.

(** The two statements that store an entry. *)
Definition store (m : ServicesMap) (serviceName : string) (envPrefix : Env)
           (d : ServiceDetails) : ServicesMap :=
  let m1 := if Map_has m serviceName then m
            else Map_set m serviceName empty_object in
  match Map_get m1 serviceName with
  | Some o => Map_set m1 serviceName (set_env o envPrefix d)
  | None => m1   (* not reached: the key is present in [m1] *)
  end.

(** One turn of the [for] loop, on the line [lines[i]]. *)
Definition loop_body (namespace_arg : option string)
           (namespaceIndex nameIndex : Z) (line : string) (m : ServicesMap)
  : outcome ServicesMap :=
  let columns := JS.split_spaces line in
  let namespaceColumn :=
    JS.nullish namespace_arg (JS.at_index columns namespaceIndex) in
  match JS.at_index columns nameIndex with
  | None =>
      Throw (TypeError
               "Cannot read properties of undefined (reading 'startsWith')")
  | Some nameColumn =>
      match env_of nameColumn with
      | None => Ok m
      | Some envPrefix =>
          match modified_name namespaceColumn nameColumn with
          | Throw e => Throw e
          | Ok modifiedName =>
              let parts := JS.split "-" modifiedName in
              if (2 <? length parts)%nat then
                let serviceName := JS.join "-" (JS.slice_but_last2 parts) in
                let serviceId := JS.join "-" (JS.slice_last2 parts) in
                Ok (store m serviceName envPrefix
                          {| id := serviceId; namespace := namespaceColumn |})
              else Ok m
          end
      end
  end.

(** The [for] loop over [lines[1]], [lines[2]], ... *)
Fixpoint loop (namespace_arg : option string) (namespaceIndex nameIndex : Z)
         (rows : list string) (m : ServicesMap) : outcome ServicesMap :=
  match rows with
  | [] => Ok m
  | line :: rows' =>
      match loop_body namespace_arg namespaceIndex nameIndex line m with
      | Ok m' => loop namespace_arg namespaceIndex nameIndex rows' m'
      | Throw e => Throw e
      end
  end.

Definition getServicesMap (podsData : string) (namespace_arg : option string)
  : outcome ServicesMap :=
  let lines := JS.split JS.LF (JS.trim podsData) in
  let headers := JS.split_spaces (hd "" lines) in
  let namespaceIndex := JS.indexOf headers "NAMESPACE" in
  let nameIndex := JS.indexOf headers "NAME" in
  loop namespace_arg namespaceIndex nameIndex (tl lines) [].

(** *** The same statements with the [Map] as an object in a heap

    [getServicesMap] creates its [Map] with [new Map()] and fills it
    in place.  Here the [Map] objects live in a heap and a call
    returns a reference, so that two calls can follow one another in
    the same heap. *)

Definition Heap : Type := list ServicesMap.
Definition Ref : Type := nat.

Definition deref (h : Heap) (r : Ref) : ServicesMap := nth r h [].

Fixpoint update (h : Heap) (r : Ref) (m : ServicesMap) : Heap :=
  match h, r with
  | [], _ => []
  | _ :: h', O => m :: h'
  | x :: h', S r' => x :: update h' r' m
  end.

(** [new Map()] *)
Definition new_Map (h : Heap) : Ref * Heap := (length h, h ++ [[]]).

Definition loop_body_in (namespace_arg : option string)
           (namespaceIndex nameIndex : Z) (line : string)
           (servicesMap : Ref) (h : Heap) : outcome unit * Heap :=
  let columns := JS.split_spaces line in
  let namespaceColumn :=
    JS.nullish namespace_arg (JS.at_index columns namespaceIndex) in
  match JS.at_index columns nameIndex with
  | None =>
      (Throw (TypeError
                "Cannot read properties of undefined (reading 'startsWith')"),
       h)
  | Some nameColumn =>
      match env_of nameColumn with
      | None => (Ok tt, h)
      | Some envPrefix =>
          match modified_name namespaceColumn nameColumn with
          | Throw e => (Throw e, h)
          | Ok modifiedName =>
              let parts := JS.split "-" modifiedName in
              if (2 <? length parts)%nat then
                let serviceName := JS.join "-" (JS.slice_but_last2 parts) in
                let serviceId := JS.join "-" (JS.slice_last2 parts) in
                let h1 :=
                  if Map_has (deref h servicesMap) serviceName then h
                  else update h servicesMap
                         (Map_set (deref h servicesMap) serviceName
                                  empty_object) in
                match Map_get (deref h1 servicesMap) serviceName with
                | Some o =>
                    (Ok tt,
                     update h1 servicesMap
                       (Map_set (deref h1 servicesMap) serviceName
                          (set_env o envPrefix
                             {| id := serviceId;
                                namespace := namespaceColumn |})))
                | None => (Ok tt, h1)
                end
              else (Ok tt, h)
          end
      end
  end.

Fixpoint loop_in (namespace_arg : option string)
         (namespaceIndex nameIndex : Z) (rows : list string)
         (servicesMap : Ref) (h : Heap) : outcome unit * Heap :=
  match rows with
  | [] => (Ok tt, h)
  | line :: rows' =>
      match loop_body_in namespace_arg namespaceIndex nameIndex line
                         servicesMap h with
      | (Ok _, h') =>
          loop_in namespace_arg namespaceIndex nameIndex rows' servicesMap h'
      | (Throw e, h') => (Throw e, h')
      end
  end.

Definition getServicesMap_in (podsData : string)
           (namespace_arg : option string) (h : Heap)
  : outcome Ref * Heap :=
  let '(servicesMap, h0) := new_Map h in
  let lines := JS.split JS.LF (JS.trim podsData) in
  let headers := JS.split_spaces (hd "" lines) in
  let namespaceIndex := JS.indexOf headers "NAMESPACE" in
  let nameIndex := JS.indexOf headers "NAME" in
  match loop_in namespace_arg namespaceIndex nameIndex (tl lines)
                servicesMap h0 with
  | (Ok _, h') => (Ok servicesMap, h')
  | (Throw e, h') => (Throw e, h')
  end.

End Parser.

(** An engine for running examples whose namespaces are ordinary. *)
Definition no_engine : string -> string -> outcome string :=
  fun _ _ => Throw (SyntaxError "Invalid regular expression").

Definition listing1 : string :=
  "NAMESPACE    NAME                                READY   STATUS" +++ JS.nl +++
  "team-alpha   dev-team-alpha-checkout-ab12-xy34   1/1     Running" +++ JS.nl +++
  "team-alpha   qa-team-alpha-checkout-cd56-zw78    1/1     Running" +++ JS.nl +++
  "kube-system  coredns-558bd4d5db-abcde            1/1     Running" +++ JS.nl +++
  "team-beta    stg-team-beta-api-gw-11aa-22bb      1/1     Running" +++ JS.nl.


(** ** The script as a program over a world

    The world is everything the script does not decide: its command
    line, what each command line given to [exec] produces, the lines
    typed at the prompts, and the chunks the port-forward child writes
    to its standard output.  A run leaves a list of events. *)

Inductive event : Type :=
| Log (text : string)                        (* console.log *)
| LogError (text : string)                   (* console.error *)
| Write (text : string)                      (* process.stdout.write *)
| Exec (command : string)                    (* child_process.exec *)
| Question (query : string)                  (* rl.question *)
| Spawn (file : string) (args : list string) (* child_process.spawn *)
| Close                                      (* rl.close() *)
| Uncaught (e : Error).                      (* an exception nobody catches *)

(** The three arguments of the callback of [exec]. *)
Record ExecResult : Type := {
  error : option Error;
  stdout : string;
  stderr : string
}.

Record World : Type := {
  argv : list string;                  (* process.argv.slice(2) *)
  executed : string -> ExecResult;     (* per command line given to exec *)
  typed : list string;                 (* the lines typed, in order *)
  forwarded : list string              (* stdout chunks of port-forward *)
}.

Record State : Type := {
  input : list string;        (* lines not read yet *)
  spinning : option string;   (* the spinner's message while it runs *)
  events : list event
}.

Definition initial (w : World) : State :=
  {| input := typed w; spinning := None; events := [] |}.

(** How a piece of the script ends: with a value, by throwing (or a
    rejected promise), by the [return] of the enclosing function, or
    never, waiting for a line that is not typed. *)
Inductive completion (A : Type) : Type :=
| Normal (a : A)
| Thrown (e : Error)
| Returned
| Waiting.
Arguments Normal {A} a.
Arguments Thrown {A} e.
Arguments Returned {A}.
Arguments Waiting {A}.

Definition Script (A : Type) : Type := State -> completion A * State.

Definition ret {A : Type} (a : A) : Script A := fun s => (Normal a, s).

Definition bind {A B : Type} (m : Script A) (f : A -> Script B) : Script B :=
  fun s =>
    match m s with
    | (Normal a, s') => f a s'
    | (Thrown e, s') => (Thrown e, s')
    | (Returned, s') => (Returned, s')
    | (Waiting, s') => (Waiting, s')
    end.

Notation "x <- m ;; k" := (bind m (fun x => k))
  (at level 61, m at next level, right associativity).
Notation "m ;; k" := (bind m (fun _ => k))
  (at level 61, right associativity).

Definition throw {A : Type} (e : Error) : Script A := fun s => (Thrown e, s).
Definition return_ {A : Type} : Script A := fun s => (Returned, s).

(** [try { body } catch (error) { handler }] *)
Definition try_catch {A : Type} (body : Script A) (handler : Error -> Script A)
  : Script A :=
  fun s =>
    match body s with
    | (Thrown e, s') => handler e s'
    | r => r
    end.

(** A call of an [async] function that nobody awaits. *)
Definition detach {A : Type} (m : Script A) : Script unit :=
  fun s => (Normal tt, snd (m s)).

Definition lift {A : Type} (r : outcome A) : Script A :=
  match r with Ok a => ret a | Throw e => throw e end.

(** The state after one more event. *)
Definition push (e : event) (s : State) : State :=
  {| input := input s; spinning := spinning s; events := events s ++ [e] |}.

Definition emit (e : event) : Script unit := fun s => (Normal tt, push e s).

Definition console_log (text : string) : Script unit := emit (Log text).
Definition console_error (text : string) : Script unit := emit (LogError text).
Definition rl_close : Script unit := emit Close.

(** [rl.question(query, callback)]: the callback receives the next
    line typed, if there is one. *)
Definition question (query : string) : Script string :=
  fun s =>
    match input s with
    | [] => (Waiting,
             {| input := []; spinning := spinning s;
                events := events s ++ [Question query] |})
    | line :: rest =>
        (Normal line,
         {| input := rest; spinning := spinning s;
            events := events s ++ [Question query] |})
    end.

Definition spawn (file : string) (args : list string) : Script unit :=
  emit (Spawn file args).

Definition dq : string := String "034"%char "".

Definition number (n : nat) : string :=
  DecimalString.NilEmpty.string_of_uint (Nat.to_uint n).

Definition sgr (code : string) : string := String JS.ESC ("[" +++ code +++ "m").

(** [s.toLowerCase()] on code units below 256. *)
Definition lower (ch : ascii) : ascii :=
  let n := nat_of_ascii ch in
  if ((65 <=? n) && (n <=? 90) || (192 <=? n) && (n <=? 214)
      || (216 <=? n) && (n <=? 222))%nat
  then ascii_of_nat (n + 32) else ch.

Fixpoint toLowerCase (s : string) : string :=
  match s with
  | "" => ""
  | String ch s' => String (lower ch) (toLowerCase s')
  end.

(** ** Version 0.0.2: [k8s-service-loader-script.js] *)

Module V2.

Module c.
Definition reset := sgr "0".
Definition red := sgr "31".
Definition green := sgr "32".
Definition yellow := sgr "33".
Definition magenta := sgr "35".
Definition cyan := sgr "36".
End c.

Definition colorText (colorCode text : string) : string :=
  colorCode +++ text +++ sgr "0".

Definition print (colorCode text : string) : Script unit :=
  console_log (colorText colorCode text).

(** [prompt(question)]: the answer, trimmed. *)
Definition prompt (query : string) : Script string :=
  answer <- question query ;; ret (JS.trim answer).

(** The spinner, without the ticks of its timer. *)
Definition spinner_start (newMessage : string) : Script unit :=
  fun s =>
    match spinning s with
    | Some _ => (Normal tt, s)
    | None =>
        (Normal tt,
         {| input := input s; spinning := Some newMessage;
            events := events s ++ [Write (newMessage +++ "...")] |})
    end.

Definition spinner_stop : Script unit :=
  fun s =>
    match spinning s with
    | Some message =>
        (Normal tt,
         {| input := input s; spinning := None;
            events := events s ++
              [Write (String "013"%char (message +++ "...done." +++ JS.nl))] |})
    | None => (Normal tt, s)
    end.

Fixpoint getArgValue (args : list string) (flag : string) : option string :=
  match args with
  | [] => None
  | a :: rest =>
      if String.eqb a flag && JS.truthy (hd_error rest)
      then hd_error rest
      else getArgValue rest flag
  end.

Definition execPromise_settle (r : ExecResult) : outcome string :=
  match error r with
  | Some e => Throw e
  | None =>
      if negb (String.eqb (stderr r) "") then Throw (PlainError (stderr r))
      else Ok (stdout r)
  end.

Definition execPromise (w : World) (cmd : string) : Script string :=
  emit (Exec cmd) ;; lift (execPromise_settle (executed w cmd)).

(** [servicesList.forEach((service, index) => print(...))], from
    position [index] on. *)
Fixpoint print_services (services : list string) (index : nat) : Script unit :=
  match services with
  | [] => ret tt
  | service :: rest =>
      print c.green ("[" +++ number (index + 1) +++ "] " +++ service) ;;
      print_services rest (S index)
  end.

Definition environment_of_choice (envChoice : Z) : option Env :=
  if envChoice =? 1 then Some Dev
  else if envChoice =? 2 then Some Qa
  else if envChoice =? 3 then Some Stg
  else None.

(** [parseInt(envAnswer) || 1] *)
Definition envChoice_of (envAnswer : string) : Z :=
  match JS.parseInt envAnswer with
  | Some n => if n =? 0 then 1 else n
  | None => 1
  end.

Definition getPodsCommand_of (namespace_ : option string) : string :=
  if JS.truthy namespace_
  then "kubectl get pods --namespace " +++ JS.show namespace_
  else "kubectl get pods --all-namespaces".

Definition getServicePortCommand_of (namespace_ : option string)
           (environment : Env) (selectedService : string) : string :=
  "kubectl get service --namespace " +++ JS.show namespace_ +++ " " +++
  env_name environment +++ "-" +++ JS.show namespace_ +++ "-" +++
  selectedService +++ " -o jsonpath={.spec.ports[*].port}".

Definition portForwardCommand_of (namespace_ : option string)
           (environment : Env) (selectedService serviceId localPort
            servicePort : string) : string :=
  "kubectl port-forward --namespace " +++ JS.show namespace_ +++ " " +++
  env_name environment +++ "-" +++ JS.show namespace_ +++ "-" +++
  selectedService +++ "-" +++ serviceId +++ " " +++
  localPort +++ ":" +++ servicePort.

Definition logsCommand_of (namespace_ : option string)
           (environment : Env) (selectedService serviceId : string) : string :=
  "kubectl logs --namespace " +++ JS.show namespace_ +++ " " +++
  env_name environment +++ "-" +++ JS.show namespace_ +++ "-" +++
  selectedService +++ "-" +++ serviceId +++ " -f".

Section Flow.

Variable host_regexp : string -> string -> outcome string.
Variable w : World.

(** [main], from the line that reads the command line on (the
    banner before it prints constant text).  When [main] ends
    having spawned port-forward, its value is what the handlers it
    registered keep: [localPort] and [logsCommand].  [main_try] is
    the block of its [try]. *)
Definition main_try (namespace0 : option string) (getPodsCommand : string)
  : Script (option (string * string)) :=
  podsData <- execPromise w getPodsCommand ;;
  spinner_stop ;;
  servicesMap <- lift (getServicesMap host_regexp podsData namespace0) ;;
  let servicesList := JS.sort (Map_keys servicesMap) in
  (if (length servicesList =? 0)%nat then
     print c.magenta "No services found." ;; rl_close ;; return_
   else ret tt) ;;
  print c.magenta (JS.nl +++ "Services found:") ;;
  print_services servicesList 0 ;;
  serviceAnswer <-
    prompt (colorText c.yellow "Select a service by typing a number: ") ;;
  let selectedIndex :=
    option_map (fun n => n - 1) (JS.parseInt serviceAnswer) in
  selectedService <-
    match selectedIndex with
    | Some i =>
        if (i <? 0) || (i >=? Z.of_nat (length servicesList)) then
          console_error
            "Invalid selection. Please run the script again and choose a valid number." ;;
          rl_close ;; return_
        else
          match JS.at_index servicesList i with
          | Some service => ret service
          | None => ret "undefined"   (* not reached: [i] is in range *)
          end
    | None =>
        console_error
          "Invalid selection. Please run the script again and choose a valid number." ;;
        rl_close ;; return_
    end ;;
  print c.cyan ("You selected: " +++ selectedService) ;;
  print c.magenta (JS.nl +++ "Environments:") ;;
  print c.green "[1] dev" ;;
  print c.green "[2] qa" ;;
  print c.green "[3] stg" ;;
  envAnswer <-
    prompt (colorText c.yellow
              "Select an environment by typing a number (default: 1): ") ;;
  let envChoice := envChoice_of envAnswer in
  environment <-
    match environment_of_choice envChoice with
    | Some e => ret e
    | None =>
        console_error
          "Invalid selection. Please run the script again and choose either '1', '2', or '3'." ;;
        rl_close ;; return_
    end ;;
  object <-
    match Map_get servicesMap selectedService with
    | Some o => ret o
    | None =>
        throw (TypeError
                 ("Cannot read properties of undefined (reading '" +++
                  env_name environment +++ "')"))
    end ;;
  serviceDetails <-
    match get_env object environment with
    | Some d => ret d
    | None =>
        console_error
          ("The selected environment " +++ dq +++ env_name environment +++
           dq +++ " does not exist for the service " +++ dq +++
           selectedService +++ dq +++
           ". Please run the script again and choose a valid environment.") ;;
        rl_close ;; return_
    end ;;
  let serviceId := id serviceDetails in
  let namespace1 := JS.nullish namespace0 (namespace serviceDetails) in
  localPortAnswer <-
    prompt (colorText c.yellow
              (JS.nl +++
               "Enter the local port to run the service (default: 3000): ")) ;;
  let localPort := JS.or_default localPortAnswer "3000" in
  let getServicePortCommand :=
    getServicePortCommand_of namespace1 environment selectedService in
  print c.green (JS.nl +++ "> " +++ getServicePortCommand) ;;
  spinner_start "Detecting port on the Kubernetes service" ;;
  servicePortDetected <- execPromise w getServicePortCommand ;;
  spinner_stop ;;
  print c.cyan ("Port detected: " +++ servicePortDetected +++ JS.nl) ;;
  servicePortAnswer <-
    prompt (colorText c.yellow
              ("Enter the destination port on the Kubernetes service. Try using port 3000 if the detected port fails (default: " +++
               servicePortDetected +++ "): ")) ;;
  let servicePort := JS.or_default servicePortAnswer servicePortDetected in
  let portForwardCommand :=
    portForwardCommand_of namespace1 environment selectedService
                          serviceId localPort servicePort in
  let logsCommand :=
    logsCommand_of namespace1 environment selectedService serviceId in
  print c.green (JS.nl +++ "> " +++ portForwardCommand) ;;
  spinner_start "Initializing port forwarding" ;;
  spawn "kubectl" (JS.slice_from1 (JS.split " " portForwardCommand)) ;;
  ret (Some (localPort, logsCommand)).

Definition main : Script (option (string * string)) :=
  let namespace0 := getArgValue (argv w) "--namespace" in
  let getPodsCommand := getPodsCommand_of namespace0 in
  print c.green (JS.nl +++ "> " +++ getPodsCommand) ;;
  spinner_start "Loading services" ;;
  try_catch
    (main_try namespace0 getPodsCommand)
    (fun error =>
       spinner_stop ;;
       console_error (message error) ;;
       rl_close ;;
       ret None).

(** [handleLogsProcess], entered when the first chunk has been
    handled.  The delay of 500 ms is not modelled: the question is
    asked before the next chunk is handled. *)
Definition handleLogsProcess (logsCommand : string) : Script unit :=
  logsAnswer <-
    prompt (colorText c.yellow
              (JS.nl +++ "Would you like to see the logs in real time? (Y/n): ")) ;;
  let logsChoice := JS.or_default (toLowerCase logsAnswer) "y" in
  (if String.eqb logsChoice "y" || String.eqb logsChoice "yes" then
     print c.green (JS.nl +++ "> " +++ logsCommand) ;;
     spinner_start "Fetching logs for the pod" ;;
     spawn "kubectl" (JS.slice_from1 (JS.split " " logsCommand))
   else print c.cyan "Skipping logs.") ;;
  rl_close.

(** The handler of [portForwardProcess.stdout.on("data", ...)] on
    the chunks that arrive; [portForwardFirstTime] is the flag of
    that name. *)
Fixpoint on_stdout (localPort logsCommand : string)
         (portForwardFirstTime : bool) (chunks : list string) : Script unit :=
  match chunks with
  | [] => ret tt
  | data :: rest =>
      (if portForwardFirstTime then spinner_stop else ret tt) ;;
      print c.green (JS.nl +++ data) ;;
      print c.magenta ("Service available at: http://localhost:" +++ localPort) ;;
      (if portForwardFirstTime
       then detach (handleLogsProcess logsCommand)
       else ret tt) ;;
      on_stdout localPort logsCommand false rest
  end.

(** The whole run: [main()], then the chunks of the child if it was
    spawned.  The handlers of the children that only print are left
    out. *)
Definition script : Script unit :=
  handlers <- main ;;
  match handlers with
  | Some (localPort, logsCommand) =>
      on_stdout localPort logsCommand true (forwarded w)
  | None => ret tt
  end.

Definition run : list event := events (snd (script (initial w))).

End Flow.

(** *** The handlers, one occurrence at a time

    [script] lets [handleLogsProcess] run to its end inside the first
    chunk and leaves out the handlers that only print.  Here every
    handler that the script registers is a step of its own, and so are
    the two places where [handleLogsProcess] waits, for its timer and
    for the answer: what happens after [main] is a list of occurrences
    in any order. *)

Inductive occurrence : Type :=
| ForwardOut (data : string)        (* portForwardProcess.stdout "data" *)
| ForwardErr (data : string)        (* portForwardProcess.stderr "data" *)
| ForwardClose (code : option nat)  (* portForwardProcess "close" *)
| Slept                             (* the timer of sleep(500) fires *)
| Answered                          (* the next line typed reaches the question *)
| LogsOut (data : string)           (* logsProcess.stdout "data" *)
| LogsErr (data : string)           (* logsProcess.stderr "data" *)
| LogsClose (code : option nat).    (* logsProcess "close" *)

(** Where the one call of [handleLogsProcess] stands. *)
Inductive logs_point : Type :=
| NotCalled
| Sleeping     (* at [await sleep(500)] *)
| Asking       (* at [await prompt(...)] *)
| Over.

(** The variables the handlers share. *)
Record Handlers : Type := {
  portForwardFirstTime : bool;
  handleLogs : logs_point;
  logsProcess : bool;         (* the logs child is spawned, its handlers registered *)
  logsFirstTime : bool
}.

Definition registered : Handlers :=
  {| portForwardFirstTime := true; handleLogs := NotCalled;
     logsProcess := false; logsFirstTime := true |}.

(** [`${code}`] for the exit code of a child, [null] when a signal
    ended it. *)
Definition show_code (code : option nat) : string :=
  match code with Some n => number n | None => "null" end.

(** [portForwardProcess.stdout.on("data", ...)]; emitting
    [portForwardDataReceived] calls [handleLogsProcess], which runs up
    to its [await sleep(500)]. *)
Definition portForward_stdout (localPort data : string) (h : Handlers)
  : Script Handlers :=
  (if portForwardFirstTime h then spinner_stop else ret tt) ;;
  print c.green (JS.nl +++ data) ;;
  print c.magenta ("Service available at: http://localhost:" +++ localPort) ;;
  if negb (portForwardFirstTime h) then ret h
  else ret {| portForwardFirstTime := false; handleLogs := Sleeping;
              logsProcess := logsProcess h;
              logsFirstTime := logsFirstTime h |}.

Definition portForward_stderr (data : string) : Script unit :=
  console_error (JS.nl +++ data).

Definition portForward_close (code : option nat) : Script unit :=
  print c.cyan (JS.nl +++ "Port-forward process exited with code " +++
                show_code code).

(** [handleLogsProcess] from the end of its sleep to [await prompt]:
    the question is put. *)
Definition handleLogsProcess_slept : Script unit :=
  emit (Question
          (colorText c.yellow
             (JS.nl +++ "Would you like to see the logs in real time? (Y/n): "))).

(** [handleLogsProcess] from the answer, trimmed by [prompt], to its
    end; the value tells whether the logs child was spawned. *)
Definition handleLogsProcess_answered (logsCommand logsAnswer : string)
  : Script bool :=
  let logsChoice := JS.or_default (toLowerCase logsAnswer) "y" in
  spawned <-
    (if String.eqb logsChoice "y" || String.eqb logsChoice "yes" then
       print c.green (JS.nl +++ "> " +++ logsCommand) ;;
       spinner_start "Fetching logs for the pod" ;;
       spawn "kubectl" (JS.slice_from1 (JS.split " " logsCommand)) ;;
       ret true
     else print c.cyan "Skipping logs." ;; ret false) ;;
  rl_close ;;
  ret spawned.

(** The line that answers a question pending, when one is typed. *)
Definition take_line : Script (option string) :=
  fun s =>
    match input s with
    | [] => (Normal None, s)
    | line :: rest =>
        (Normal (Some line),
         {| input := rest; spinning := spinning s; events := events s |})
    end.

Definition logs_stdout (data : string) (h : Handlers) : Script Handlers :=
  (if logsFirstTime h then spinner_stop else ret tt) ;;
  print c.reset data ;;
  ret {| portForwardFirstTime := portForwardFirstTime h;
         handleLogs := handleLogs h; logsProcess := logsProcess h;
         logsFirstTime := false |}.

Definition logs_stderr (data : string) : Script unit := console_error data.

Definition logs_close (code : option nat) : Script unit :=
  print c.cyan ("Logs process exited with code " +++ show_code code).

(** One occurrence.  An occurrence that cannot take place (a timer
    that was not set, an answer to no question, output of a child
    that was not spawned) changes nothing. *)
Definition occur (localPort logsCommand : string) (o : occurrence)
           (h : Handlers) : Script Handlers :=
  match o with
  | ForwardOut data => portForward_stdout localPort data h
  | ForwardErr data => portForward_stderr data ;; ret h
  | ForwardClose code => portForward_close code ;; ret h
  | Slept =>
      match handleLogs h with
      | Sleeping =>
          handleLogsProcess_slept ;;
          ret {| portForwardFirstTime := portForwardFirstTime h;
                 handleLogs := Asking; logsProcess := logsProcess h;
                 logsFirstTime := logsFirstTime h |}
      | _ => ret h
      end
  | Answered =>
      match handleLogs h with
      | Asking =>
          answer <- take_line ;;
          match answer with
          | Some line =>
              spawned <- handleLogsProcess_answered logsCommand (JS.trim line) ;;
              ret {| portForwardFirstTime := portForwardFirstTime h;
                     handleLogs := Over; logsProcess := spawned;
                     logsFirstTime := true |}
          | None => ret h
          end
      | _ => ret h
      end
  | LogsOut data => if logsProcess h then logs_stdout data h else ret h
  | LogsErr data => if logsProcess h then logs_stderr data ;; ret h else ret h
  | LogsClose code => if logsProcess h then logs_close code ;; ret h else ret h
  end.

Fixpoint occur_all (localPort logsCommand : string) (os : list occurrence)
         (h : Handlers) : Script Handlers :=
  match os with
  | [] => ret h
  | o :: rest =>
      h' <- occur localPort logsCommand o h ;;
      occur_all localPort logsCommand rest h'
  end.

(** A run: [main()], and then, if port-forward was spawned, what
    occurs. *)
Definition run_schedule
           (host_regexp : string -> string -> outcome string) (w : World)
           (os : list occurrence) : list event :=
  match main host_regexp w (initial w) with
  | (Normal (Some (localPort, logsCommand)), s) =>
      events (snd (occur_all localPort logsCommand os registered s))
  | (_, s) => events s
  end.

(** The occurrences as [script] orders them: the timer fires and the
    answer arrives before the second chunk does. *)
Definition schedule_of (chunks : list string) : list occurrence :=
  match chunks with
  | [] => []
  | data :: rest => ForwardOut data :: Slept :: Answered :: map ForwardOut rest
  end.

End V2.

(** ** Version 0.0.1: the callback of [exec] and the callbacks nested in it *)

Module V1.

Module colors.
Definition reset := sgr "0".
Definition fgRed := sgr "31".
Definition fgGreen := sgr "32".
Definition fgYellow := sgr "33".
Definition fgMagenta := sgr "35".
Definition fgCyan := sgr "36".
End colors.

Fixpoint print_services (serviceList : list string) (index : nat) : Script unit :=
  match serviceList with
  | [] => ret tt
  | service :: rest =>
      console_log (colors.fgGreen +++ "[" +++ number (index + 1) +++ "] " +++
                   service +++ colors.reset) ;;
      print_services rest (S index)
  end.

(** The chain of [===] tests on the text of the answer. *)
Definition environment_of_choice (envChoice : string) : option Env :=
  if String.eqb envChoice "1" then Some Dev
  else if String.eqb envChoice "2" then Some Qa
  else if String.eqb envChoice "3" then Some Stg
  else None.

Definition portForwardCommand_of (namespace_ : option string)
           (environment : Env) (selectedService serviceId localPort : string)
  : string :=
  "kubectl port-forward --namespace " +++ JS.show namespace_ +++ " " +++
  env_name environment +++ "-" +++ JS.show namespace_ +++ "-" +++
  selectedService +++ "-" +++ serviceId +++ " " +++ localPort +++ ":3000".

Section Flow.

Variable host_regexp : string -> string -> outcome string.
Variable w : World.

(** The statements of the callback from the parsing loop on. *)
Definition after_listing (stdout_ : string) : Script unit :=
  (* the parsing loop: the statements of [getServicesMap] without
     a namespace argument *)
  servicesMap <- lift (getServicesMap host_regexp stdout_ None) ;;
  let serviceList := JS.sort (Map_keys servicesMap) in
  console_log (colors.fgCyan +++ "Services found:" +++ colors.reset) ;;
  print_services serviceList 0 ;;
  (if (length serviceList =? 0)%nat then
     console_log (colors.fgMagenta +++ "No services found." +++ colors.reset) ;;
     return_
   else ret tt) ;;
  answer <-
    question (colors.fgYellow +++
              "Please select a service by typing a number: " +++ colors.reset) ;;
  let selectedIndex := option_map (fun n => n - 1) (JS.parseInt answer) in
  match selectedIndex with
  | Some i =>
      if (i >=? 0) && (i <? Z.of_nat (length serviceList)) then
        selectedService <-
          match JS.at_index serviceList i with
          | Some service => ret service
          | None => ret "undefined"   (* not reached: [i] is in range *)
          end ;;
        console_log (colors.fgCyan +++ "You selected: " +++ selectedService +++
                     colors.reset) ;;
        console_log (colors.fgYellow +++ "Select an environment:" +++
                     colors.reset) ;;
        console_log (colors.fgGreen +++ "[1] dev" +++ colors.reset) ;;
        console_log (colors.fgGreen +++ "[2] qa" +++ colors.reset) ;;
        console_log (colors.fgGreen +++ "[3] stg" +++ colors.reset) ;;
        envChoice <-
          question (colors.fgYellow +++ "Enter your choice (1, 2, or 3): " +++
                    colors.reset) ;;
        environment <-
          match environment_of_choice envChoice with
          | Some e => ret e
          | None =>
              console_log
                (colors.fgRed +++
                 "Invalid selection. Please run the script again and choose either " +++
                 dq +++ "1" +++ dq +++ ", " +++ dq +++ "2" +++ dq +++ ", or " +++
                 dq +++ "3" +++ dq +++ "." +++ colors.reset) ;;
              rl_close ;; return_
          end ;;
        object <-
          match Map_get servicesMap selectedService with
          | Some o => ret o
          | None =>
              throw (TypeError
                       ("Cannot read properties of undefined (reading '" +++
                        env_name environment +++ "')"))
          end ;;
        serviceDetails <-
          match get_env object environment with
          | Some d => ret d
          | None =>
              console_log
                (colors.fgRed +++ "The selected environment " +++ dq +++
                 env_name environment +++ dq +++
                 " does not exist for the service " +++ dq +++
                 selectedService +++ dq +++
                 ". Please run the script again and choose a valid environment." +++
                 colors.reset) ;;
              rl_close ;; return_
          end ;;
        let serviceId := id serviceDetails in
        let namespace_ := namespace serviceDetails in
        portInput <-
          question (colors.fgYellow +++
                    "Enter the local port to run the service (default is 3000): " +++
                    colors.reset) ;;
        let localPort := JS.or_default (JS.trim portInput) "3000" in
        let portForwardCommand :=
          portForwardCommand_of namespace_ environment selectedService
                                serviceId localPort in
        console_log (colors.fgCyan +++ "Generated command:" +++ colors.reset) ;;
        console_log (colors.fgGreen +++ portForwardCommand +++ colors.reset) ;;
        console_log (colors.fgGreen +++
                     "Running the port-forward command, please wait..." +++
                     colors.reset) ;;
        spawn "kubectl"
              ["port-forward"; "--namespace"; JS.show namespace_;
               env_name environment +++ "-" +++ JS.show namespace_ +++ "-" +++
               selectedService +++ "-" +++ serviceId;
               localPort +++ ":3000"] ;;
        rl_close
      else
        console_log (colors.fgRed +++
                     "Invalid selection. Please run the script again and choose a valid number." +++
                     colors.reset) ;;
        rl_close
  | None =>
      console_log (colors.fgRed +++
                   "Invalid selection. Please run the script again and choose a valid number." +++
                   colors.reset) ;;
      rl_close
  end.

(** The callback of [exec]. *)
Definition callback (r : ExecResult) : Script unit :=
  match error r with
  | Some e =>
      console_error (colors.fgRed +++ "Error executing kubectl: " +++
                     message e +++ colors.reset) ;;
      return_
  | None =>
      if negb (String.eqb (stderr r) "") then
        console_error (colors.fgRed +++ "stderr: " +++ stderr r +++
                       colors.reset) ;;
        return_
      else after_listing (stdout r)
  end.

(** The statements of the file, top to bottom.  The handlers of the
    child only print and are left out. *)
Definition script : Script unit :=
  console_log (colors.fgCyan +++ "K8s Service Loader Script" +++ colors.reset) ;;
  console_log (colors.fgYellow +++ "Version: 0.0.1" +++ colors.reset) ;;
  console_log (colors.fgGreen +++ "Loading services, please wait..." +++
               colors.reset) ;;
  emit (Exec "kubectl get pods --all-namespaces") ;;
  callback (executed w "kubectl get pods --all-namespaces").

(** A run; an exception that leaves the callback ends the process. *)
Definition run : list event :=
  match script (initial w) with
  | (Thrown e, s) => events s ++ [Uncaught e]
  | (_, s) => events s
  end.

End Flow.

End V1.

(** ** Notions used in the statements *)

(** The object a key holds before an entry is stored under it. *)
Definition object_at (m : ServicesMap) (k : string) : EnvObject :=
  match Map_get m k with Some o => o | None => empty_object end.

(** The row [line] qualifies for the entry [d] of service [s] under
    environment [e]: its NAME column starts with the prefix of [e],
    what is left of it after the two replacements splits into more
    than two segments, and [s] and [d] are read off these segments. *)
Definition qualifies (host_regexp : string -> string -> outcome string)
           (namespace_arg : option string) (namespaceIndex nameIndex : Z)
           (line : string) (s : string) (e : Env) (d : ServiceDetails) : Prop :=
  let columns := JS.split_spaces line in
  let namespaceColumn :=
    JS.nullish namespace_arg (JS.at_index columns namespaceIndex) in
  exists nameColumn modifiedName,
    JS.at_index columns nameIndex = Some nameColumn /\
    JS.startsWith nameColumn (env_name e +++ "-") = true /\
    modified_name host_regexp namespaceColumn nameColumn = Ok modifiedName /\
    (2 < length (JS.split "-" modifiedName))%nat /\
    s = JS.join "-" (JS.slice_but_last2 (JS.split "-" modifiedName)) /\
    d = {| id := JS.join "-" (JS.slice_last2 (JS.split "-" modifiedName));
           namespace := namespaceColumn |}.

(** The rows of a listing and the two column positions, as
    [getServicesMap] computes them. *)
Definition lines_of (podsData : string) : list string :=
  JS.split JS.LF (JS.trim podsData).
Definition namespaceIndex_of (podsData : string) : Z :=
  JS.indexOf (JS.split_spaces (hd "" (lines_of podsData))) "NAMESPACE".
Definition nameIndex_of (podsData : string) : Z :=
  JS.indexOf (JS.split_spaces (hd "" (lines_of podsData))) "NAME".

(** A listing in which the namespace occurs in the middle of a name. *)
Definition listing_mid_name : string :=
  "NAMESPACE   NAME                         READY" +++ JS.nl +++
  "team        dev-api-team-web-ab12-xy34   1/1".

(** Events of a kind. *)
Definition is_spawn (e : event) : bool :=
  match e with Spawn _ _ => true | _ => false end.
Definition is_question (e : event) : bool :=
  match e with Question _ => true | _ => false end.
Definition is_error (e : event) : bool :=
  match e with LogError _ => true | _ => false end.

(** The lines that list the services, as events. *)
Fixpoint v2_service_lines (services : list string) (index : nat) : list event :=
  match services with
  | [] => []
  | service :: rest =>
      Log (V2.colorText V2.c.green
             ("[" +++ number (index + 1) +++ "] " +++ service))
      :: v2_service_lines rest (S index)
  end.

Fixpoint v1_service_lines (services : list string) (index : nat) : list event :=
  match services with
  | [] => []
  | service :: rest =>
      Log (V1.colors.fgGreen +++ "[" +++ number (index + 1) +++ "] " +++
           service +++ V1.colors.reset)
      :: v1_service_lines rest (S index)
  end.

(** The state of version 0.0.2 when the block of [try] is entered: the
    command line has been printed and the spinner started. *)
Definition v2_try_state (w : World) : State :=
  let namespace0 := V2.getArgValue (argv w) "--namespace" in
  {| input := typed w;
     spinning := Some "Loading services";
     events :=
       [Log (V2.colorText V2.c.green
               (JS.nl +++ "> " +++ V2.getPodsCommand_of namespace0));
        Write "Loading services..."] |}.

(** The state of version 0.0.1 when the callback of [exec] is entered. *)
Definition v1_callback_state (w : World) : State :=
  {| input := typed w;
     spinning := None;
     events :=
       [Log (V1.colors.fgCyan +++ "K8s Service Loader Script" +++ V1.colors.reset);
        Log (V1.colors.fgYellow +++ "Version: 0.0.1" +++ V1.colors.reset);
        Log (V1.colors.fgGreen +++ "Loading services, please wait..." +++
             V1.colors.reset);
        Exec "kubectl get pods --all-namespaces"] |}.

(** Whether a character occurs in a string. *)
Fixpoint occurs (c : ascii) (s : string) : bool :=
  match s with
  | "" => false
  | String a s' => Ascii.eqb a c || occurs c s'
  end.

(** ** Worlds for running examples *)

Definition succeeded (out : string) : ExecResult :=
  {| error := None; stdout := out; stderr := "" |}.

Definition failed (text : string) : ExecResult :=
  {| error := Some (ChildError text); stdout := ""; stderr := text |}.

(** A cluster that lists [listing1] and whose services listen on 8080. *)
Definition cluster1 (command : string) : ExecResult :=
  if String.eqb command "kubectl get pods --all-namespaces"
  then succeeded listing1
  else if String.prefix "kubectl get service " command
       then succeeded "8080"
       else failed ("Command failed: " +++ command).

Definition world1 (lines : list string) : World :=
  {| argv := []; executed := cluster1; typed := lines; forwarded := [] |}.

(** The same, with port-forward reporting twice on its standard output. *)
Definition world1_forwarding (lines : list string) : World :=
  {| argv := []; executed := cluster1; typed := lines;
     forwarded := ["Forwarding from 127.0.0.1:3000 -> 8080";
                   "Handling connection for 3000"] |}.

(** A cluster without pods: the listing is the header row. *)
Definition world_empty : World :=
  {| argv := [];
     executed := fun _ =>
       succeeded ("NAMESPACE   NAME   READY   STATUS   RESTARTS   AGE" +++ JS.nl);
     typed := [];
     forwarded := [] |}.

(** The objects that [listing1] yields. *)
Definition checkout_object : EnvObject :=
  {| dev := Some {| id := "ab12-xy34"; namespace := Some "team-alpha" |};
     qa := Some {| id := "cd56-zw78"; namespace := Some "team-alpha" |};
     stg := None |}.

Definition api_gw_object : EnvObject :=
  {| dev := None; qa := None;
     stg := Some {| id := "11aa-22bb"; namespace := Some "team-beta" |} |}.

Definition map1 : ServicesMap :=
  [("checkout", checkout_object); ("api-gw", api_gw_object)].

(** ** Notions used in the further statements *)

(** The entry of service [s] under environment [e], if the mapping has
    one: [m.get(s)] and then the property [e]. *)
Definition entry_of (m : ServicesMap) (s : string) (e : Env)
  : option ServiceDetails :=
  match Map_get m s with
  | Some o => get_env o e
  | None => None
  end.

(** The pod identifier that both versions put together for the
    commands: [`${environment}-${namespace}-${selectedService}-${serviceId}`]. *)
Definition pod_identifier (environment : Env) (namespace_ : option string)
           (selectedService serviceId : string) : string :=
  env_name environment +++ "-" +++ JS.show namespace_ +++ "-" +++
  selectedService +++ "-" +++ serviceId.

(** Two pods of the same service and environment, one listed after the
    other. *)
Definition listing_two_revisions : string :=
  "NAMESPACE    NAME                                READY" +++ JS.nl +++
  "team-alpha   dev-team-alpha-checkout-ab12-xy34   1/1" +++ JS.nl +++
  "team-alpha   qa-team-alpha-checkout-cd56-zw78    1/1" +++ JS.nl +++
  "team-alpha   dev-team-alpha-checkout-ef90-uv12   1/1" +++ JS.nl +++
  "team-beta    stg-team-beta-api-gw-11aa-22bb      1/1".

(** A pod whose name does not carry its namespace. *)
Definition listing_plain_name : string :=
  "NAMESPACE   NAME                     READY" +++ JS.nl +++
  "team        dev-checkout-ab12-xy34   1/1".

(** A world whose listing is a given text. *)
Definition world_listing (text : string) (lines : list string) : World :=
  {| argv := [];
     executed := fun command =>
       if String.eqb command "kubectl get pods --all-namespaces"
       then succeeded text
       else if String.prefix "kubectl get service " command
            then succeeded "8080"
            else failed ("Command failed: " +++ command);
     typed := lines;
     forwarded := [] |}.

(** A listing without headers. *)
Definition listing_no_headers : string :=
  "team-alpha   dev-team-alpha-checkout-ab12-xy34   1/1" +++ JS.nl +++
  "team-alpha   qa-team-alpha-checkout-cd56-zw78    1/1".

(** A listing as [kubectl get pods --namespace NS] prints it. *)
Definition listing_one_namespace : string :=
  "NAME                                READY   STATUS" +++ JS.nl +++
  "dev-team-alpha-checkout-ab12-xy34   1/1     Running".

(** A cluster that lists [listing1] but has no service objects. *)
Definition world_no_service (lines : list string) : World :=
  {| argv := [];
     executed := fun command =>
       if String.eqb command "kubectl get pods --all-namespaces"
       then succeeded listing1
       else failed "Error from server (NotFound)";
     typed := lines;
     forwarded := [] |}.

(** A cluster that cannot be reached, asked for one namespace. *)
Definition world_unreachable : World :=
  {| argv := ["--namespace"; "team-alpha"];
     executed := fun _ => failed "error: the server is unreachable";
     typed := ["1"];
     forwarded := [] |}.

(** The two lines that the handler of port-forward's standard output
    prints for a chunk. *)
Definition chunk_lines (localPort data : string) : list event :=
  [Log (V2.colorText V2.c.green (JS.nl +++ data));
   Log (V2.colorText V2.c.magenta
          ("Service available at: http://localhost:" +++ localPort))].

(** The question about the logs. *)
Definition logs_question : event :=
  Question (V2.colorText V2.c.yellow
              (JS.nl +++ "Would you like to see the logs in real time? (Y/n): ")).

(** Whether an answer to it, as typed, asks for the logs. *)
Definition wants_logs (line : string) : bool :=
  let logsChoice := JS.or_default (toLowerCase (JS.trim line)) "y" in
  String.eqb logsChoice "y" || String.eqb logsChoice "yes".

(** How the block of [try] of version 0.0.2 can end, as far as child
    processes go: with the handlers registered right after port-forward
    was spawned as the only child, or with no child at all. *)
Definition is_close (e : event) : bool :=
  match e with Close => true | _ => false end.
Definition is_log (e : event) : bool :=
  match e with Log _ => true | _ => false end.

Definition v2_try_ending
           (r : completion (option (string * string)) * State) : Prop :=
  match r with
  | (Normal (Some (_, logsCommand)), s) =>
      exists before args,
        events s = before ++ [Spawn "kubectl" args] /\
        existsb is_spawn before = false /\
        hd_error args = Some "port-forward" /\
        hd_error (JS.slice_from1 (JS.split " " logsCommand)) = Some "logs"
  | (Normal None, _) => False
  | (_, s) => existsb is_spawn (events s) = false
  end.

(** The same as far as the session goes: the block returns right after
    closing it, and ends otherwise with the session open. *)
Definition v2_try_session
           (r : completion (option (string * string)) * State) : Prop :=
  match r with
  | (Returned, s) =>
      exists before,
        events s = before ++ [Close] /\ existsb is_close before = false
  | (_, s) => existsb is_close (events s) = false
  end.

(** How the callback of version 0.0.1 can end: without a child, or with
    one child, spawned last before the session is closed. *)
Definition v1_ending (r : completion unit * State) : Prop :=
  existsb is_spawn (events (snd r)) = false \/
  exists before namespace_ pod localPort,
    events (snd r)
    = before ++
      [Spawn "kubectl"
             ["port-forward"; "--namespace"; namespace_; pod;
              localPort +++ ":3000"];
       Close] /\
    existsb is_spawn before = false /\
    existsb is_close before = false /\
    fst r = Normal tt.

(** The same world with other lines typed. *)
Definition with_typed (w : World) (lines : list string) : World :=
  {| argv := argv w; executed := executed w; typed := lines;
     forwarded := forwarded w |}.

(** The state in which the lines still to be read have lost the white
    space around them, and the scripts that cannot tell the difference:
    run from such a state they do the same, and leave the same. *)
Definition trim_input (s : State) : State :=
  {| input := map JS.trim (input s); spinning := spinning s;
     events := events s |}.

Definition reads_trimmed {A : Type} (m : Script A) : Prop :=
  forall s, m (trim_input s) = (fst (m s), trim_input (snd (m s))).

Definition is_exec (e : event) : bool :=
  match e with Exec _ => true | _ => false end.

(** The commands the block of [try] of version 0.0.2 has run when it
    ends: the listing, and after it at most the detection of the
    port. *)
Definition v2_try_commands (w : World)
           (r : completion (option (string * string)) * State) : Prop :=
  let listing :=
    Exec (V2.getPodsCommand_of (V2.getArgValue (argv w) "--namespace")) in
  filter is_exec (events (snd r)) = [listing] \/
  exists namespace_ environment selectedService,
    filter is_exec (events (snd r))
    = [listing;
       Exec (V2.getServicePortCommand_of namespace_ environment
                                         selectedService)].

(** What only shows on the terminal. *)
Definition is_print (e : event) : bool :=
  match e with Log _ | LogError _ | Write _ => true | _ => false end.

(** After the first [Close], if there is one, there are only prints. *)
Fixpoint closed_well (ev : list event) : bool :=
  match ev with
  | [] => true
  | Close :: rest => forallb is_print rest
  | _ :: rest => closed_well rest
  end.

(** What holds of the handlers' variables and the events between two
    occurrences: once the session is closed, [handleLogsProcess] is
    over and the first chunk has been handled. *)
Definition session_shape (h : V2.Handlers) (ev : list event) : Prop :=
  closed_well ev = true /\
  (existsb is_close ev = true ->
   V2.portForwardFirstTime h = false /\ V2.handleLogs h = V2.Over) /\
  (V2.handleLogs h <> V2.NotCalled -> V2.portForwardFirstTime h = false).

(** A schedule in which the output and the ends of the two children,
    the timer and the answer interleave. *)
Definition schedule_interleaved : list V2.occurrence :=
  [V2.ForwardOut "Forwarding from 127.0.0.1:3000 -> 8080";
   V2.ForwardErr "warning";
   V2.Slept;
   V2.ForwardOut "Handling connection for 3000";
   V2.Answered;
   V2.LogsOut "listening";
   V2.LogsErr "oops";
   V2.LogsClose (Some 1%nat);
   V2.ForwardClose None].

(** What holds of the children between two occurrences: port-forward
    is the one child, until [handleLogsProcess] is over and may have
    added the logs. *)
Definition children_shape (forward logs : list string) (h : V2.Handlers)
           (ev : list event) : Prop :=
  (V2.handleLogs h <> V2.NotCalled -> V2.portForwardFirstTime h = false) /\
  (filter is_spawn ev = [Spawn "kubectl" forward] \/
   (V2.handleLogs h = V2.Over /\
    filter is_spawn ev = [Spawn "kubectl" forward; Spawn "kubectl" logs])).
(** * Properties *)

(** ** The library functions and the parser on examples *)

Example split_spaces_1 : JS.split_spaces " a" = [""; "a"]. Proof. reflexivity. Qed.
Example split_spaces_2 : JS.split_spaces "a  b " = ["a"; "b"; ""]. Proof. reflexivity. Qed.
Example split_1 : JS.split "-" "a--b" = ["a"; ""; "b"]. Proof. reflexivity. Qed.
Example trim_1 : JS.trim "  a b  " = "a b". Proof. reflexivity. Qed.
Example parseInt_1 : JS.parseInt " 12ab" = Some 12. Proof. reflexivity. Qed.
Example parseInt_2 : JS.parseInt "0x1f" = Some 31. Proof. reflexivity. Qed.
Example parseInt_3 : JS.parseInt "-7" = Some (-7). Proof. reflexivity. Qed.
Example parseInt_4 : JS.parseInt "abc" = None. Proof. reflexivity. Qed.
Example parseInt_5 : JS.parseInt "" = None. Proof. reflexivity. Qed.
Example indexOf_1 : JS.indexOf ["a"; "b"] "b" = 1. Proof. reflexivity. Qed.
Example indexOf_2 : JS.indexOf ["a"; "b"] "c" = -1. Proof. reflexivity. Qed.
Example sort_1 : JS.sort ["b"; "a"; "ab"] = ["a"; "ab"; "b"]. Proof. reflexivity. Qed.
Example listing1_parsed :
  getServicesMap no_engine listing1 None =
  Ok [("checkout",
       {| dev := Some {| id := "ab12-xy34"; namespace := Some "team-alpha" |};
          qa := Some {| id := "cd56-zw78"; namespace := Some "team-alpha" |};
          stg := None |});
      ("api-gw",
       {| dev := None; qa := None;
          stg := Some {| id := "11aa-22bb"; namespace := Some "team-beta" |} |})].
Proof. reflexivity. Qed.

Example listing1_parsed_map1 :
  getServicesMap no_engine listing1 None = Ok map1.
Proof. reflexivity. Qed.

Example listing1_twice :
  getServicesMap_in no_engine listing1 None []
  = (Ok 0%nat, [map1]) /\
  getServicesMap_in no_engine listing1 None [map1]
  = (Ok 1%nat, [map1; map1]).
Proof. split; reflexivity. Qed.

Example short_row_throws :
  getServicesMap no_engine ("NAMESPACE NAME" +++ JS.nl +++ "lonely") None
  = Throw (TypeError
             "Cannot read properties of undefined (reading 'startsWith')").
Proof. reflexivity. Qed.

Example logs_follow_first_chunk :
  filter is_spawn (V2.run no_engine (world1_forwarding ["2"; "1"; ""; ""; "Y"]))
  = [Spawn "kubectl"
           ["port-forward"; "--namespace"; "team-alpha";
            "dev-team-alpha-checkout-ab12-xy34"; "3000:8080"];
     Spawn "kubectl"
           ["logs"; "--namespace"; "team-alpha";
            "dev-team-alpha-checkout-ab12-xy34"; "-f"]].
Proof. reflexivity. Qed.

Example logs_declined :
  filter is_spawn (V2.run no_engine (world1_forwarding ["2"; "1"; ""; ""; "n"]))
  = [Spawn "kubectl"
           ["port-forward"; "--namespace"; "team-alpha";
            "dev-team-alpha-checkout-ab12-xy34"; "3000:8080"]].
Proof. reflexivity. Qed.

Example listing_fails :
  V2.run no_engine
         {| argv := ["--namespace"; "team-alpha"];
            executed := fun _ => failed "error: the server is unreachable";
            typed := []; forwarded := [] |}
  = [Log (V2.colorText V2.c.green
            (JS.nl +++ "> kubectl get pods --namespace team-alpha"));
     Write "Loading services...";
     Exec "kubectl get pods --namespace team-alpha";
     Write (String "013"%char ("Loading services...done." +++ JS.nl));
     LogError "error: the server is unreachable";
     Close].
Proof. reflexivity. Qed.

(** ** Maps *)

Lemma Map_get_set_same (m : ServicesMap) (k : string) (o : EnvObject) :
  Map_get (Map_set m k o) k = Some o.
Proof.
  induction m as [|[k' o'] m IH]; simpl.
  - now rewrite String.eqb_refl.
  - destruct (String.eqb k' k) eqn:E; simpl; now rewrite E.
Qed.

Lemma Map_get_set_other (m : ServicesMap) (k k' : string) (o : EnvObject) :
  k <> k' -> Map_get (Map_set m k o) k' = Map_get m k'.
Proof.
  intros Hne. induction m as [|[k0 o0] m IH]; simpl.
  - destruct (String.eqb k k') eqn:E; [apply String.eqb_eq in E; contradiction | reflexivity].
  - destruct (String.eqb k0 k) eqn:E; simpl.
    + apply String.eqb_eq in E. subst k0.
      destruct (String.eqb k k') eqn:E'; [apply String.eqb_eq in E'; contradiction | reflexivity].
    + now rewrite IH.
Qed.

Lemma get_set_env_same (o : EnvObject) (e : Env) (d : ServiceDetails) :
  get_env (set_env o e d) e = Some d.
Proof. now destruct e. Qed.

Lemma get_set_env_other (o : EnvObject) (e e' : Env) (d : ServiceDetails) :
  e <> e' -> get_env (set_env o e d) e' = get_env o e'.
Proof. destruct e, e'; simpl; congruence. Qed.

Lemma Env_eq_dec (a b : Env) : {a = b} + {a <> b}.
Proof. decide equality. Qed.

Lemma store_eq (m : ServicesMap) (k : string) (e : Env) (d : ServiceDetails) :
  store m k e d = Map_set m k (set_env (object_at m k) e d).
Proof.
  unfold store, object_at, Map_has.
  destruct (Map_get m k) as [o|] eqn:G.
  - now rewrite G.
  - rewrite Map_get_set_same.
    clear G. induction m as [|[k' o'] m IH]; simpl.
    + now rewrite String.eqb_refl.
    + destruct (String.eqb k' k) eqn:E; simpl; rewrite E; [reflexivity | now rewrite IH].
Qed.

Lemma store_get_same (m : ServicesMap) (k : string) (e : Env) (d : ServiceDetails) :
  Map_get (store m k e d) k = Some (set_env (object_at m k) e d).
Proof. rewrite store_eq. apply Map_get_set_same. Qed.

Lemma store_get_other (m : ServicesMap) (k k' : string) (e : Env) (d : ServiceDetails) :
  k <> k' -> Map_get (store m k e d) k' = Map_get m k'.
Proof. intros. rewrite store_eq. now apply Map_get_set_other. Qed.

(** ** C1 *)

(** C1.  A row whose NAME column is [dev-team-alpha-checkout-ab12-xy34]
    and whose namespace resolves to [team-alpha] (from the argument or
    from the row's NAMESPACE column) leaves a mapping in which service
    [checkout] has a [dev] entry with id [ab12-xy34] and namespace
    [team-alpha], whatever the mapping held before. *)
Theorem checkout_row_entry :
  forall (host_regexp : string -> string -> outcome string)
         (namespace_arg : option string) (namespaceIndex nameIndex : Z)
         (line : string) (m : ServicesMap),
    JS.at_index (JS.split_spaces line) nameIndex
      = Some "dev-team-alpha-checkout-ab12-xy34" ->
    JS.nullish namespace_arg (JS.at_index (JS.split_spaces line) namespaceIndex)
      = Some "team-alpha" ->
    exists m' o,
      loop_body host_regexp namespace_arg namespaceIndex nameIndex line m = Ok m' /\
      Map_get m' "checkout" = Some o /\
      get_env o Dev = Some {| id := "ab12-xy34"; namespace := Some "team-alpha" |}.
Proof.
  intros host ns nsI nI line m Hname Hns.
  unfold loop_body. rewrite Hname, Hns. cbn.
  eexists. eexists. split; [reflexivity|].
  split; [apply store_get_same | reflexivity].
Qed.

Lemma checkout_row_entry_witness :
  exists m' o,
    loop_body no_engine None 0 1
      "team-alpha   dev-team-alpha-checkout-ab12-xy34   1/1     Running" [] = Ok m' /\
    Map_get m' "checkout" = Some o /\
    get_env o Dev = Some {| id := "ab12-xy34"; namespace := Some "team-alpha" |}.
Proof.
  apply (checkout_row_entry no_engine None 0 1
           "team-alpha   dev-team-alpha-checkout-ab12-xy34   1/1     Running" []);
    reflexivity.
Defined.

(** ** Strings *)

Lemma prefix_append (p t : string) : String.prefix p (p +++ t) = true.
Proof.
  induction p as [|a p IH]; simpl.
  - now destruct t.
  - destruct (ascii_dec a a) as [_|N]; [exact IH | now contradiction N].
Qed.

Lemma prefix_decompose (p s : string) :
  String.prefix p s = true -> exists t, s = p +++ t.
Proof.
  revert s. induction p as [|a p IH]; intros s H.
  - now exists s.
  - destruct s as [|b s]; simpl in H; [discriminate|].
    destruct (ascii_dec a b) as [->|_]; [|discriminate].
    destruct (IH _ H) as [t ->]. now exists t.
Qed.

Lemma drop_append (p t : string) : drop (String.length p) (p +++ t) = t.
Proof. induction p as [|a p IH]; simpl; [now destruct t | exact IH]. Qed.

Lemma length_append (a b : string) :
  String.length (a +++ b) = (String.length a + String.length b)%nat.
Proof. induction a as [|c a IH]; simpl; [reflexivity | now rewrite IH]. Qed.

Lemma append_assoc (a b c : string) : (a +++ b) +++ c = a +++ b +++ c.
Proof. induction a as [|x a IH]; simpl; [reflexivity | now rewrite IH]. Qed.

(** ** The namespace pattern (C3) *)

Lemma strip_namespace_ordinary
      (host_regexp : string -> string -> outcome string) (ns name : string) :
  ordinary ns = true ->
  strip_namespace host_regexp ns name =
  Ok (if String.prefix (ns +++ "-") name
      then drop (String.length ns + 1) name else name).
Proof. intros H. unfold strip_namespace. now rewrite H. Qed.

Lemma strip_namespace_keeps
      (host_regexp : string -> string -> outcome string) (ns name name' : string) :
  ordinary ns = true ->
  String.prefix (ns +++ "-") name = false ->
  strip_namespace host_regexp ns name = Ok name' -> name' = name.
Proof.
  intros Hord Hpre. rewrite (strip_namespace_ordinary host_regexp ns name Hord), Hpre.
  congruence.
Qed.

(** C3, as the code has it.  For a namespace of ordinary characters the
    pattern is anchored: a leading [<namespace>-] is removed, once, and
    what follows is kept even when it starts with [<namespace>-] again;
    a name that does not start with [<namespace>-] is left as it is,
    wherever else [<namespace>-] occurs in it. *)
Theorem namespace_strip_anchored :
  forall (host_regexp : string -> string -> outcome string) (ns name : string),
    ordinary ns = true ->
    (forall rest, name = ns +++ "-" +++ rest ->
                  strip_namespace host_regexp ns name = Ok rest) /\
    (String.prefix (ns +++ "-") name = false ->
     strip_namespace host_regexp ns name = Ok name).
Proof.
  intros host ns name Hord. rewrite (strip_namespace_ordinary host ns name Hord).
  split.
  - intros rest ->. rewrite <- append_assoc, prefix_append.
    replace (String.length ns + 1)%nat with (String.length (ns +++ "-")).
    + now rewrite drop_append.
    + now rewrite length_append.
  - now intros ->.
Qed.

Lemma namespace_strip_anchored_witness :
  (forall rest, "team-team-api-ab12-xy34" = "team" +++ "-" +++ rest ->
                strip_namespace no_engine "team" "team-team-api-ab12-xy34" = Ok rest) /\
  (String.prefix ("team" +++ "-") "team-team-api-ab12-xy34" = false ->
   strip_namespace no_engine "team" "team-team-api-ab12-xy34"
   = Ok "team-team-api-ab12-xy34").
Proof.
  apply (namespace_strip_anchored no_engine "team" "team-team-api-ab12-xy34").
  reflexivity.
Defined.

(** C3, as the specification words it, fails.  In the row below
    [team-] occurs in the middle of the name and stays in the service
    name; and no name and ordinary namespace exist for which the step
    changes a name that does not start with [<namespace>-]. *)
Lemma namespace_strip_not_mid_name :
  getServicesMap no_engine listing_mid_name None
  = Ok [("api-team-web",
         {| dev := Some {| id := "ab12-xy34"; namespace := Some "team" |};
            qa := None; stg := None |})]
  /\
  ~ (exists (host_regexp : string -> string -> outcome string)
            (ns name name' before after : string),
        ordinary ns = true /\
        before <> "" /\
        name = before +++ ns +++ "-" +++ after /\
        String.prefix (ns +++ "-") name = false /\
        strip_namespace host_regexp ns name = Ok name' /\
        name' <> name).
Proof.
  split; [reflexivity|].
  intros (host & ns & name & name' & before & after & Hord & _ & _ & Hpre & Hs & Hne).
  apply Hne. exact (strip_namespace_keeps host ns name name' Hord Hpre Hs).
Qed.

(** ** Rows and the loop (C2) *)

Lemma env_of_startsWith (nameColumn : string) (e : Env) :
  env_of nameColumn = Some e ->
  JS.startsWith nameColumn (env_name e +++ "-") = true.
Proof.
  unfold env_of. intros H.
  destruct (JS.startsWith nameColumn "dev-") eqn:E1; [now inversion H; subst|].
  destruct (JS.startsWith nameColumn "qa-") eqn:E2; [now inversion H; subst|].
  destruct (JS.startsWith nameColumn "stg-") eqn:E3; [now inversion H; subst|].
  discriminate.
Qed.

Lemma env_of_none (nameColumn : string) :
  env_of nameColumn = None <->
  JS.startsWith nameColumn "dev-" || JS.startsWith nameColumn "qa-"
  || JS.startsWith nameColumn "stg-" = false.
Proof.
  unfold env_of.
  destruct (JS.startsWith nameColumn "dev-"), (JS.startsWith nameColumn "qa-"),
    (JS.startsWith nameColumn "stg-"); simpl; split; congruence.
Qed.

(** What one turn of the loop does, case by case. *)
Lemma loop_body_cases
      (host_regexp : string -> string -> outcome string)
      (namespace_arg : option string) (namespaceIndex nameIndex : Z)
      (line : string) (m m' : ServicesMap) :
  loop_body host_regexp namespace_arg namespaceIndex nameIndex line m = Ok m' ->
  let namespaceColumn :=
    JS.nullish namespace_arg
               (JS.at_index (JS.split_spaces line) namespaceIndex) in
  exists nameColumn,
    JS.at_index (JS.split_spaces line) nameIndex = Some nameColumn /\
    ((env_of nameColumn = None /\ m' = m) \/
     (exists e modifiedName,
         env_of nameColumn = Some e /\
         modified_name host_regexp namespaceColumn nameColumn = Ok modifiedName /\
         (((length (JS.split "-" modifiedName) <= 2)%nat /\ m' = m) \/
          ((2 < length (JS.split "-" modifiedName))%nat /\
           m' = store m
                  (JS.join "-" (JS.slice_but_last2 (JS.split "-" modifiedName)))
                  e
                  {| id := JS.join "-" (JS.slice_last2 (JS.split "-" modifiedName));
                     namespace := namespaceColumn |})))).
Proof.
  intros H namespaceColumn. unfold loop_body in H. fold namespaceColumn in H.
  destruct (JS.at_index (JS.split_spaces line) nameIndex) as [nameColumn|];
    [|discriminate].
  exists nameColumn. split; [reflexivity|].
  destruct (env_of nameColumn) as [e|] eqn:He.
  - right.
    destruct (modified_name host_regexp namespaceColumn nameColumn)
      as [modifiedName|err] eqn:Hm; [|discriminate].
    exists e, modifiedName. repeat split.
    destruct (2 <? length (JS.split "-" modifiedName))%nat eqn:L.
    + right. apply Nat.ltb_lt in L. split; [exact L | congruence].
    + left. apply Nat.ltb_ge in L. split; [exact L | congruence].
  - left. split; [reflexivity | congruence].
Qed.

Lemma loop_body_entry
      (host_regexp : string -> string -> outcome string)
      (namespace_arg : option string) (namespaceIndex nameIndex : Z)
      (line : string) (m m' : ServicesMap) :
  loop_body host_regexp namespace_arg namespaceIndex nameIndex line m = Ok m' ->
  forall s o e d,
    Map_get m' s = Some o -> get_env o e = Some d ->
    (exists o0, Map_get m s = Some o0 /\ get_env o0 e = Some d) \/
    qualifies host_regexp namespace_arg namespaceIndex nameIndex line s e d.
Proof.
  intros H s o e d Hs He.
  destruct (loop_body_cases _ _ _ _ _ _ _ H) as (nameColumn & Hn & Hc).
  destruct Hc as [[_ ->] | (e0 & mn & He0 & Hm & [[_ ->] | [Hlen ->]])];
    try (left; now exists o).
  set (sn := JS.join "-" (JS.slice_but_last2 (JS.split "-" mn))) in *.
  destruct (string_dec sn s) as [E|Hne].
  - subst s. rewrite store_get_same in Hs. inversion Hs; subst o; clear Hs.
    destruct (Env_eq_dec e0 e) as [->|Hne].
    + rewrite get_set_env_same in He. inversion He; subst d; clear He.
      right. exists nameColumn, mn.
      split; [exact Hn|]. split; [now apply env_of_startsWith|].
      split; [exact Hm|]. split; [exact Hlen|]. split; reflexivity.
    + rewrite get_set_env_other in He by assumption.
      left. unfold object_at in He.
      destruct (Map_get m sn) as [o0|]; [now exists o0 | now destruct e].
  - rewrite store_get_other in Hs by assumption. left. now exists o.
Qed.

Lemma loop_entry
      (host_regexp : string -> string -> outcome string)
      (namespace_arg : option string) (namespaceIndex nameIndex : Z)
      (rows : list string) :
  forall m m',
    loop host_regexp namespace_arg namespaceIndex nameIndex rows m = Ok m' ->
    forall s o e d,
      Map_get m' s = Some o -> get_env o e = Some d ->
      (exists o0, Map_get m s = Some o0 /\ get_env o0 e = Some d) \/
      (exists line, In line rows /\
         qualifies host_regexp namespace_arg namespaceIndex nameIndex line s e d).
Proof.
  induction rows as [|line rows IH]; simpl; intros m m' H s o e d Hs He.
  - inversion H; subst. left. now exists o.
  - destruct (loop_body host_regexp namespace_arg namespaceIndex nameIndex line m)
      as [m1|err] eqn:Hb; [|discriminate].
    destruct (IH _ _ H _ _ _ _ Hs He) as [(o1 & Hs1 & He1) | (l & Hin & Hq)].
    + destruct (loop_body_entry _ _ _ _ _ _ _ Hb _ _ _ _ Hs1 He1) as [Hold | Hq].
      * now left.
      * right. exists line. split; [now left | exact Hq].
    + right. exists l. split; [now right | exact Hq].
Qed.

Lemma parsed_entry_qualifies
      (host_regexp : string -> string -> outcome string)
      (namespace_arg : option string) (podsData : string) (m : ServicesMap)
      (s : string) (o : EnvObject) (e : Env) (d : ServiceDetails) :
  getServicesMap host_regexp podsData namespace_arg = Ok m ->
  Map_get m s = Some o -> get_env o e = Some d ->
  exists line,
    In line (tl (lines_of podsData)) /\
    qualifies host_regexp namespace_arg (namespaceIndex_of podsData)
              (nameIndex_of podsData) line s e d.
Proof.
  intros H Hs He. unfold getServicesMap in H.
  destruct (loop_entry _ _ _ _ _ _ _ H _ _ _ _ Hs He)
    as [(o0 & Hs0 & _) | Hq]; [discriminate | exact Hq].
Qed.

(** C2.  A row changes the mapping only if its NAME column starts with
    [dev-], [qa-] or [stg-] and what is left after the two replacements
    splits on [-] into more than two segments: a row that fails either
    test leaves the mapping as it was.  And in the mapping that the
    parser returns for a text, every entry stems from a row of the text
    that passes both tests. *)
Theorem entry_only_from_qualifying_row :
  forall (host_regexp : string -> string -> outcome string)
         (namespace_arg : option string),
    (forall namespaceIndex nameIndex line m m',
        loop_body host_regexp namespace_arg namespaceIndex nameIndex line m = Ok m' ->
        m' <> m ->
        exists nameColumn modifiedName,
          JS.at_index (JS.split_spaces line) nameIndex = Some nameColumn /\
          JS.startsWith nameColumn "dev-" || JS.startsWith nameColumn "qa-"
          || JS.startsWith nameColumn "stg-" = true /\
          modified_name host_regexp
            (JS.nullish namespace_arg
               (JS.at_index (JS.split_spaces line) namespaceIndex))
            nameColumn = Ok modifiedName /\
          (2 < length (JS.split "-" modifiedName))%nat) /\
    (forall podsData m s o e d,
        getServicesMap host_regexp podsData namespace_arg = Ok m ->
        Map_get m s = Some o -> get_env o e = Some d ->
        exists line,
          In line (tl (lines_of podsData)) /\
          qualifies host_regexp namespace_arg (namespaceIndex_of podsData)
                    (nameIndex_of podsData) line s e d).
Proof.
  intros host ns. split.
  - intros nsI nI line m m' H Hne.
    destruct (loop_body_cases _ _ _ _ _ _ _ H) as (nameColumn & Hn & Hc).
    destruct Hc as [[_ ->] | (e0 & mn & He0 & Hm & [[_ ->] | [Hlen _]])];
      try congruence.
    exists nameColumn, mn. repeat split; auto.
    destruct (JS.startsWith nameColumn "dev-" || JS.startsWith nameColumn "qa-"
              || JS.startsWith nameColumn "stg-") eqn:E; [reflexivity|].
    apply env_of_none in E. congruence.
  - intros podsData m s o e d. apply parsed_entry_qualifies.
Qed.

Lemma entry_only_from_qualifying_row_witness :
  exists line,
    In line (tl (lines_of listing1)) /\
    qualifies no_engine None (namespaceIndex_of listing1) (nameIndex_of listing1)
              line "api-gw" Stg
              {| id := "11aa-22bb"; namespace := Some "team-beta" |}.
Proof.
  refine (proj2 (entry_only_from_qualifying_row no_engine None)
                listing1 _ "api-gw" _ Stg _ _ _ _);
    reflexivity.
Defined.

(** ** Two calls in one heap (C9) *)

Lemma deref_last (h : Heap) (m : ServicesMap) : deref (h ++ [m]) (length h) = m.
Proof. unfold deref. induction h; simpl; auto. Qed.

Lemma deref_before (h : Heap) (m : ServicesMap) (r : Ref) :
  (r < length h)%nat -> deref (h ++ [m]) r = deref h r.
Proof. intros H. unfold deref. now rewrite app_nth1. Qed.

Lemma update_last (h : Heap) (m m' : ServicesMap) :
  update (h ++ [m]) (length h) m' = h ++ [m'].
Proof. induction h; simpl; [reflexivity | now rewrite IHh]. Qed.

(** A turn of the loop on the heap does to the [Map] at the end of the
    heap what [loop_body] does to a mapping, and touches nothing else. *)
Lemma loop_body_in_simulates
      (host_regexp : string -> string -> outcome string)
      (namespace_arg : option string) (namespaceIndex nameIndex : Z)
      (line : string) (h : Heap) (m : ServicesMap) :
  loop_body_in host_regexp namespace_arg namespaceIndex nameIndex line
               (length h) (h ++ [m])
  = match loop_body host_regexp namespace_arg namespaceIndex nameIndex line m with
    | Ok m' => (Ok tt, h ++ [m'])
    | Throw e => (Throw e, h ++ [m])
    end.
Proof.
  unfold loop_body_in, loop_body.
  destruct (JS.at_index (JS.split_spaces line) nameIndex) as [nameColumn|];
    [|reflexivity].
  destruct (env_of nameColumn) as [e|]; [|reflexivity].
  destruct (modified_name host_regexp _ nameColumn) as [mn|err]; [|reflexivity].
  destruct (2 <? length (JS.split "-" mn))%nat; [|reflexivity].
  unfold store. rewrite deref_last.
  destruct (Map_has m _).
  - rewrite deref_last. destruct (Map_get m _); [|reflexivity].
    now rewrite update_last.
  - rewrite update_last, deref_last. destruct (Map_get _ _); [|reflexivity].
    now rewrite update_last.
Qed.

Lemma loop_in_simulates
      (host_regexp : string -> string -> outcome string)
      (namespace_arg : option string) (namespaceIndex nameIndex : Z)
      (rows : list string) (h : Heap) :
  forall m,
    exists m',
      loop_in host_regexp namespace_arg namespaceIndex nameIndex rows
              (length h) (h ++ [m])
      = (match loop host_regexp namespace_arg namespaceIndex nameIndex rows m with
         | Ok _ => Ok tt
         | Throw e => Throw e
         end, h ++ [m']) /\
      (forall m0, loop host_regexp namespace_arg namespaceIndex nameIndex rows m
                  = Ok m0 -> m' = m0).
Proof.
  induction rows as [|line rows IH]; intros m; simpl.
  - exists m. split; [reflexivity | congruence].
  - rewrite loop_body_in_simulates.
    destruct (loop_body host_regexp namespace_arg namespaceIndex nameIndex line m)
      as [m1|err].
    + apply IH.
    + exists m. split; [reflexivity | discriminate].
Qed.

Lemma getServicesMap_in_simulates
      (host_regexp : string -> string -> outcome string)
      (podsData : string) (namespace_arg : option string) (h : Heap) :
  exists m,
    getServicesMap_in host_regexp podsData namespace_arg h
    = (match getServicesMap host_regexp podsData namespace_arg with
       | Ok _ => Ok (length h)
       | Throw e => Throw e
       end, h ++ [m]) /\
    (forall m0, getServicesMap host_regexp podsData namespace_arg = Ok m0 ->
                m = m0).
Proof.
  cbv beta iota zeta delta [getServicesMap_in getServicesMap new_Map].
  destruct (loop_in_simulates host_regexp namespace_arg
              (JS.indexOf (JS.split_spaces (hd "" (JS.split JS.LF (JS.trim podsData))))
                          "NAMESPACE")
              (JS.indexOf (JS.split_spaces (hd "" (JS.split JS.LF (JS.trim podsData))))
                          "NAME")
              (tl (JS.split JS.LF (JS.trim podsData))) h [])
    as (m & E & Hm).
  exists m. split; [|exact Hm].
  destruct (loop_in _ _ _ _ _ _ _) as [o h'] eqn:L.
  inversion E; subst; clear E.
  now destruct (loop _ _ _ _ _ _).
Qed.

(** C9.  Two calls of the parser on the same text with the same
    namespace argument, one after the other in the same heap, end the
    same way: either both return a [Map], the two are different objects
    that hold equal mappings, and the second call leaves the first
    [Map] as it was; or both throw the same exception.  This holds for
    every text, so also for the texts whose header row holds
    [NAMESPACE] and [NAME]. *)
Theorem parsing_twice_equal_mappings :
  forall (host_regexp : string -> string -> outcome string)
         (podsData : string) (namespace_arg : option string) (h : Heap),
  exists r1 h1 r2 h2,
    getServicesMap_in host_regexp podsData namespace_arg h = (r1, h1) /\
    getServicesMap_in host_regexp podsData namespace_arg h1 = (r2, h2) /\
    match r1, r2 with
    | Ok servicesMap1, Ok servicesMap2 =>
        servicesMap1 <> servicesMap2 /\
        deref h2 servicesMap1 = deref h2 servicesMap2 /\
        deref h2 servicesMap1 = deref h1 servicesMap1 /\
        getServicesMap host_regexp podsData namespace_arg
        = Ok (deref h2 servicesMap2)
    | Throw e1, Throw e2 => e1 = e2
    | _, _ => False
    end.
Proof.
  intros host podsData ns h.
  destruct (getServicesMap_in_simulates host podsData ns h) as (m1 & E1 & Hm1).
  destruct (getServicesMap_in_simulates host podsData ns (h ++ [m1]))
    as (m2 & E2 & Hm2).
  do 4 eexists. split; [exact E1|]. split; [exact E2|].
  destruct (getServicesMap host podsData ns) as [m0|err]; [|reflexivity].
  rewrite (Hm1 m0 eq_refl), (Hm2 m0 eq_refl).
  assert (L : length (h ++ [m0]) = S (length h))
    by (rewrite length_app; simpl; lia).
  repeat split.
  - rewrite L. lia.
  - rewrite deref_last, deref_before by (rewrite L; lia). now rewrite deref_last.
  - rewrite deref_before by (rewrite L; lia). reflexivity.
  - now rewrite deref_last.
Qed.

(** ** Running a script step by step

    The lemmas below take one step at the head of a script that runs
    in a state written out as a record. *)

Lemma bind_assoc {A B C : Type} (m : Script A) (f : A -> Script B)
      (g : B -> Script C) (s : State) :
  bind (bind m f) g s = bind m (fun a => bind (f a) g) s.
Proof. unfold bind. now destruct (m s) as [[a|e| |] s']. Qed.

Lemma bind_ret {A B : Type} (a : A) (k : A -> Script B) (s : State) :
  bind (ret a) k s = k a s.
Proof. reflexivity. Qed.

Lemma bind_emit {B : Type} (e : event) (k : unit -> Script B)
      (i : list string) (sp : option string) (ev : list event) :
  bind (emit e) k {| input := i; spinning := sp; events := ev |}
  = k tt {| input := i; spinning := sp; events := ev ++ [e] |}.
Proof. reflexivity. Qed.

Lemma bind_throw {A B : Type} (e : Error) (k : A -> Script B) (s : State) :
  bind (throw e) k s = (Thrown e, s).
Proof. reflexivity. Qed.

Lemma bind_return {A B : Type} (k : A -> Script B) (s : State) :
  bind return_ k s = (Returned, s).
Proof. reflexivity. Qed.

Lemma bind_lift_Ok {A B : Type} (a : A) (k : A -> Script B) (s : State) :
  bind (lift (Ok a)) k s = k a s.
Proof. reflexivity. Qed.

Lemma bind_lift_Throw {A B : Type} (e : Error) (k : A -> Script B) (s : State) :
  bind (lift (Throw e)) k s = (Thrown e, s).
Proof. reflexivity. Qed.

Lemma bind_question {B : Type} (q : string) (k : string -> Script B)
      (line : string) (rest : list string) (sp : option string) (ev : list event) :
  bind (question q) k {| input := line :: rest; spinning := sp; events := ev |}
  = k line {| input := rest; spinning := sp; events := ev ++ [Question q] |}.
Proof. reflexivity. Qed.

Lemma bind_question_none {B : Type} (q : string) (k : string -> Script B)
      (sp : option string) (ev : list event) :
  bind (question q) k {| input := []; spinning := sp; events := ev |}
  = (Waiting, {| input := []; spinning := sp; events := ev ++ [Question q] |}).
Proof. reflexivity. Qed.

Lemma bind_spinner_start {B : Type} (msg : string) (k : unit -> Script B)
      (i : list string) (ev : list event) :
  bind (V2.spinner_start msg) k {| input := i; spinning := None; events := ev |}
  = k tt {| input := i; spinning := Some msg;
            events := ev ++ [Write (msg +++ "...")] |}.
Proof. reflexivity. Qed.

Lemma bind_spinner_stop {B : Type} (msg : string) (k : unit -> Script B)
      (i : list string) (ev : list event) :
  bind V2.spinner_stop k {| input := i; spinning := Some msg; events := ev |}
  = k tt {| input := i; spinning := None;
            events := ev ++ [Write (String "013"%char
                                      (msg +++ "...done." +++ JS.nl))] |}.
Proof. reflexivity. Qed.

Lemma bind_spinner_stop_idle {B : Type} (k : unit -> Script B)
      (i : list string) (ev : list event) :
  bind V2.spinner_stop k {| input := i; spinning := None; events := ev |}
  = k tt {| input := i; spinning := None; events := ev |}.
Proof. reflexivity. Qed.

Lemma v2_print_services_run (services : list string) :
  forall index i sp ev,
    V2.print_services services index
                      {| input := i; spinning := sp; events := ev |}
    = (Normal tt,
       {| input := i; spinning := sp;
          events := ev ++ v2_service_lines services index |}).
Proof.
  induction services as [|service rest IH]; intros index i sp ev; simpl.
  - unfold ret. now rewrite app_nil_r.
  - unfold V2.print, console_log. rewrite bind_emit, IH.
    now rewrite <- app_assoc.
Qed.

Lemma bind_v2_print_services {B : Type} (services : list string) (index : nat)
      (k : unit -> Script B) (i : list string) (sp : option string)
      (ev : list event) :
  bind (V2.print_services services index) k
       {| input := i; spinning := sp; events := ev |}
  = k tt {| input := i; spinning := sp;
            events := ev ++ v2_service_lines services index |}.
Proof. unfold bind. now rewrite v2_print_services_run. Qed.

Lemma v1_print_services_run (services : list string) :
  forall index i sp ev,
    V1.print_services services index
                      {| input := i; spinning := sp; events := ev |}
    = (Normal tt,
       {| input := i; spinning := sp;
          events := ev ++ v1_service_lines services index |}).
Proof.
  induction services as [|service rest IH]; intros index i sp ev; simpl.
  - unfold ret. now rewrite app_nil_r.
  - unfold console_log. rewrite bind_emit, IH.
    now rewrite <- app_assoc.
Qed.

Lemma bind_v1_print_services {B : Type} (services : list string) (index : nat)
      (k : unit -> Script B) (i : list string) (sp : option string)
      (ev : list event) :
  bind (V1.print_services services index) k
       {| input := i; spinning := sp; events := ev |}
  = k tt {| input := i; spinning := sp;
            events := ev ++ v1_service_lines services index |}.
Proof. unfold bind. now rewrite v1_print_services_run. Qed.

Ltac step :=
  first
    [ rewrite bind_assoc
    | rewrite bind_emit
    | rewrite bind_ret
    | rewrite bind_throw
    | rewrite bind_return
    | rewrite bind_lift_Ok
    | rewrite bind_lift_Throw
    | rewrite bind_question
    | rewrite bind_question_none
    | rewrite bind_spinner_start
    | rewrite bind_spinner_stop
    | rewrite bind_spinner_stop_idle
    | rewrite bind_v2_print_services
    | rewrite bind_v1_print_services ].
Ltac steps := repeat step.
Ltac open_script :=
  unfold V2.prompt, V2.execPromise, V2.print, console_log, console_error,
    rl_close, spawn.

(** The state in which the block of [try] starts. *)
Lemma v2_main_eq
      (host_regexp : string -> string -> outcome string) (w : World) :
  let namespace0 := V2.getArgValue (argv w) "--namespace" in
  V2.main host_regexp w (initial w)
  = try_catch
      (V2.main_try host_regexp w namespace0 (V2.getPodsCommand_of namespace0))
      (fun error =>
         V2.spinner_stop ;;
         console_error (message error) ;;
         rl_close ;;
         ret None)
      (v2_try_state w).
Proof.
  intros namespace0. unfold V2.main, initial, v2_try_state. fold namespace0.
  open_script. now steps.
Qed.

(** When the block returns or waits, the run is over with it. *)
Lemma v2_run_returned
      (host_regexp : string -> string -> outcome string) (w : World) (s : State) :
  V2.main_try host_regexp w (V2.getArgValue (argv w) "--namespace")
              (V2.getPodsCommand_of (V2.getArgValue (argv w) "--namespace"))
              (v2_try_state w)
  = (Returned, s) ->
  V2.run host_regexp w = events s.
Proof.
  intros H. unfold V2.run, V2.script, bind.
  rewrite v2_main_eq. unfold try_catch. now rewrite H.
Qed.

(** ** An empty listing (C7) *)

Lemma header_only_empty_map
      (host_regexp : string -> string -> outcome string)
      (podsData : string) (namespace_arg : option string) :
  tl (lines_of podsData) = [] ->
  getServicesMap host_regexp podsData namespace_arg = Ok [].
Proof. unfold getServicesMap, lines_of. now intros ->. Qed.

Lemma v2_header_only_run
      (host_regexp : string -> string -> outcome string) (w : World)
      (podsData : string) :
  let namespace0 := V2.getArgValue (argv w) "--namespace" in
  V2.execPromise_settle (executed w (V2.getPodsCommand_of namespace0))
  = Ok podsData ->
  tl (lines_of podsData) = [] ->
  V2.run host_regexp w
  = [Log (V2.colorText V2.c.green
            (JS.nl +++ "> " +++ V2.getPodsCommand_of namespace0));
     Write "Loading services...";
     Exec (V2.getPodsCommand_of namespace0);
     Write (String "013"%char ("Loading services...done." +++ JS.nl));
     Log (V2.colorText V2.c.magenta "No services found.");
     Close].
Proof.
  intros namespace0 Hexec Hrows.
  erewrite v2_run_returned; cycle 1.
  - fold namespace0. unfold V2.main_try, v2_try_state. fold namespace0.
    open_script. steps. rewrite Hexec. steps.
    rewrite (header_only_empty_map host_regexp podsData namespace0 Hrows). steps.
    reflexivity.
  - reflexivity.
Qed.

(** The statements of version 0.0.1 up to the callback. *)
Lemma v1_script_eq
      (host_regexp : string -> string -> outcome string) (w : World) :
  V1.script host_regexp w (initial w)
  = V1.callback host_regexp (executed w "kubectl get pods --all-namespaces")
                (v1_callback_state w).
Proof. unfold V1.script, initial, v1_callback_state, console_log. now steps. Qed.

Lemma v1_callback_listing
      (host_regexp : string -> string -> outcome string)
      (r : ExecResult) (s : State) :
  error r = None -> stderr r = "" ->
  V1.callback host_regexp r s = V1.after_listing host_regexp (stdout r) s.
Proof. intros He Hs. unfold V1.callback. now rewrite He, Hs. Qed.

Lemma v1_run_returned
      (host_regexp : string -> string -> outcome string) (w : World)
      (c : completion unit) (s : State) :
  V1.script host_regexp w (initial w) = (c, s) ->
  (forall e, c <> Thrown e) ->
  V1.run host_regexp w = events s.
Proof.
  intros H Hc. unfold V1.run. rewrite H.
  destruct c; try reflexivity. now contradiction (Hc e).
Qed.

Lemma v1_header_only_run
      (host_regexp : string -> string -> outcome string) (w : World) :
  let r := executed w "kubectl get pods --all-namespaces" in
  error r = None -> stderr r = "" -> tl (lines_of (stdout r)) = [] ->
  V1.run host_regexp w
  = [Log (V1.colors.fgCyan +++ "K8s Service Loader Script" +++ V1.colors.reset);
     Log (V1.colors.fgYellow +++ "Version: 0.0.1" +++ V1.colors.reset);
     Log (V1.colors.fgGreen +++ "Loading services, please wait..." +++
          V1.colors.reset);
     Exec "kubectl get pods --all-namespaces";
     Log (V1.colors.fgCyan +++ "Services found:" +++ V1.colors.reset);
     Log (V1.colors.fgMagenta +++ "No services found." +++ V1.colors.reset)].
Proof.
  intros r He Hs Hrows.
  erewrite v1_run_returned; cycle 1.
  - rewrite v1_script_eq. fold r. rewrite (v1_callback_listing _ _ _ He Hs).
    unfold V1.after_listing, v1_callback_state.
    rewrite (header_only_empty_map host_regexp (stdout r) None Hrows).
    unfold console_log. steps. reflexivity.
  - discriminate.
  - reflexivity.
Qed.

(** C7.  When the listing holds the header row only, the parser
    returns the empty mapping and the script says "No services found."
    and ends: the run of either version is the list of events below,
    with no question and no child process in it. *)
Theorem header_only_no_services :
  forall (host_regexp : string -> string -> outcome string) (w : World),
    (forall podsData,
        let namespace0 := V2.getArgValue (argv w) "--namespace" in
        V2.execPromise_settle (executed w (V2.getPodsCommand_of namespace0))
        = Ok podsData ->
        tl (lines_of podsData) = [] ->
        getServicesMap host_regexp podsData namespace0 = Ok [] /\
        V2.run host_regexp w
        = [Log (V2.colorText V2.c.green
                  (JS.nl +++ "> " +++ V2.getPodsCommand_of namespace0));
           Write "Loading services...";
           Exec (V2.getPodsCommand_of namespace0);
           Write (String "013"%char ("Loading services...done." +++ JS.nl));
           Log (V2.colorText V2.c.magenta "No services found.");
           Close] /\
        existsb is_question (V2.run host_regexp w) = false /\
        existsb is_spawn (V2.run host_regexp w) = false) /\
    (let r := executed w "kubectl get pods --all-namespaces" in
     error r = None -> stderr r = "" -> tl (lines_of (stdout r)) = [] ->
     getServicesMap host_regexp (stdout r) None = Ok [] /\
     V1.run host_regexp w
     = [Log (V1.colors.fgCyan +++ "K8s Service Loader Script" +++
             V1.colors.reset);
        Log (V1.colors.fgYellow +++ "Version: 0.0.1" +++ V1.colors.reset);
        Log (V1.colors.fgGreen +++ "Loading services, please wait..." +++
             V1.colors.reset);
        Exec "kubectl get pods --all-namespaces";
        Log (V1.colors.fgCyan +++ "Services found:" +++ V1.colors.reset);
        Log (V1.colors.fgMagenta +++ "No services found." +++ V1.colors.reset)] /\
     existsb is_question (V1.run host_regexp w) = false /\
     existsb is_spawn (V1.run host_regexp w) = false).
Proof.
  intros host w. split.
  - intros podsData namespace0 Hexec Hrows.
    split; [now apply header_only_empty_map|].
    rewrite (v2_header_only_run host w podsData Hexec Hrows). fold namespace0.
    repeat split.
  - intros r He Hs Hrows.
    split; [now apply header_only_empty_map|].
    rewrite (v1_header_only_run host w He Hs Hrows).
    repeat split.
Qed.

Lemma header_only_no_services_witness :
  V2.run no_engine world_empty
  = [Log (V2.colorText V2.c.green
            (JS.nl +++ "> kubectl get pods --all-namespaces"));
     Write "Loading services...";
     Exec "kubectl get pods --all-namespaces";
     Write (String "013"%char ("Loading services...done." +++ JS.nl));
     Log (V2.colorText V2.c.magenta "No services found.");
     Close] /\
  existsb is_spawn (V1.run no_engine world_empty) = false.
Proof.
  split.
  - exact (proj1 (proj2 (proj1 (header_only_no_services no_engine world_empty)
                               _ eq_refl eq_refl))).
  - exact (proj2 (proj2 (proj2 (proj2 (header_only_no_services no_engine
                                                               world_empty)
                                      eq_refl eq_refl eq_refl)))).
Defined.

(** ** Invalid answers (C5, C6) *)

Lemma v2_service_lines_no_spawn (services : list string) :
  forall index, existsb is_spawn (v2_service_lines services index) = false.
Proof. induction services; intros; simpl; auto. Qed.

Lemma v1_service_lines_no_spawn (services : list string) :
  forall index, existsb is_spawn (v1_service_lines services index) = false.
Proof. induction services; intros; simpl; auto. Qed.

Lemma at_index_in_range {A : Type} (a : list A) (i : Z) (x : A) :
  JS.at_index a i = Some x -> (i <? 0) || (i >=? Z.of_nat (length a)) = false.
Proof.
  unfold JS.at_index. destruct (i <? 0) eqn:E; [discriminate|].
  intros H. simpl. apply Z.ltb_ge in E.
  assert (L : (Z.to_nat i < length a)%nat)
    by (apply nth_error_Some; congruence).
  rewrite Z.geb_leb. apply Z.leb_gt. lia.
Qed.

Lemma at_index_nonempty {A : Type} (a : list A) (i : Z) (x : A) :
  JS.at_index a i = Some x -> (length a =? 0)%nat = false.
Proof.
  unfold JS.at_index. destruct (i <? 0); [discriminate|].
  destruct a; [now destruct (Z.to_nat i) | reflexivity].
Qed.

Lemma snoc2 {A : Type} (l : list A) (a b : A) : (l ++ [a]) ++ [b] = l ++ [a; b].
Proof. now rewrite <- app_assoc. Qed.

Ltac reduce := cbv beta iota.
Ltac no_spawn :=
  repeat rewrite existsb_app;
  repeat rewrite v2_service_lines_no_spawn;
  repeat rewrite v1_service_lines_no_spawn;
  reflexivity.

(** Version 0.0.2, a service answer that is no number or is out of
    range. *)
Lemma v2_invalid_index_run
      (host_regexp : string -> string -> outcome string) (w : World)
      (podsData : string) (servicesMap : ServicesMap)
      (answer : string) (rest : list string) :
  let namespace0 := V2.getArgValue (argv w) "--namespace" in
  let servicesList := JS.sort (Map_keys servicesMap) in
  V2.execPromise_settle (executed w (V2.getPodsCommand_of namespace0))
  = Ok podsData ->
  getServicesMap host_regexp podsData namespace0 = Ok servicesMap ->
  servicesList <> [] ->
  typed w = answer :: rest ->
  match JS.parseInt (JS.trim answer) with
  | None => True
  | Some n => n < 1 \/ Z.of_nat (length servicesList) < n
  end ->
  exists before,
    V2.run host_regexp w
    = before ++
      [LogError
         "Invalid selection. Please run the script again and choose a valid number.";
       Close] /\
    existsb is_spawn (V2.run host_regexp w) = false.
Proof.
  intros namespace0 servicesList Hexec Hparse Hne Htyped Hbad.
  assert (Hlen : (length servicesList =? 0)%nat = false)
    by (destruct servicesList; [congruence | reflexivity]).
  eexists.
  erewrite v2_run_returned; cycle 1.
  - fold namespace0. unfold V2.main_try, v2_try_state. fold namespace0.
    rewrite Htyped. open_script. steps. rewrite Hexec. steps.
    rewrite Hparse. steps. fold servicesList. rewrite Hlen. steps.
    destruct (JS.parseInt (JS.trim answer)) as [n|]; unfold option_map; reduce.
    + replace ((n - 1 <? 0) || (n - 1 >=? Z.of_nat (length servicesList)))
        with true.
      * steps. reflexivity.
      * symmetry. apply orb_true_iff. rewrite Z.geb_leb.
        destruct Hbad; [left; apply Z.ltb_lt | right; apply Z.leb_le]; lia.
    + steps. reflexivity.
  - cbv beta iota delta [events push input spinning]. split; [apply snoc2 | no_spawn].
Qed.

Ltac v2_enter namespace0 :=
  fold namespace0; unfold V2.main_try, v2_try_state; fold namespace0.

(** Version 0.0.2 up to the answer at the environment prompt. *)
Ltac v2_to_environment namespace0 servicesList Hexec Hparse Htyped Hnum Hat :=
  v2_enter namespace0;
  rewrite Htyped; open_script; steps; rewrite Hexec; steps;
  rewrite Hparse; steps; fold servicesList;
  rewrite (at_index_nonempty _ _ _ Hat); steps;
  rewrite Hnum; unfold option_map; reduce;
  rewrite (at_index_in_range _ _ _ Hat), Hat; steps.

(** Version 0.0.2, an environment answer that stands for none of the
    three options. *)
Lemma v2_invalid_environment_run
      (host_regexp : string -> string -> outcome string) (w : World)
      (podsData : string) (servicesMap : ServicesMap)
      (serviceAnswer envAnswer : string) (rest : list string)
      (n : Z) (selectedService : string) :
  let namespace0 := V2.getArgValue (argv w) "--namespace" in
  let servicesList := JS.sort (Map_keys servicesMap) in
  V2.execPromise_settle (executed w (V2.getPodsCommand_of namespace0))
  = Ok podsData ->
  getServicesMap host_regexp podsData namespace0 = Ok servicesMap ->
  typed w = serviceAnswer :: envAnswer :: rest ->
  JS.parseInt (JS.trim serviceAnswer) = Some n ->
  JS.at_index servicesList (n - 1) = Some selectedService ->
  V2.environment_of_choice (V2.envChoice_of (JS.trim envAnswer)) = None ->
  exists before,
    V2.run host_regexp w
    = before ++
      [LogError
         "Invalid selection. Please run the script again and choose either '1', '2', or '3'.";
       Close] /\
    existsb is_spawn (V2.run host_regexp w) = false.
Proof.
  intros namespace0 servicesList Hexec Hparse Htyped Hnum Hat Henv.
  eexists.
  erewrite v2_run_returned; cycle 1.
  - v2_to_environment namespace0 servicesList Hexec Hparse Htyped Hnum Hat.
    rewrite Henv. steps. reflexivity.
  - cbv beta iota delta [events push input spinning]. split; [apply snoc2 | no_spawn].
Qed.

(** Version 0.0.2, an environment that the chosen service does not
    have. *)
Lemma v2_missing_environment_run
      (host_regexp : string -> string -> outcome string) (w : World)
      (podsData : string) (servicesMap : ServicesMap)
      (serviceAnswer envAnswer : string) (rest : list string)
      (n : Z) (selectedService : string) (environment : Env) (o : EnvObject) :
  let namespace0 := V2.getArgValue (argv w) "--namespace" in
  let servicesList := JS.sort (Map_keys servicesMap) in
  V2.execPromise_settle (executed w (V2.getPodsCommand_of namespace0))
  = Ok podsData ->
  getServicesMap host_regexp podsData namespace0 = Ok servicesMap ->
  typed w = serviceAnswer :: envAnswer :: rest ->
  JS.parseInt (JS.trim serviceAnswer) = Some n ->
  JS.at_index servicesList (n - 1) = Some selectedService ->
  V2.environment_of_choice (V2.envChoice_of (JS.trim envAnswer))
  = Some environment ->
  Map_get servicesMap selectedService = Some o ->
  get_env o environment = None ->
  exists before,
    V2.run host_regexp w
    = before ++
      [LogError
         ("The selected environment " +++ dq +++ env_name environment +++
          dq +++ " does not exist for the service " +++ dq +++
          selectedService +++ dq +++
          ". Please run the script again and choose a valid environment.");
       Close] /\
    existsb is_spawn (V2.run host_regexp w) = false.
Proof.
  intros namespace0 servicesList Hexec Hparse Htyped Hnum Hat Henv Hobj Hnone.
  eexists.
  erewrite v2_run_returned; cycle 1.
  - v2_to_environment namespace0 servicesList Hexec Hparse Htyped Hnum Hat.
    rewrite Henv. steps. rewrite Hobj. steps. rewrite Hnone. steps. reflexivity.
  - cbv beta iota delta [events push input spinning]. split; [apply snoc2 | no_spawn].
Qed.

Lemma at_index_in_range_and {A : Type} (a : list A) (i : Z) (x : A) :
  JS.at_index a i = Some x -> (i >=? 0) && (i <? Z.of_nat (length a)) = true.
Proof.
  intros H. pose proof (at_index_in_range a i x H) as R.
  apply orb_false_iff in R. destruct R as [R1 R2].
  rewrite Z.geb_leb in *. apply Z.ltb_ge in R1. apply Z.leb_gt in R2.
  apply andb_true_iff. split; [apply Z.leb_le | apply Z.ltb_lt]; lia.
Qed.

Ltac v1_enter r He Hs :=
  rewrite v1_script_eq; fold r; rewrite (v1_callback_listing _ _ _ He Hs);
  unfold V1.after_listing, v1_callback_state.

(** Version 0.0.1 up to the answer at the environment prompt. *)
Ltac v1_to_environment r serviceList He Hs Hparse Htyped Hnum Hat :=
  v1_enter r He Hs;
  rewrite Htyped, Hparse; unfold console_log, rl_close, spawn; steps;
  fold serviceList;
  rewrite (at_index_nonempty _ _ _ Hat); steps;
  rewrite Hnum; unfold option_map; reduce;
  rewrite (at_index_in_range_and _ _ _ Hat), Hat; steps.

Lemma v1_invalid_index_run
      (host_regexp : string -> string -> outcome string) (w : World)
      (servicesMap : ServicesMap) (answer : string) (rest : list string) :
  let r := executed w "kubectl get pods --all-namespaces" in
  let serviceList := JS.sort (Map_keys servicesMap) in
  error r = None -> stderr r = "" ->
  getServicesMap host_regexp (stdout r) None = Ok servicesMap ->
  serviceList <> [] ->
  typed w = answer :: rest ->
  match JS.parseInt answer with
  | None => True
  | Some n => n < 1 \/ Z.of_nat (length serviceList) < n
  end ->
  exists before,
    V1.run host_regexp w
    = before ++
      [Log (V1.colors.fgRed +++
            "Invalid selection. Please run the script again and choose a valid number." +++
            V1.colors.reset);
       Close] /\
    existsb is_spawn (V1.run host_regexp w) = false.
Proof.
  intros r serviceList He Hs Hparse Hne Htyped Hbad.
  assert (Hlen : (length serviceList =? 0)%nat = false)
    by (destruct serviceList; [congruence | reflexivity]).
  eexists.
  erewrite v1_run_returned; cycle 1.
  - v1_enter r He Hs. rewrite Htyped, Hparse.
    unfold console_log, rl_close. steps. fold serviceList. rewrite Hlen. steps.
    destruct (JS.parseInt answer) as [n|]; unfold option_map; reduce.
    + replace ((n - 1 >=? 0) && (n - 1 <? Z.of_nat (length serviceList)))
        with false.
      * steps. reflexivity.
      * symmetry. apply andb_false_iff. rewrite Z.geb_leb.
        destruct Hbad; [left; apply Z.leb_gt | right; apply Z.ltb_ge]; lia.
    + steps. reflexivity.
  - discriminate.
  - cbv beta iota delta [events push input spinning]. split; [apply snoc2 | no_spawn].
Qed.

Lemma v1_invalid_environment_run
      (host_regexp : string -> string -> outcome string) (w : World)
      (servicesMap : ServicesMap) (answer envChoice : string)
      (rest : list string) (n : Z) (selectedService : string) :
  let r := executed w "kubectl get pods --all-namespaces" in
  let serviceList := JS.sort (Map_keys servicesMap) in
  error r = None -> stderr r = "" ->
  getServicesMap host_regexp (stdout r) None = Ok servicesMap ->
  typed w = answer :: envChoice :: rest ->
  JS.parseInt answer = Some n ->
  JS.at_index serviceList (n - 1) = Some selectedService ->
  V1.environment_of_choice envChoice = None ->
  exists before,
    V1.run host_regexp w
    = before ++
      [Log (V1.colors.fgRed +++
            "Invalid selection. Please run the script again and choose either " +++
            dq +++ "1" +++ dq +++ ", " +++ dq +++ "2" +++ dq +++ ", or " +++
            dq +++ "3" +++ dq +++ "." +++ V1.colors.reset);
       Close] /\
    existsb is_spawn (V1.run host_regexp w) = false.
Proof.
  intros r serviceList He Hs Hparse Htyped Hnum Hat Henv.
  eexists.
  erewrite v1_run_returned; cycle 1.
  - v1_to_environment r serviceList He Hs Hparse Htyped Hnum Hat.
    rewrite Henv. steps. reflexivity.
  - discriminate.
  - cbv beta iota delta [events push input spinning]. split; [apply snoc2 | no_spawn].
Qed.

Lemma v1_missing_environment_run
      (host_regexp : string -> string -> outcome string) (w : World)
      (servicesMap : ServicesMap) (answer envChoice : string)
      (rest : list string) (n : Z) (selectedService : string)
      (environment : Env) (o : EnvObject) :
  let r := executed w "kubectl get pods --all-namespaces" in
  let serviceList := JS.sort (Map_keys servicesMap) in
  error r = None -> stderr r = "" ->
  getServicesMap host_regexp (stdout r) None = Ok servicesMap ->
  typed w = answer :: envChoice :: rest ->
  JS.parseInt answer = Some n ->
  JS.at_index serviceList (n - 1) = Some selectedService ->
  V1.environment_of_choice envChoice = Some environment ->
  Map_get servicesMap selectedService = Some o ->
  get_env o environment = None ->
  exists before,
    V1.run host_regexp w
    = before ++
      [Log (V1.colors.fgRed +++ "The selected environment " +++ dq +++
            env_name environment +++ dq +++
            " does not exist for the service " +++ dq +++
            selectedService +++ dq +++
            ". Please run the script again and choose a valid environment." +++
            V1.colors.reset);
       Close] /\
    existsb is_spawn (V1.run host_regexp w) = false.
Proof.
  intros r serviceList He Hs Hparse Htyped Hnum Hat Henv Hobj Hnone.
  eexists.
  erewrite v1_run_returned; cycle 1.
  - v1_to_environment r serviceList He Hs Hparse Htyped Hnum Hat.
    rewrite Henv. steps. rewrite Hobj. steps. rewrite Hnone. steps. reflexivity.
  - discriminate.
  - cbv beta iota delta [events push input spinning]. split; [apply snoc2 | no_spawn].
Qed.

(** ** The forwarding command (C4) *)

Lemma split_not_nil (sep : ascii) (s : string) : JS.split sep s <> [].
Proof.
  destruct s as [|a s]; simpl; [discriminate|].
  destruct (Ascii.eqb a sep); [discriminate|].
  destruct (JS.split sep s); discriminate.
Qed.

Lemma join_cons (sep x : string) (xs : list string) :
  xs <> [] -> JS.join sep (x :: xs) = x +++ sep +++ JS.join sep xs.
Proof. destruct xs; [congruence | reflexivity]. Qed.

(** Joining the pieces of a split with the separator gives the string
    back. *)
Lemma join_split (sep : ascii) (s : string) :
  JS.join (String sep "") (JS.split sep s) = s.
Proof.
  induction s as [|a s IH]; [reflexivity|]. simpl.
  destruct (Ascii.eqb a sep) eqn:E.
  - apply Ascii.eqb_eq in E. subst a.
    rewrite join_cons by apply split_not_nil. simpl. now rewrite IH.
  - destruct (JS.split sep s) as [|p ps] eqn:S; [now apply split_not_nil in S|].
    destruct ps as [|q ps]; simpl in *; now rewrite IH.
Qed.

Lemma v2_namespace_resolved
      (host_regexp : string -> string -> outcome string)
      (podsData : string) (namespace0 : option string) (m : ServicesMap)
      (s : string) (o : EnvObject) (e : Env) (d : ServiceDetails) :
  getServicesMap host_regexp podsData namespace0 = Ok m ->
  Map_get m s = Some o -> get_env o e = Some d ->
  JS.nullish namespace0 (namespace d) = namespace d.
Proof.
  intros H Hs He.
  destruct (parsed_entry_qualifies _ _ _ _ _ _ _ _ H Hs He)
    as (line & _ & nameColumn & mn & _ & _ & _ & _ & _ & ->).
  simpl. now destruct namespace0.
Qed.

Lemma v2_main_normal
      (host_regexp : string -> string -> outcome string) (w : World)
      (handlers : option (string * string)) (s : State) :
  V2.main_try host_regexp w (V2.getArgValue (argv w) "--namespace")
              (V2.getPodsCommand_of (V2.getArgValue (argv w) "--namespace"))
              (v2_try_state w)
  = (Normal handlers, s) ->
  V2.main host_regexp w (initial w) = (Normal handlers, s).
Proof. intros H. rewrite v2_main_eq. unfold try_catch. now rewrite H. Qed.

(** Version 0.0.2, every step resolved: what [main] has done when it
    ends. *)
Lemma v2_forward_main
      (host_regexp : string -> string -> outcome string) (w : World)
      (podsData : string) (servicesMap : ServicesMap)
      (serviceAnswer envAnswer localPortAnswer servicePortAnswer : string)
      (rest : list string) (n : Z) (selectedService : string)
      (environment : Env) (o : EnvObject) (serviceDetails : ServiceDetails)
      (servicePortDetected : string) :
  let namespace0 := V2.getArgValue (argv w) "--namespace" in
  let servicesList := JS.sort (Map_keys servicesMap) in
  let localPort := JS.or_default (JS.trim localPortAnswer) "3000" in
  let servicePort :=
    JS.or_default (JS.trim servicePortAnswer) servicePortDetected in
  V2.execPromise_settle (executed w (V2.getPodsCommand_of namespace0))
  = Ok podsData ->
  getServicesMap host_regexp podsData namespace0 = Ok servicesMap ->
  typed w = serviceAnswer :: envAnswer :: localPortAnswer
                          :: servicePortAnswer :: rest ->
  JS.parseInt (JS.trim serviceAnswer) = Some n ->
  JS.at_index servicesList (n - 1) = Some selectedService ->
  V2.environment_of_choice (V2.envChoice_of (JS.trim envAnswer))
  = Some environment ->
  Map_get servicesMap selectedService = Some o ->
  get_env o environment = Some serviceDetails ->
  V2.execPromise_settle
    (executed w (V2.getServicePortCommand_of (namespace serviceDetails)
                                             environment selectedService))
  = Ok servicePortDetected ->
  exists before,
    V2.main host_regexp w (initial w)
    = (Normal
         (Some (localPort,
                V2.logsCommand_of (namespace serviceDetails) environment
                                  selectedService (id serviceDetails))),
       {| input := rest;
          spinning := Some "Initializing port forwarding";
          events :=
            before ++
            [Spawn "kubectl"
               (JS.slice_from1
                  (JS.split " "
                     (V2.portForwardCommand_of
                        (namespace serviceDetails) environment selectedService
                        (id serviceDetails) localPort servicePort)))] |}) /\
    existsb is_spawn before = false.
Proof.
  intros namespace0 servicesList localPort servicePort
         Hexec Hparse Htyped Hnum Hat Henv Hobj Hdet Hport.
  pose proof (v2_namespace_resolved _ _ _ _ _ _ _ _ Hparse Hobj Hdet) as Hns.
  eexists. split.
  - apply v2_main_normal.
    v2_to_environment namespace0 servicesList Hexec Hparse Htyped Hnum Hat.
    rewrite Henv. steps. rewrite Hobj. steps. rewrite Hdet. steps.
    rewrite Hns. rewrite Hport. steps.
    fold localPort servicePort. reflexivity.
  - no_spawn.
Qed.

Lemma bind_spinner_start_running {B : Type} (msg msg' : string)
      (k : unit -> Script B) (i : list string) (ev : list event) :
  bind (V2.spinner_start msg) k
       {| input := i; spinning := Some msg'; events := ev |}
  = k tt {| input := i; spinning := Some msg'; events := ev |}.
Proof. reflexivity. Qed.

Lemma bind_detach {A B : Type} (m : Script A) (k : unit -> Script B) (s : State) :
  bind (detach m) k s = k tt (snd (m s)).
Proof. reflexivity. Qed.

(** What runs after [main] only adds events. *)
Lemma v2_handleLogsProcess_appends (logsCommand : string) (s : State) :
  exists after,
    events (snd (V2.handleLogsProcess logsCommand s)) = events s ++ after.
Proof.
  destruct s as [i sp ev]. unfold V2.handleLogsProcess. open_script.
  destruct i as [|line rest]; steps; [now eexists|].
  destruct (String.eqb _ "y" || String.eqb _ "yes"); steps.
  - destruct sp as [msg|];
      [rewrite bind_spinner_start_running | rewrite bind_spinner_start];
      steps; unfold emit, push; simpl; repeat rewrite <- app_assoc;
      now eexists.
  - unfold emit, push; simpl; repeat rewrite <- app_assoc. now eexists.
Qed.

Lemma v2_on_stdout_appends (localPort logsCommand : string)
      (chunks : list string) :
  forall (first : bool) (s : State),
  exists after,
    events (snd (V2.on_stdout localPort logsCommand first chunks s))
    = events s ++ after.
Proof.
  induction chunks as [|data rest IH]; intros first s.
  - exists []. simpl. now rewrite app_nil_r.
  - destruct s as [i sp ev]. simpl V2.on_stdout. open_script.
    destruct first.
    + destruct sp as [msg|];
        [rewrite bind_spinner_stop | rewrite bind_spinner_stop_idle];
        steps; rewrite bind_detach;
        match goal with
        | |- context [V2.handleLogsProcess logsCommand ?s0] =>
            destruct (v2_handleLogsProcess_appends logsCommand s0) as [a1 E1];
            destruct (IH false (snd (V2.handleLogsProcess logsCommand s0)))
              as [a2 E2]
        end;
        rewrite E2, E1; cbv beta iota delta [events];
        repeat rewrite <- app_assoc; now eexists.
    + steps.
      match goal with
      | |- context [V2.on_stdout localPort logsCommand false rest ?s0] =>
          destruct (IH false s0) as [a2 E2]
      end.
      rewrite E2. cbv beta iota delta [events].
      repeat rewrite <- app_assoc. now eexists.
Qed.

Lemma v2_run_normal
      (host_regexp : string -> string -> outcome string) (w : World)
      (localPort logsCommand : string) (s : State) :
  V2.main host_regexp w (initial w) = (Normal (Some (localPort, logsCommand)), s) ->
  exists after, V2.run host_regexp w = events s ++ after.
Proof.
  intros H. unfold V2.run, V2.script, bind. rewrite H.
  apply v2_on_stdout_appends.
Qed.

(** Version 0.0.1, every step resolved. *)
Lemma v1_forward_run
      (host_regexp : string -> string -> outcome string) (w : World)
      (servicesMap : ServicesMap) (answer envChoice portInput : string)
      (rest : list string) (n : Z) (selectedService : string)
      (environment : Env) (o : EnvObject) (serviceDetails : ServiceDetails) :
  let r := executed w "kubectl get pods --all-namespaces" in
  let serviceList := JS.sort (Map_keys servicesMap) in
  let localPort := JS.or_default (JS.trim portInput) "3000" in
  error r = None -> stderr r = "" ->
  getServicesMap host_regexp (stdout r) None = Ok servicesMap ->
  typed w = answer :: envChoice :: portInput :: rest ->
  JS.parseInt answer = Some n ->
  JS.at_index serviceList (n - 1) = Some selectedService ->
  V1.environment_of_choice envChoice = Some environment ->
  Map_get servicesMap selectedService = Some o ->
  get_env o environment = Some serviceDetails ->
  exists before,
    V1.run host_regexp w
    = before ++
      [Spawn "kubectl"
         ["port-forward"; "--namespace"; JS.show (namespace serviceDetails);
          env_name environment +++ "-" +++ JS.show (namespace serviceDetails) +++
          "-" +++ selectedService +++ "-" +++ id serviceDetails;
          localPort +++ ":3000"];
       Close] /\
    existsb is_spawn before = false.
Proof.
  intros r serviceList localPort He Hs Hparse Htyped Hnum Hat Henv Hobj Hdet.
  eexists. split.
  - erewrite v1_run_returned; cycle 1.
    + v1_to_environment r serviceList He Hs Hparse Htyped Hnum Hat.
      rewrite Henv. steps. rewrite Hobj. steps. rewrite Hdet. steps.
      fold localPort. reflexivity.
    + discriminate.
    + cbv beta iota delta [events push input spinning]. apply snoc2.
  - no_spawn.
Qed.

Lemma split_absent (sep : ascii) (s : string) :
  occurs sep s = false -> JS.split sep s = [s].
Proof.
  induction s as [|a s IH]; simpl; [reflexivity|].
  destruct (Ascii.eqb a sep); simpl; [discriminate|].
  intros H. now rewrite (IH H).
Qed.

Lemma split_token (sep : ascii) (a b : string) :
  occurs sep a = false ->
  JS.split sep (a +++ String sep b) = a :: JS.split sep b.
Proof.
  induction a as [|c a IH]; simpl.
  - now rewrite Ascii.eqb_refl.
  - destruct (Ascii.eqb c sep); simpl; [discriminate|].
    intros H. now rewrite (IH H).
Qed.

Lemma occurs_append (c : ascii) (a b : string) :
  occurs c (a +++ b) = occurs c a || occurs c b.
Proof.
  induction a as [|x a IH]; simpl; [reflexivity|].
  now rewrite IH, orb_assoc.
Qed.

Lemma split_command_head (rest : string) :
  JS.split " " ("kubectl port-forward --namespace " +++ rest)
  = "kubectl" :: "port-forward" :: "--namespace" :: JS.split " " rest.
Proof. reflexivity. Qed.

(** The command line of version 0.0.2, cut at its spaces. *)
Lemma v2_command_tokens (namespace_ : option string) (environment : Env)
      (selectedService serviceId localPort servicePort : string) :
  let command :=
    V2.portForwardCommand_of namespace_ environment selectedService serviceId
                             localPort servicePort in
  JS.join " " ("kubectl" :: JS.slice_from1 (JS.split " " command)) = command /\
  (occurs " " (JS.show namespace_) = false ->
   occurs " " selectedService = false ->
   occurs " " serviceId = false ->
   occurs " " localPort = false ->
   occurs " " servicePort = false ->
   JS.slice_from1 (JS.split " " command)
   = ["port-forward"; "--namespace"; JS.show namespace_;
      env_name environment +++ "-" +++ JS.show namespace_ +++ "-" +++
      selectedService +++ "-" +++ serviceId;
      localPort +++ ":" +++ servicePort]).
Proof.
  intros command. unfold command, V2.portForwardCommand_of.
  rewrite split_command_head. unfold JS.slice_from1, tl.
  split.
  - rewrite <- split_command_head. apply (join_split " ").
  - intros Hn Hs Hi Hl Hp. do 2 f_equal.
    match goal with
    | |- JS.split " " ?r = _ =>
        replace r
          with (JS.show namespace_ +++
                String " "
                  ((env_name environment +++ "-" +++ JS.show namespace_ +++
                    "-" +++ selectedService +++ "-" +++ serviceId) +++
                   String " " (localPort +++ ":" +++ servicePort)))
    end.
    + rewrite split_token by exact Hn.
      rewrite split_token.
      * rewrite split_absent; [reflexivity|].
        rewrite occurs_append, Hl. simpl. exact Hp.
      * repeat (rewrite occurs_append; simpl).
        rewrite Hn, Hs, Hi. now destruct environment.
    + repeat rewrite append_assoc. reflexivity.
Qed.

(** C4.  When every step of the selection resolves (the listing, the
    service index, the environment, the entry [serviceDetails] of that
    service and environment, the local port, and in version 0.0.2 the
    detected port and the answer to it), the first child process the
    script spawns is [kubectl] with the words of
    [kubectl port-forward --namespace N E-N-S-id L:D], where [N] and
    [id] are those of the entry: joined with spaces the words are that
    command line, and when no part holds a space they are the five
    arguments one expects.  In version 0.0.1 the five arguments are
    passed as they are and [D] is 3000. *)
Theorem forwarding_command :
  forall (host_regexp : string -> string -> outcome string) (w : World),
    (forall podsData servicesMap serviceAnswer envAnswer localPortAnswer
            servicePortAnswer rest n selectedService environment o
            serviceDetails servicePortDetected,
        let namespace0 := V2.getArgValue (argv w) "--namespace" in
        let servicesList := JS.sort (Map_keys servicesMap) in
        let N := JS.show (namespace serviceDetails) in
        let L := JS.or_default (JS.trim localPortAnswer) "3000" in
        let D := JS.or_default (JS.trim servicePortAnswer) servicePortDetected in
        V2.execPromise_settle (executed w (V2.getPodsCommand_of namespace0))
        = Ok podsData ->
        getServicesMap host_regexp podsData namespace0 = Ok servicesMap ->
        typed w = serviceAnswer :: envAnswer :: localPortAnswer
                                :: servicePortAnswer :: rest ->
        JS.parseInt (JS.trim serviceAnswer) = Some n ->
        JS.at_index servicesList (n - 1) = Some selectedService ->
        V2.environment_of_choice (V2.envChoice_of (JS.trim envAnswer))
        = Some environment ->
        Map_get servicesMap selectedService = Some o ->
        get_env o environment = Some serviceDetails ->
        V2.execPromise_settle
          (executed w (V2.getServicePortCommand_of (namespace serviceDetails)
                                                   environment selectedService))
        = Ok servicePortDetected ->
        exists before after args,
          V2.run host_regexp w = before ++ Spawn "kubectl" args :: after /\
          existsb is_spawn before = false /\
          JS.join " " ("kubectl" :: args)
          = "kubectl port-forward --namespace " +++ N +++ " " +++
            env_name environment +++ "-" +++ N +++ "-" +++ selectedService +++
            "-" +++ id serviceDetails +++ " " +++ L +++ ":" +++ D /\
          (occurs " " N = false ->
           occurs " " selectedService = false ->
           occurs " " (id serviceDetails) = false ->
           occurs " " L = false ->
           occurs " " D = false ->
           args = ["port-forward"; "--namespace"; N;
                   env_name environment +++ "-" +++ N +++ "-" +++
                   selectedService +++ "-" +++ id serviceDetails;
                   L +++ ":" +++ D])) /\
    (forall servicesMap answer envChoice portInput rest n selectedService
            environment o serviceDetails,
        let r := executed w "kubectl get pods --all-namespaces" in
        let serviceList := JS.sort (Map_keys servicesMap) in
        let N := JS.show (namespace serviceDetails) in
        let L := JS.or_default (JS.trim portInput) "3000" in
        error r = None -> stderr r = "" ->
        getServicesMap host_regexp (stdout r) None = Ok servicesMap ->
        typed w = answer :: envChoice :: portInput :: rest ->
        JS.parseInt answer = Some n ->
        JS.at_index serviceList (n - 1) = Some selectedService ->
        V1.environment_of_choice envChoice = Some environment ->
        Map_get servicesMap selectedService = Some o ->
        get_env o environment = Some serviceDetails ->
        exists before,
          V1.run host_regexp w
          = before ++
            [Spawn "kubectl"
               ["port-forward"; "--namespace"; N;
                env_name environment +++ "-" +++ N +++ "-" +++
                selectedService +++ "-" +++ id serviceDetails;
                L +++ ":3000"];
             Close] /\
          existsb is_spawn before = false).
Proof.
  intros host w. split.
  - intros podsData servicesMap a1 a2 a3 a4 rest n S E o d det
           namespace0 servicesList N L D
           Hexec Hparse Htyped Hnum Hat Henv Hobj Hdet Hport.
    destruct (v2_forward_main host w podsData servicesMap a1 a2 a3 a4 rest n S E
                              o d det Hexec Hparse Htyped Hnum Hat Henv Hobj
                              Hdet Hport)
      as (before & Hmain & Hbefore).
    destruct (v2_run_normal host w _ _ _ Hmain) as (after & Hrun).
    destruct (v2_command_tokens (namespace d) E S (id d) L D) as (Hjoin & Htok).
    exists before, after. eexists. split; [|split; [exact Hbefore | split]].
    + rewrite Hrun. cbv beta iota delta [events].
      rewrite <- app_assoc. reflexivity.
    + exact Hjoin.
    + exact Htok.
  - intros servicesMap a1 a2 a3 rest n S E o d r serviceList N L.
    apply v1_forward_run.
Qed.

Lemma forwarding_command_witness :
  (exists before after,
      V2.run no_engine (world1 ["2"; "1"; ""; ""])
      = before ++
        Spawn "kubectl"
              ["port-forward"; "--namespace"; "team-alpha";
               "dev-team-alpha-checkout-ab12-xy34"; "3000:8080"] :: after /\
      existsb is_spawn before = false) /\
  (exists before,
      V1.run no_engine (world1 ["2"; "2"; " 8081 "])
      = before ++
        [Spawn "kubectl"
               ["port-forward"; "--namespace"; "team-alpha";
                "qa-team-alpha-checkout-cd56-zw78"; "8081:3000"];
         Close] /\
      existsb is_spawn before = false).
Proof.
  split.
  - destruct (proj1 (forwarding_command no_engine (world1 ["2"; "1"; ""; ""]))
                    listing1 map1 "2" "1" "" "" [] 2 "checkout" Dev
                    checkout_object
                    {| id := "ab12-xy34"; namespace := Some "team-alpha" |}
                    "8080"
                    eq_refl eq_refl eq_refl eq_refl eq_refl eq_refl eq_refl
                    eq_refl eq_refl)
      as (before & after & args & Hrun & Hbefore & _ & Hargs).
    exists before, after. split; [|exact Hbefore].
    rewrite Hrun, (Hargs eq_refl eq_refl eq_refl eq_refl eq_refl).
    reflexivity.
  - exact (proj2 (forwarding_command no_engine (world1 ["2"; "2"; " 8081 "]))
                 map1 "2" "2" " 8081 " [] 2 "checkout" Qa checkout_object
                 {| id := "cd56-zw78"; namespace := Some "team-alpha" |}
                 eq_refl eq_refl eq_refl eq_refl eq_refl eq_refl eq_refl
                 eq_refl eq_refl).
Defined.

(** C6.  A service answer that [parseInt] does not read as a number, or
    whose number is outside 1..count, and an environment for which the
    chosen service has no entry, each make the script print its error
    and close the session; the run ends there and holds no child
    process.  Both versions behave so. *)
Theorem invalid_selection_ends_session :
  forall (host_regexp : string -> string -> outcome string) (w : World),
    (forall podsData servicesMap answer rest,
        let namespace0 := V2.getArgValue (argv w) "--namespace" in
        let servicesList := JS.sort (Map_keys servicesMap) in
        V2.execPromise_settle (executed w (V2.getPodsCommand_of namespace0))
        = Ok podsData ->
        getServicesMap host_regexp podsData namespace0 = Ok servicesMap ->
        servicesList <> [] ->
        typed w = answer :: rest ->
        match JS.parseInt (JS.trim answer) with
        | None => True
        | Some n => n < 1 \/ Z.of_nat (length servicesList) < n
        end ->
        exists before,
          V2.run host_regexp w
          = before ++
            [LogError
               "Invalid selection. Please run the script again and choose a valid number.";
             Close] /\
          existsb is_spawn (V2.run host_regexp w) = false) /\
    (forall podsData servicesMap serviceAnswer envAnswer rest n selectedService
            environment o,
        let namespace0 := V2.getArgValue (argv w) "--namespace" in
        let servicesList := JS.sort (Map_keys servicesMap) in
        V2.execPromise_settle (executed w (V2.getPodsCommand_of namespace0))
        = Ok podsData ->
        getServicesMap host_regexp podsData namespace0 = Ok servicesMap ->
        typed w = serviceAnswer :: envAnswer :: rest ->
        JS.parseInt (JS.trim serviceAnswer) = Some n ->
        JS.at_index servicesList (n - 1) = Some selectedService ->
        V2.environment_of_choice (V2.envChoice_of (JS.trim envAnswer))
        = Some environment ->
        Map_get servicesMap selectedService = Some o ->
        get_env o environment = None ->
        exists before,
          V2.run host_regexp w
          = before ++
            [LogError
               ("The selected environment " +++ dq +++ env_name environment +++
                dq +++ " does not exist for the service " +++ dq +++
                selectedService +++ dq +++
                ". Please run the script again and choose a valid environment.");
             Close] /\
          existsb is_spawn (V2.run host_regexp w) = false) /\
    (forall servicesMap answer rest,
        let r := executed w "kubectl get pods --all-namespaces" in
        let serviceList := JS.sort (Map_keys servicesMap) in
        error r = None -> stderr r = "" ->
        getServicesMap host_regexp (stdout r) None = Ok servicesMap ->
        serviceList <> [] ->
        typed w = answer :: rest ->
        match JS.parseInt answer with
        | None => True
        | Some n => n < 1 \/ Z.of_nat (length serviceList) < n
        end ->
        exists before,
          V1.run host_regexp w
          = before ++
            [Log (V1.colors.fgRed +++
                  "Invalid selection. Please run the script again and choose a valid number." +++
                  V1.colors.reset);
             Close] /\
          existsb is_spawn (V1.run host_regexp w) = false) /\
    (forall servicesMap answer envChoice rest n selectedService environment o,
        let r := executed w "kubectl get pods --all-namespaces" in
        let serviceList := JS.sort (Map_keys servicesMap) in
        error r = None -> stderr r = "" ->
        getServicesMap host_regexp (stdout r) None = Ok servicesMap ->
        typed w = answer :: envChoice :: rest ->
        JS.parseInt answer = Some n ->
        JS.at_index serviceList (n - 1) = Some selectedService ->
        V1.environment_of_choice envChoice = Some environment ->
        Map_get servicesMap selectedService = Some o ->
        get_env o environment = None ->
        exists before,
          V1.run host_regexp w
          = before ++
            [Log (V1.colors.fgRed +++ "The selected environment " +++ dq +++
                  env_name environment +++ dq +++
                  " does not exist for the service " +++ dq +++
                  selectedService +++ dq +++
                  ". Please run the script again and choose a valid environment." +++
                  V1.colors.reset);
             Close] /\
          existsb is_spawn (V1.run host_regexp w) = false).
Proof.
  intros host w. repeat split.
  - intros. now apply v2_invalid_index_run with (podsData := podsData)
                                                 (servicesMap := servicesMap)
                                                 (answer := answer) (rest := rest).
  - intros. now apply v2_missing_environment_run
      with (podsData := podsData) (servicesMap := servicesMap)
           (serviceAnswer := serviceAnswer) (envAnswer := envAnswer)
           (rest := rest) (n := n) (o := o).
  - intros. now apply v1_invalid_index_run with (servicesMap := servicesMap)
                                                 (answer := answer) (rest := rest).
  - intros. now apply v1_missing_environment_run
      with (servicesMap := servicesMap) (answer := answer)
           (envChoice := envChoice) (rest := rest) (n := n) (o := o).
Qed.

Lemma invalid_selection_ends_session_witness :
  (exists before,
      V2.run no_engine (world1 ["7"])
      = before ++
        [LogError
           "Invalid selection. Please run the script again and choose a valid number.";
         Close] /\
      existsb is_spawn (V2.run no_engine (world1 ["7"])) = false) /\
  (exists before,
      V2.run no_engine (world1 ["1"; "2"])
      = before ++
        [LogError
           ("The selected environment " +++ dq +++ "qa" +++ dq +++
            " does not exist for the service " +++ dq +++ "api-gw" +++ dq +++
            ". Please run the script again and choose a valid environment.");
         Close] /\
      existsb is_spawn (V2.run no_engine (world1 ["1"; "2"])) = false).
Proof.
  split.
  - apply (proj1 (invalid_selection_ends_session no_engine (world1 ["7"]))
                 listing1 map1 "7" []);
      try reflexivity; [discriminate | right; vm_compute; reflexivity].
  - apply (proj1 (proj2 (invalid_selection_ends_session no_engine
                                                        (world1 ["1"; "2"])))
                 listing1 map1 "1" "2" [] 1 "api-gw" Qa api_gw_object);
      reflexivity.
Defined.

(** ** The pod lister (C8) *)

Lemma settle_error (r : ExecResult) (e : Error) :
  error r = Some e -> V2.execPromise_settle r = Throw e.
Proof. intros H. unfold V2.execPromise_settle. now rewrite H. Qed.

Lemma settle_stderr (r : ExecResult) :
  error r = None -> stderr r <> "" ->
  V2.execPromise_settle r = Throw (PlainError (stderr r)).
Proof.
  intros He Hs. unfold V2.execPromise_settle. rewrite He.
  apply String.eqb_neq in Hs. now rewrite Hs.
Qed.

Lemma settle_stdout (r : ExecResult) :
  error r = None -> stderr r = "" -> V2.execPromise_settle r = Ok (stdout r).
Proof. intros He Hs. unfold V2.execPromise_settle. now rewrite He, Hs. Qed.

Lemma exec_result_cases (r : ExecResult) :
  (exists e, error r = Some e) \/
  (error r = None /\ stderr r <> "") \/
  (error r = None /\ stderr r = "").
Proof.
  destruct (error r) as [e|]; [left; now exists e|].
  destruct (string_dec (stderr r) ""); auto.
Qed.

Lemma v1_callback_fails
      (host_regexp : string -> string -> outcome string)
      (r : ExecResult) (s : State) :
  error r <> None \/ stderr r <> "" ->
  exists text, V1.callback host_regexp r s = (Returned, push (LogError text) s).
Proof.
  intros H. unfold V1.callback.
  destruct (error r) as [e|]; [eexists; reflexivity|].
  destruct H as [H|H]; [congruence|].
  apply String.eqb_neq in H. rewrite H. eexists. reflexivity.
Qed.

(** C8.  The lister fails exactly when [exec] reports an error or the
    command wrote to standard error.  In version 0.0.2 the promise is
    then rejected, with the error of [exec] or with an error made of
    the text on standard error, and is otherwise resolved with standard
    output as it is.  In version 0.0.1 the callback then prints the
    error and returns at once, and otherwise goes on with standard
    output as it is. *)
Theorem lister_fails_on_error_or_stderr :
  forall (r : ExecResult),
    ((exists e, V2.execPromise_settle r = Throw e) <->
     (error r <> None \/ stderr r <> "")) /\
    (forall e, error r = Some e -> V2.execPromise_settle r = Throw e) /\
    (error r = None -> stderr r <> "" ->
     V2.execPromise_settle r = Throw (PlainError (stderr r))) /\
    (error r = None -> stderr r = "" ->
     V2.execPromise_settle r = Ok (stdout r)) /\
    (forall w cmd s,
        executed w cmd = r ->
        V2.execPromise w cmd s
        = (match V2.execPromise_settle r with
           | Ok out => Normal out
           | Throw e => Thrown e
           end, push (Exec cmd) s)) /\
    (forall host_regexp s,
        error r <> None \/ stderr r <> "" ->
        exists text,
          V1.callback host_regexp r s = (Returned, push (LogError text) s)) /\
    (forall host_regexp s,
        error r = None -> stderr r = "" ->
        V1.callback host_regexp r s
        = V1.after_listing host_regexp (stdout r) s).
Proof.
  intros r. split; [|split; [|split; [|split; [|split; [|split]]]]].
  - split.
    + intros [e H]. destruct (exec_result_cases r) as [[e' He] | [[He Hs] | [He Hs]]].
      * left. congruence.
      * now right.
      * rewrite (settle_stdout r He Hs) in H. discriminate.
    + intros H. destruct (exec_result_cases r) as [[e' He] | [[He Hs] | [He Hs]]].
      * exists e'. now apply settle_error.
      * eexists. now apply settle_stderr.
      * destruct H; contradiction.
  - apply settle_error.
  - apply settle_stderr.
  - apply settle_stdout.
  - intros w cmd s Hr. unfold V2.execPromise, bind, emit. rewrite Hr.
    now destruct (V2.execPromise_settle r).
  - intros host s. apply v1_callback_fails.
  - intros host s. apply v1_callback_listing.
Qed.

Lemma lister_fails_on_error_or_stderr_witness :
  V2.execPromise_settle (failed "error: the server is unreachable")
  = Throw (ChildError "error: the server is unreachable") /\
  V2.execPromise_settle (succeeded listing1) = Ok listing1.
Proof.
  split.
  - apply (proj1 (proj2 (lister_fails_on_error_or_stderr
                           (failed "error: the server is unreachable")))).
    reflexivity.
  - apply (proj1 (proj2 (proj2 (proj2 (lister_fails_on_error_or_stderr
                                         (succeeded listing1)))))).
    + reflexivity.
    + reflexivity.
Defined.

(** ** The environment answer (C5) *)

(** The answers that the chain of tests rejects: in version 0.0.2 the
    numbers other than 0, 1, 2 and 3; in version 0.0.1 every text other
    than [1], [2] and [3].  The empty answer is [dev] in version 0.0.2. *)
Lemma v2_choice_rejected (envAnswer : string) (k : Z) :
  JS.parseInt envAnswer = Some k ->
  k <> 0 -> k <> 1 -> k <> 2 -> k <> 3 ->
  V2.environment_of_choice (V2.envChoice_of envAnswer) = None.
Proof.
  intros H H0 H1 H2 H3. unfold V2.envChoice_of, V2.environment_of_choice.
  rewrite H.
  destruct (Z.eqb_spec k 0); [contradiction|].
  destruct (Z.eqb_spec k 1); [contradiction|].
  destruct (Z.eqb_spec k 2); [contradiction|].
  destruct (Z.eqb_spec k 3); [contradiction|reflexivity].
Qed.

Lemma v1_choice_rejected (envChoice : string) :
  envChoice <> "1" -> envChoice <> "2" -> envChoice <> "3" ->
  V1.environment_of_choice envChoice = None.
Proof.
  intros H1 H2 H3. unfold V1.environment_of_choice.
  apply String.eqb_neq in H1, H2, H3. now rewrite H1, H2, H3.
Qed.

Lemma v2_empty_answer_is_dev (envAnswer : string) :
  JS.trim envAnswer = "" ->
  V2.environment_of_choice (V2.envChoice_of (JS.trim envAnswer)) = Some Dev.
Proof. now intros ->. Qed.

(** C5, at the answer [abc] in version 0.0.2.  [parseInt] gives [NaN],
    which [|| 1] turns into 1: the script takes [dev], prints no error,
    and spawns port-forward for the [dev] pod of the chosen service.
    The answer [0] is treated alike.  Version 0.0.1 prints its error
    for the same answer and spawns nothing, and so does version 0.0.2
    for the answer [4]. *)
Theorem unparsable_environment_answer_selects_dev :
  JS.parseInt "abc" = None /\
  V2.environment_of_choice (V2.envChoice_of "abc") = Some Dev /\
  V2.environment_of_choice (V2.envChoice_of "0") = Some Dev /\
  filter is_spawn (V2.run no_engine (world1 ["2"; "abc"; ""; ""]))
  = [Spawn "kubectl"
           ["port-forward"; "--namespace"; "team-alpha";
            "dev-team-alpha-checkout-ab12-xy34"; "3000:8080"]] /\
  filter is_error (V2.run no_engine (world1 ["2"; "abc"; ""; ""])) = [] /\
  filter is_spawn (V1.run no_engine (world1 ["2"; "abc"])) = [] /\
  filter is_error (V2.run no_engine (world1 ["2"; "4"]))
  = [LogError
       "Invalid selection. Please run the script again and choose either '1', '2', or '3'."].
Proof. do 6 (split; [reflexivity|]). reflexivity. Qed.

(** * Further properties of the code *)

(** ** The command line ([getArgValue]) *)

Lemma getArgValue_first_usable (flag v : string) (after : list string) :
  forall before : list string,
    v <> "" ->
    (forall p x q, before ++ [flag] = p ++ flag :: x :: q -> x = "") ->
    V2.getArgValue (before ++ flag :: v :: after) flag = Some v.
Proof.
  induction before as [|b before IH]; intros Hv Hfirst; simpl.
  - rewrite String.eqb_refl. apply String.eqb_neq in Hv. now rewrite Hv.
  - destruct (String.eqb b flag && JS.truthy (hd_error (before ++ flag :: v :: after)))
      eqn:E.
    + exfalso. apply andb_true_iff in E. destruct E as [Eb Et].
      apply String.eqb_eq in Eb. subst b.
      destruct before as [|x before']; simpl in Et.
      * assert (Hx : flag = "") by (apply (Hfirst [] flag []); reflexivity).
        subst flag. discriminate.
      * assert (Hx : x = "")
          by (apply (Hfirst [] x (before' ++ [flag])); reflexivity).
        subst x. discriminate.
    + apply IH; [exact Hv|].
      intros p x q H. apply (Hfirst (b :: p) x q). simpl. now rewrite H.
Qed.

Lemma getArgValue_Some_first_usable (flag : string) :
  forall (args : list string) (v : string),
    V2.getArgValue args flag = Some v ->
    exists before after,
      args = before ++ flag :: v :: after /\ v <> "" /\
      (forall p x q, before ++ [flag] = p ++ flag :: x :: q -> x = "").
Proof.
  induction args as [|a rest IH]; intros v H; simpl in H; [discriminate|].
  destruct (String.eqb a flag && JS.truthy (hd_error rest)) eqn:E.
  - apply andb_true_iff in E. destruct E as [Ea Et].
    apply String.eqb_eq in Ea. subst a.
    destruct rest as [|v' after]; simpl in *; [discriminate|].
    inversion H; subst v'; clear H.
    exists [], after. split; [reflexivity|]. split.
    + intros ->. discriminate.
    + intros p x q Hp. destruct p as [|y [|z p']]; discriminate.
  - destruct (IH v H) as (before & after & -> & Hv & Hfirst).
    exists (a :: before), after. split; [reflexivity|]. split; [exact Hv|].
    intros p x q Hp. destruct p as [|y p'].
    + simpl in Hp. inversion Hp as [[Ha Hrest]]. subst a.
      rewrite String.eqb_refl in E. simpl in E.
      destruct before as [|b before']; simpl in *.
      * inversion Hrest. subst x. destruct (String.eqb_spec flag ""); [auto|].
        discriminate.
      * inversion Hrest. subst x. destruct (String.eqb_spec b ""); [auto|].
        discriminate.
    + simpl in Hp. inversion Hp as [[Ha Hrest]]. exact (Hfirst p' x q Hrest).
Qed.

Lemma getArgValue_None_no_usable (flag : string) :
  forall args : list string,
    V2.getArgValue args flag = None <->
    (forall p x q, args = p ++ flag :: x :: q -> x = "").
Proof.
  induction args as [|a rest IH]; simpl.
  - split; [|reflexivity]. intros _ p x q H. now destruct p.
  - destruct (String.eqb a flag && JS.truthy (hd_error rest)) eqn:E.
    + apply andb_true_iff in E. destruct E as [Ea Et].
      apply String.eqb_eq in Ea. subst a.
      destruct rest as [|v after]; simpl in *; [discriminate|].
      split; [discriminate|].
      intros H. rewrite (H [] v after eq_refl) in Et. discriminate.
    + rewrite IH. split.
      * intros H p x q Hp. destruct p as [|y p'].
        { simpl in Hp. inversion Hp as [[Ha Hrest]]. subst a rest.
          rewrite String.eqb_refl in E. simpl in E.
          destruct (String.eqb_spec x ""); [auto | discriminate]. }
        { simpl in Hp. inversion Hp as [[Ha Hrest]]. exact (H p' x q Hrest). }
      * intros H p x q Hp. apply (H (a :: p) x q). simpl. now rewrite Hp.
Qed.

(** X1.  [getArgValue] returns the value behind the first occurrence of
    the flag that is followed by a non-empty argument, and [null] when
    there is no such occurrence.  Said without the function: the result
    is [v] exactly when the command line is [before], the flag, [v],
    [after], with [v] not empty and with every occurrence of the flag
    among [before] followed by the empty string; the result is [null]
    exactly when every occurrence of the flag that is followed by an
    argument is followed by the empty string. *)
Theorem getArgValue_value_follows_flag :
  forall (args : list string) (flag : string),
    (forall v,
        V2.getArgValue args flag = Some v <->
        exists before after,
          args = before ++ flag :: v :: after /\ v <> "" /\
          (forall p x q, before ++ [flag] = p ++ flag :: x :: q -> x = "")) /\
    (V2.getArgValue args flag = None <->
     (forall p x q, args = p ++ flag :: x :: q -> x = "")).
Proof.
  intros args flag. split.
  - intros v. split.
    + apply getArgValue_Some_first_usable.
    + intros (before & after & -> & Hv & Hfirst).
      now apply getArgValue_first_usable.
  - apply getArgValue_None_no_usable.
Qed.

Lemma getArgValue_value_follows_flag_witness :
  V2.getArgValue
    ["--namespace"; ""; "--namespace"; "team-alpha"; "--namespace"; "other"]
    "--namespace"
  = Some "team-alpha".
Proof.
  apply (proj2 (proj1 (getArgValue_value_follows_flag
                         ["--namespace"; ""; "--namespace"; "team-alpha";
                          "--namespace"; "other"]
                         "--namespace") "team-alpha")).
  exists ["--namespace"; ""], ["--namespace"; "other"].
  split; [reflexivity|]. split; [discriminate|].
  intros p x q H.
  destruct p as [|y [|z [|u p']]]; simpl in H; inversion H; try reflexivity.
  destruct p'; discriminate.
Defined.

(** ** The mapping ([getServicesMap]) *)

Lemma startsWith_env_of (nameColumn : string) (e : Env) :
  JS.startsWith nameColumn (env_name e +++ "-") = true ->
  env_of nameColumn = Some e.
Proof.
  unfold env_of, JS.startsWith. intros H.
  destruct (prefix_decompose _ _ H) as [t E].
  destruct e; simpl in H.
  - now rewrite H.
  - assert (Hd : String.prefix "dev-" nameColumn = false)
      by (rewrite E; reflexivity).
    now rewrite Hd, H.
  - assert (Hd : String.prefix "dev-" nameColumn = false)
      by (rewrite E; reflexivity).
    assert (Hq : String.prefix "qa-" nameColumn = false)
      by (rewrite E; reflexivity).
    now rewrite Hd, Hq, H.
Qed.

Lemma qualifies_loop_body
      (host_regexp : string -> string -> outcome string)
      (namespace_arg : option string) (namespaceIndex nameIndex : Z)
      (line : string) (s : string) (e : Env) (d : ServiceDetails)
      (m : ServicesMap) :
  qualifies host_regexp namespace_arg namespaceIndex nameIndex line s e d ->
  loop_body host_regexp namespace_arg namespaceIndex nameIndex line m
  = Ok (store m s e d).
Proof.
  intros (nameColumn & mn & Hn & Hp & Hm & Hlen & -> & ->).
  unfold loop_body. rewrite Hn, (startsWith_env_of _ _ Hp), Hm.
  apply Nat.ltb_lt in Hlen. now rewrite Hlen.
Qed.

Lemma entry_of_store_same (m : ServicesMap) (s : string) (e : Env)
      (d : ServiceDetails) :
  entry_of (store m s e d) s e = Some d.
Proof. unfold entry_of. rewrite store_get_same. apply get_set_env_same. Qed.

Lemma entry_of_store_other (m : ServicesMap) (s s' : string) (e e' : Env)
      (d : ServiceDetails) :
  s <> s' \/ e <> e' ->
  entry_of (store m s e d) s' e' = entry_of m s' e'.
Proof.
  intros H. unfold entry_of.
  destruct (string_dec s s') as [<-|Hs].
  - destruct H as [H|H]; [congruence|].
    rewrite store_get_same, get_set_env_other by exact H.
    unfold object_at. destruct (Map_get m s); [reflexivity | now destruct e'].
  - now rewrite store_get_other.
Qed.

(** A row that does not qualify for a service and environment leaves
    the entry of that service and environment as it is. *)
Lemma loop_body_frame
      (host_regexp : string -> string -> outcome string)
      (namespace_arg : option string) (namespaceIndex nameIndex : Z)
      (line : string) (m m' : ServicesMap) (s : string) (e : Env) :
  loop_body host_regexp namespace_arg namespaceIndex nameIndex line m = Ok m' ->
  (forall d, ~ qualifies host_regexp namespace_arg namespaceIndex nameIndex
                         line s e d) ->
  entry_of m' s e = entry_of m s e.
Proof.
  intros H Hnot.
  destruct (loop_body_cases _ _ _ _ _ _ _ H) as (nameColumn & Hn & Hc).
  destruct Hc as [[_ ->] | (e0 & mn & He0 & Hm & [[_ ->] | [Hlen ->]])];
    try reflexivity.
  apply entry_of_store_other.
  destruct (string_dec (JS.join "-" (JS.slice_but_last2 (JS.split "-" mn))) s)
    as [Es|Es]; [|now left].
  destruct (Env_eq_dec e0 e) as [Ee|Ee]; [|now right].
  exfalso. subst e0.
  apply (Hnot {| id := JS.join "-" (JS.slice_last2 (JS.split "-" mn));
                 namespace :=
                   JS.nullish namespace_arg
                              (JS.at_index (JS.split_spaces line)
                                           namespaceIndex) |}).
  exists nameColumn, mn.
  split; [exact Hn|]. split; [now apply env_of_startsWith|].
  split; [exact Hm|]. split; [exact Hlen|]. split; [now symmetry | reflexivity].
Qed.

Lemma loop_frame
      (host_regexp : string -> string -> outcome string)
      (namespace_arg : option string) (namespaceIndex nameIndex : Z)
      (rows : list string) (s : string) (e : Env) :
  forall m m',
    loop host_regexp namespace_arg namespaceIndex nameIndex rows m = Ok m' ->
    (forall l d, In l rows ->
                 ~ qualifies host_regexp namespace_arg namespaceIndex nameIndex
                             l s e d) ->
    entry_of m' s e = entry_of m s e.
Proof.
  induction rows as [|line rows IH]; simpl; intros m m' H Hnot.
  - now inversion H.
  - destruct (loop_body host_regexp namespace_arg namespaceIndex nameIndex line m)
      as [m1|err] eqn:Hb; [|discriminate].
    rewrite (IH _ _ H) by (intros l d Hin; apply Hnot; now right).
    apply (loop_body_frame _ _ _ _ _ _ _ _ _ Hb).
    intros d. apply Hnot. now left.
Qed.

Lemma loop_append
      (host_regexp : string -> string -> outcome string)
      (namespace_arg : option string) (namespaceIndex nameIndex : Z)
      (rows rows' : list string) :
  forall m m',
    loop host_regexp namespace_arg namespaceIndex nameIndex (rows ++ rows') m
    = Ok m' ->
    exists m1,
      loop host_regexp namespace_arg namespaceIndex nameIndex rows m = Ok m1 /\
      loop host_regexp namespace_arg namespaceIndex nameIndex rows' m1 = Ok m'.
Proof.
  induction rows as [|line rows IH]; simpl; intros m m' H.
  - now exists m.
  - destruct (loop_body host_regexp namespace_arg namespaceIndex nameIndex line m)
      as [m1|err]; [|discriminate].
    now apply IH.
Qed.

(** X2.  The last row wins.  When the parser returns a mapping for a
    text, the entry it holds for a service and an environment is the
    one read off the last row of the text that qualifies for that
    service and environment: rows before it are overwritten, rows for
    other services or environments do not touch it. *)
Theorem last_qualifying_row_wins :
  forall (host_regexp : string -> string -> outcome string)
         (podsData : string) (namespace_arg : option string)
         (before after : list string) (line : string) (m : ServicesMap)
         (s : string) (e : Env) (d : ServiceDetails),
    getServicesMap host_regexp podsData namespace_arg = Ok m ->
    tl (lines_of podsData) = before ++ line :: after ->
    qualifies host_regexp namespace_arg (namespaceIndex_of podsData)
              (nameIndex_of podsData) line s e d ->
    (forall l d', In l after ->
                  ~ qualifies host_regexp namespace_arg
                              (namespaceIndex_of podsData)
                              (nameIndex_of podsData) l s e d') ->
    entry_of m s e = Some d.
Proof.
  intros host podsData ns before after line m s e d H Hrows Hq Hafter.
  unfold getServicesMap in H.
  fold (lines_of podsData) in H.
  fold (namespaceIndex_of podsData) in H. fold (nameIndex_of podsData) in H.
  rewrite Hrows in H.
  destruct (loop_append _ _ _ _ _ _ _ _ H) as (m1 & _ & H1).
  simpl in H1. rewrite (qualifies_loop_body _ _ _ _ _ _ _ _ m1 Hq) in H1.
  rewrite (loop_frame _ _ _ _ _ _ _ _ _ H1 Hafter).
  apply entry_of_store_same.
Qed.

Lemma last_qualifying_row_wins_witness :
  exists m,
    getServicesMap no_engine listing_two_revisions None = Ok m /\
    entry_of m "checkout" Dev
    = Some {| id := "ef90-uv12"; namespace := Some "team-alpha" |}.
Proof.
  eexists. split; [reflexivity|].
  apply (last_qualifying_row_wins
           no_engine listing_two_revisions None
           ["team-alpha   dev-team-alpha-checkout-ab12-xy34   1/1";
            "team-alpha   qa-team-alpha-checkout-cd56-zw78    1/1"]
           ["team-beta    stg-team-beta-api-gw-11aa-22bb      1/1"]
           "team-alpha   dev-team-alpha-checkout-ef90-uv12   1/1").
  - reflexivity.
  - reflexivity.
  - eexists. eexists. repeat split; try reflexivity. simpl. lia.
  - intros l d' [<-|[]] (nameColumn & mn & Hn & Hp & _).
    simpl in Hn. inversion Hn; subst nameColumn. discriminate.
Defined.

Lemma Map_keys_set (m : ServicesMap) (k : string) (o : EnvObject) :
  Map_keys (Map_set m k o)
  = if Map_has m k then Map_keys m else Map_keys m ++ [k].
Proof.
  unfold Map_has. induction m as [|[k' o'] m IH]; simpl; [reflexivity|].
  destruct (String.eqb k' k); simpl; [reflexivity|].
  rewrite IH. now destruct (Map_get m k).
Qed.

Lemma Map_get_in_keys (m : ServicesMap) (k : string) :
  In k (Map_keys m) <-> exists o, Map_get m k = Some o.
Proof.
  induction m as [|[k' o'] m IH]; simpl.
  - split; [contradiction | now intros [o H]].
  - destruct (String.eqb_spec k' k) as [->|Hne].
    + split; [now exists o' | now left].
    + rewrite <- IH. split; [intros [H|H]; [contradiction | exact H] | now right].
Qed.

(** What the loop keeps true of the mapping. *)
Lemma store_keeps_shape (m : ServicesMap) (k : string) (e : Env)
      (d : ServiceDetails) :
  NoDup (Map_keys m) /\
  (forall s o, Map_get m s = Some o -> exists e' d', get_env o e' = Some d') ->
  NoDup (Map_keys (store m k e d)) /\
  (forall s o, Map_get (store m k e d) s = Some o ->
               exists e' d', get_env o e' = Some d').
Proof.
  intros [Hnd Hobj]. split.
  - rewrite store_eq, Map_keys_set. unfold Map_has.
    destruct (Map_get m k) eqn:G; [exact Hnd|].
    apply NoDup_app; [exact Hnd | repeat constructor; now intros [] |].
    intros x Hin [<-|[]]. apply Map_get_in_keys in Hin.
    destruct Hin as [o Ho]. congruence.
  - intros s o Hs. destruct (string_dec k s) as [<-|Hne].
    + rewrite store_get_same in Hs. inversion Hs; subst o.
      exists e, d. apply get_set_env_same.
    + rewrite store_get_other in Hs by exact Hne. now apply (Hobj s).
Qed.

Lemma loop_keeps_shape
      (host_regexp : string -> string -> outcome string)
      (namespace_arg : option string) (namespaceIndex nameIndex : Z)
      (rows : list string) :
  forall m m',
    loop host_regexp namespace_arg namespaceIndex nameIndex rows m = Ok m' ->
    NoDup (Map_keys m) /\
    (forall s o, Map_get m s = Some o -> exists e' d', get_env o e' = Some d') ->
    NoDup (Map_keys m') /\
    (forall s o, Map_get m' s = Some o -> exists e' d', get_env o e' = Some d').
Proof.
  induction rows as [|line rows IH]; simpl; intros m m' H Hinv.
  - now inversion H; subst.
  - destruct (loop_body host_regexp namespace_arg namespaceIndex nameIndex line m)
      as [m1|err] eqn:Hb; [|discriminate].
    apply (IH _ _ H).
    destruct (loop_body_cases _ _ _ _ _ _ _ Hb) as (nameColumn & Hn & Hc).
    destruct Hc as [[_ ->] | (e0 & mn & He0 & Hm & [[_ ->] | [Hlen ->]])];
      try exact Hinv.
    now apply store_keeps_shape.
Qed.

Lemma parsed_keeps_shape
      (host_regexp : string -> string -> outcome string)
      (podsData : string) (namespace_arg : option string) (m : ServicesMap) :
  getServicesMap host_regexp podsData namespace_arg = Ok m ->
  NoDup (Map_keys m) /\
  (forall s o, Map_get m s = Some o -> exists e' d', get_env o e' = Some d').
Proof.
  intros H. unfold getServicesMap in H.
  apply (loop_keeps_shape _ _ _ _ _ _ _ H).
  split; [constructor | discriminate].
Qed.

(** X3.  In the mapping that the parser returns every service name is
    a key once, and every service has an entry for at least one
    environment: no service is listed that could not be forwarded to
    under any of the three choices. *)
Theorem parsed_map_shape :
  forall (host_regexp : string -> string -> outcome string)
         (podsData : string) (namespace_arg : option string) (m : ServicesMap),
    getServicesMap host_regexp podsData namespace_arg = Ok m ->
    NoDup (Map_keys m) /\
    (forall s, In s (Map_keys m) -> exists e d, entry_of m s e = Some d).
Proof.
  intros host podsData ns m H.
  destruct (parsed_keeps_shape host podsData ns m H) as [Hnd Hobj].
  split; [exact Hnd|].
  intros s Hin. apply Map_get_in_keys in Hin. destruct Hin as [o Ho].
  destruct (Hobj s o Ho) as (e & d & He).
  exists e, d. unfold entry_of. now rewrite Ho.
Qed.

Lemma parsed_map_shape_witness :
  NoDup (Map_keys map1) /\
  (forall s, In s (Map_keys map1) -> exists e d, entry_of map1 s e = Some d).
Proof. apply (parsed_map_shape no_engine listing1 None map1). reflexivity. Defined.

(** ** The list of services ([main], [sort]) *)

Lemma insert_sorted_Permutation (x : string) (a : list string) :
  Permutation (JS.insert_sorted x a) (x :: a).
Proof.
  induction a as [|y a IH]; simpl; [reflexivity|].
  destruct (String.leb x y); [reflexivity|].
  rewrite IH. apply perm_swap.
Qed.

Lemma sort_Permutation (a : list string) : Permutation (JS.sort a) a.
Proof.
  induction a as [|x a IH]; simpl; [reflexivity|].
  rewrite insert_sorted_Permutation. now constructor.
Qed.

Lemma insert_sorted_Sorted (x : string) (a : list string) :
  Sorted (fun u v => String.leb u v = true) a ->
  Sorted (fun u v => String.leb u v = true) (JS.insert_sorted x a).
Proof.
  induction a as [|y a IH]; simpl; intros H.
  - repeat constructor.
  - destruct (String.leb x y) eqn:E.
    + constructor; [exact H | now constructor].
    + inversion H as [|? ? Hs Hh]; subst.
      constructor; [now apply IH|].
      assert (Hyx : String.leb y x = true)
        by (destruct (String.leb_total x y); congruence).
      destruct a as [|z a]; simpl.
      * now constructor.
      * destruct (String.leb x z); constructor; [exact Hyx|].
        now inversion Hh.
Qed.

Lemma sort_Sorted (a : list string) :
  Sorted (fun u v => String.leb u v = true) (JS.sort a).
Proof.
  induction a as [|x a IH]; simpl; [constructor | now apply insert_sorted_Sorted].
Qed.

Lemma leb_neq_ltb (u v : string) :
  String.leb u v = true -> u <> v -> String.ltb u v = true.
Proof.
  unfold String.leb, String.ltb. intros H Hne.
  destruct (String.compare u v) eqn:C; try reflexivity; try discriminate.
  apply String.compare_eq_iff in C. contradiction.
Qed.

Lemma Sorted_strict (a : list string) :
  Sorted (fun u v => String.leb u v = true) a -> NoDup a ->
  Sorted (fun u v => String.ltb u v = true) a.
Proof.
  induction a as [|x a IH]; intros Hs Hnd; [constructor|].
  inversion Hs as [|? ? Hs' Hh]; subst. inversion Hnd as [|? ? Hx Hnd']; subst.
  constructor; [now apply IH|].
  destruct a as [|y a]; constructor.
  inversion Hh; subst. apply leb_neq_ltb; [assumption|].
  intros ->. apply Hx. now left.
Qed.

(** X4.  The list of services that [main] numbers and prints holds
    the service names of the mapping, each once, in strictly ascending
    order of their code units; an index from 1 to its length therefore
    always denotes one service of the mapping. *)
Theorem services_list_ascending :
  forall (host_regexp : string -> string -> outcome string)
         (podsData : string) (namespace_arg : option string) (m : ServicesMap),
    getServicesMap host_regexp podsData namespace_arg = Ok m ->
    let servicesList := JS.sort (Map_keys m) in
    Sorted (fun u v => String.ltb u v = true) servicesList /\
    (forall s, In s servicesList <-> exists o, Map_get m s = Some o) /\
    (forall n, 1 <= n <= Z.of_nat (length servicesList) ->
               exists s o, JS.at_index servicesList (n - 1) = Some s /\
                           Map_get m s = Some o).
Proof.
  intros host podsData ns m H servicesList.
  pose proof (sort_Permutation (Map_keys m)) as P. fold servicesList in P.
  destruct (parsed_keeps_shape host podsData ns m H) as [Hnd _].
  assert (Hin : forall s, In s servicesList <-> exists o, Map_get m s = Some o).
  { intros s. rewrite <- Map_get_in_keys.
    split; [apply Permutation_in; exact P
           | apply Permutation_in; symmetry; exact P]. }
  split; [|split; [exact Hin|]].
  - apply Sorted_strict; [apply sort_Sorted|].
    apply (Permutation_NoDup (l := Map_keys m)); [now symmetry | exact Hnd].
  - intros n Hn. unfold JS.at_index.
    destruct (Z.ltb_spec (n - 1) 0) as [Hneg|_]; [lia|].
    destruct (nth_error servicesList (Z.to_nat (n - 1))) as [s|] eqn:E.
    + destruct (proj1 (Hin s) (nth_error_In _ _ E)) as [o Ho].
      now exists s, o.
    + apply nth_error_None in E. lia.
Qed.

Lemma services_list_ascending_witness :
  Sorted (fun u v => String.ltb u v = true) (JS.sort (Map_keys map1)) /\
  (forall s, In s (JS.sort (Map_keys map1)) <-> exists o, Map_get map1 s = Some o) /\
  (forall n, 1 <= n <= Z.of_nat (length (JS.sort (Map_keys map1))) ->
             exists s o, JS.at_index (JS.sort (Map_keys map1)) (n - 1) = Some s /\
                         Map_get map1 s = Some o).
Proof.
  apply (services_list_ascending no_engine listing1 None map1). reflexivity.
Defined.

(** ** Service name, id and pod identifier ([getServicesMap], [main]) *)

Lemma join_app (sep : string) (a b : list string) :
  a <> [] -> b <> [] ->
  JS.join sep (a ++ b) = JS.join sep a +++ sep +++ JS.join sep b.
Proof.
  intros Ha Hb. induction a as [|x a IH]; [congruence|].
  destruct a as [|y a].
  - simpl app. now rewrite join_cons by exact Hb.
  - change ((x :: y :: a) ++ b) with (x :: (y :: a) ++ b).
    rewrite join_cons by (simpl; discriminate). rewrite IH by discriminate.
    rewrite (join_cons sep x (y :: a)) by discriminate.
    now rewrite !append_assoc.
Qed.

Lemma split_pieces (sep : ascii) (s : string) :
  Forall (fun p => occurs sep p = false) (JS.split sep s).
Proof.
  induction s as [|a s IH]; simpl; [now repeat constructor|].
  destruct (Ascii.eqb a sep) eqn:E; [now constructor|].
  destruct (JS.split sep s) as [|p ps]; [now repeat constructor; simpl; rewrite E|].
  inversion IH; subst. constructor; [simpl; now rewrite E | assumption].
Qed.

(** Splitting what was joined gives the pieces back, when no piece
    holds the separator. *)
Lemma split_join (sep : ascii) (a : list string) :
  a <> [] -> Forall (fun p => occurs sep p = false) a ->
  JS.split sep (JS.join (String sep "") a) = a.
Proof.
  intros Hne Hall. induction a as [|x a IH]; [congruence|].
  inversion Hall as [|? ? Hx Ha]; subst.
  destruct a as [|y a].
  - simpl. now apply split_absent.
  - rewrite join_cons by discriminate.
    change (x +++ String sep "" +++ JS.join (String sep "") (y :: a))
      with (x +++ String sep (JS.join (String sep "") (y :: a))).
    rewrite split_token by exact Hx. f_equal. apply IH; [discriminate | exact Ha].
Qed.

Lemma slices_recompose {A : Type} (a : list A) :
  JS.slice_but_last2 a ++ JS.slice_last2 a = a.
Proof. apply firstn_skipn. Qed.

Lemma slice_last2_length {A : Type} (a : list A) :
  (2 <= length a)%nat -> length (JS.slice_last2 a) = 2%nat.
Proof. intros H. unfold JS.slice_last2. rewrite length_skipn. lia. Qed.

Lemma slice_but_last2_length {A : Type} (a : list A) :
  length (JS.slice_but_last2 a) = (length a - 2)%nat.
Proof. unfold JS.slice_but_last2. rewrite length_firstn. lia. Qed.

Lemma length_not_nil {A : Type} (a : list A) : (0 < length a)%nat -> a <> [].
Proof. destruct a; simpl; [lia | discriminate]. Qed.

Lemma name_parts_recompose (modifiedName : string) :
  (2 < length (JS.split "-" modifiedName))%nat ->
  JS.join "-" (JS.slice_but_last2 (JS.split "-" modifiedName)) +++ "-" +++
  JS.join "-" (JS.slice_last2 (JS.split "-" modifiedName)) = modifiedName /\
  JS.slice_but_last2 (JS.split "-" modifiedName) <> [] /\
  JS.slice_last2 (JS.split "-" modifiedName) <> [].
Proof.
  intros Hlen.
  assert (Hb : JS.slice_but_last2 (JS.split "-" modifiedName) <> [])
    by (apply length_not_nil; rewrite slice_but_last2_length; lia).
  assert (Hl : JS.slice_last2 (JS.split "-" modifiedName) <> [])
    by (apply length_not_nil; rewrite slice_last2_length; lia).
  split; [|split; assumption].
  rewrite <- (join_app "-") by assumption.
  rewrite slices_recompose. apply (join_split "-").
Qed.

(** X5.  Name and id take the name apart without loss.  When what is
    left of a pod name splits into more than two segments, the service
    name and the id joined by a hyphen are that name again, the id
    holds exactly the last two segments, and the service name holds the
    others. *)
Theorem name_and_id_recompose :
  forall (modifiedName : string),
    let parts := JS.split "-" modifiedName in
    let serviceName := JS.join "-" (JS.slice_but_last2 parts) in
    let serviceId := JS.join "-" (JS.slice_last2 parts) in
    (2 < length parts)%nat ->
    serviceName +++ "-" +++ serviceId = modifiedName /\
    JS.split "-" serviceId = JS.slice_last2 parts /\
    length (JS.split "-" serviceId) = 2%nat /\
    JS.split "-" serviceName = JS.slice_but_last2 parts.
Proof.
  intros mn parts serviceName serviceId Hlen.
  assert (Hb : JS.slice_but_last2 parts <> [])
    by (apply length_not_nil; rewrite slice_but_last2_length; lia).
  assert (Hl : JS.slice_last2 parts <> [])
    by (apply length_not_nil; rewrite slice_last2_length; lia).
  pose proof (split_pieces "-" mn) as Hall. fold parts in Hall.
  rewrite <- (slices_recompose parts) in Hall.
  apply Forall_app in Hall. destruct Hall as [Hall1 Hall2].
  assert (Hid : JS.split "-" serviceId = JS.slice_last2 parts)
    by (apply (split_join "-"); assumption).
  repeat split.
  - unfold serviceName, serviceId. rewrite <- (join_app "-") by assumption.
    rewrite slices_recompose. apply (join_split "-").
  - exact Hid.
  - rewrite Hid. apply slice_last2_length. lia.
  - apply (split_join "-"); assumption.
Qed.

Lemma name_and_id_recompose_witness :
  "api-gw" +++ "-" +++ "11aa-22bb" = "api-gw-11aa-22bb" /\
  JS.split "-" "11aa-22bb" = ["11aa"; "22bb"] /\
  length (JS.split "-" "11aa-22bb") = 2%nat /\
  JS.split "-" "api-gw" = ["api"; "gw"].
Proof. apply (name_and_id_recompose "api-gw-11aa-22bb"). simpl. lia. Defined.

Lemma strip_env_decompose (nameColumn : string) (e : Env) :
  env_of nameColumn = Some e ->
  nameColumn = env_name e +++ "-" +++ strip_env nameColumn.
Proof.
  intros H. apply env_of_startsWith in H. unfold JS.startsWith in H.
  destruct (prefix_decompose _ _ H) as [t E].
  unfold strip_env.
  destruct e; simpl in H.
  - rewrite H. rewrite E at 2. rewrite E at 1. reflexivity.
  - assert (Hd : String.prefix "dev-" nameColumn = false)
      by (rewrite E; reflexivity).
    rewrite Hd, H. rewrite E at 2. rewrite E at 1. reflexivity.
  - assert (Hd : String.prefix "dev-" nameColumn = false)
      by (rewrite E; reflexivity).
    assert (Hq : String.prefix "qa-" nameColumn = false)
      by (rewrite E; reflexivity).
    rewrite Hd, Hq, H. rewrite E at 2. rewrite E at 1. reflexivity.
Qed.


(** Both versions build their command lines around the pod identifier. *)
Lemma commands_hold_pod_identifier (namespace_ : option string)
      (environment : Env) (selectedService serviceId localPort
       servicePort : string) :
  V2.portForwardCommand_of namespace_ environment selectedService serviceId
                           localPort servicePort
  = "kubectl port-forward --namespace " +++ JS.show namespace_ +++ " " +++
    pod_identifier environment namespace_ selectedService serviceId +++
    " " +++ localPort +++ ":" +++ servicePort /\
  V2.logsCommand_of namespace_ environment selectedService serviceId
  = "kubectl logs --namespace " +++ JS.show namespace_ +++ " " +++
    pod_identifier environment namespace_ selectedService serviceId +++ " -f" /\
  V1.portForwardCommand_of namespace_ environment selectedService serviceId
                           localPort
  = "kubectl port-forward --namespace " +++ JS.show namespace_ +++ " " +++
    pod_identifier environment namespace_ selectedService serviceId +++
    " " +++ localPort +++ ":3000".
Proof.
  unfold V2.portForwardCommand_of, V2.logsCommand_of, V1.portForwardCommand_of,
    pod_identifier.
  repeat split; repeat rewrite append_assoc; reflexivity.
Qed.



Example plain_name_forwarded_under_other_name :
  getServicesMap no_engine listing_plain_name None
  = Ok [("checkout",
         {| dev := Some {| id := "ab12-xy34"; namespace := Some "team" |};
            qa := None; stg := None |})] /\
  pod_identifier Dev (Some "team") "checkout" "ab12-xy34"
  = "dev-team-checkout-ab12-xy34".
Proof. split; reflexivity. Qed.

(** ** Headers that are not there ([getServicesMap], [main]) *)

Lemma indexOf_absent (a : list string) (x : string) :
  ~ In x a -> JS.indexOf a x = -1.
Proof.
  induction a as [|y a IH]; simpl; intros H; [reflexivity|].
  destruct (String.eqb_spec y x) as [->|_]; [contradiction H; now left|].
  rewrite IH by (intros Hin; apply H; now right). reflexivity.
Qed.

Lemma v2_run_thrown
      (host_regexp : string -> string -> outcome string) (w : World)
      (e : Error) (i : list string) (ev : list event) :
  V2.main_try host_regexp w (V2.getArgValue (argv w) "--namespace")
              (V2.getPodsCommand_of (V2.getArgValue (argv w) "--namespace"))
              (v2_try_state w)
  = (Thrown e, {| input := i; spinning := None; events := ev |}) ->
  V2.run host_regexp w = ev ++ [LogError (message e); Close].
Proof.
  intros H. unfold V2.run, V2.script.
  assert (Hmain : V2.main host_regexp w (initial w)
                  = (Normal None,
                     {| input := i; spinning := None;
                        events := (ev ++ [LogError (message e)]) ++ [Close] |})).
  { rewrite v2_main_eq. unfold try_catch. rewrite H.
    open_script. now steps. }
  unfold bind. rewrite Hmain. cbv beta iota delta [ret snd events].
  apply snoc2.
Qed.

Lemma v1_run_thrown
      (host_regexp : string -> string -> outcome string) (w : World)
      (e : Error) (s : State) :
  V1.script host_regexp w (initial w) = (Thrown e, s) ->
  V1.run host_regexp w = events s ++ [Uncaught e].
Proof. intros H. unfold V1.run. now rewrite H. Qed.

Lemma missing_NAME_throws
      (host_regexp : string -> string -> outcome string)
      (podsData : string) (namespace_arg : option string) :
  ~ In "NAME" (JS.split_spaces (hd "" (lines_of podsData))) ->
  tl (lines_of podsData) <> [] ->
  getServicesMap host_regexp podsData namespace_arg
  = Throw (TypeError
             "Cannot read properties of undefined (reading 'startsWith')").
Proof.
  intros Hno Hrows. unfold getServicesMap.
  fold (lines_of podsData). rewrite (indexOf_absent _ _ Hno).
  destruct (tl (lines_of podsData)) as [|line rows]; [congruence|].
  reflexivity.
Qed.

(** X7.  A listing whose header row has no [NAME] token and that has
    at least one more line makes the parser throw a [TypeError] at the
    first row, whatever the rows hold.  Version 0.0.2 catches it:
    the message is printed, the session is closed, and nothing is
    asked or spawned.  In version 0.0.1 nobody catches it. *)
Theorem missing_NAME_column :
  forall (host_regexp : string -> string -> outcome string) (w : World),
    let oops :=
      TypeError "Cannot read properties of undefined (reading 'startsWith')" in
    (forall podsData namespace_arg,
        ~ In "NAME" (JS.split_spaces (hd "" (lines_of podsData))) ->
        tl (lines_of podsData) <> [] ->
        getServicesMap host_regexp podsData namespace_arg = Throw oops) /\
    (forall podsData,
        let namespace0 := V2.getArgValue (argv w) "--namespace" in
        V2.execPromise_settle (executed w (V2.getPodsCommand_of namespace0))
        = Ok podsData ->
        ~ In "NAME" (JS.split_spaces (hd "" (lines_of podsData))) ->
        tl (lines_of podsData) <> [] ->
        V2.run host_regexp w
        = [Log (V2.colorText V2.c.green
                  (JS.nl +++ "> " +++ V2.getPodsCommand_of namespace0));
           Write "Loading services...";
           Exec (V2.getPodsCommand_of namespace0);
           Write (String "013"%char ("Loading services...done." +++ JS.nl));
           LogError (message oops);
           Close]) /\
    (let r := executed w "kubectl get pods --all-namespaces" in
     error r = None -> stderr r = "" ->
     ~ In "NAME" (JS.split_spaces (hd "" (lines_of (stdout r)))) ->
     tl (lines_of (stdout r)) <> [] ->
     V1.run host_regexp w = events (v1_callback_state w) ++ [Uncaught oops]).
Proof.
  intros host w oops. split; [|split].
  - intros. now apply missing_NAME_throws.
  - intros podsData namespace0 Hexec Hno Hrows.
    erewrite v2_run_thrown; cycle 1.
    + v2_enter namespace0. open_script. steps. rewrite Hexec. steps.
      rewrite (missing_NAME_throws host podsData namespace0 Hno Hrows).
      steps. reflexivity.
    + reflexivity.
  - intros r He Hs Hno Hrows.
    erewrite v1_run_thrown; cycle 1.
    + v1_enter r He Hs.
      rewrite (missing_NAME_throws host (stdout r) None Hno Hrows).
      steps. reflexivity.
    + reflexivity.
Qed.

Lemma missing_NAME_column_witness :
  V2.run no_engine (world_listing listing_no_headers ["1"])
  = [Log (V2.colorText V2.c.green
            (JS.nl +++ "> kubectl get pods --all-namespaces"));
     Write "Loading services...";
     Exec "kubectl get pods --all-namespaces";
     Write (String "013"%char ("Loading services...done." +++ JS.nl));
     LogError "Cannot read properties of undefined (reading 'startsWith')";
     Close].
Proof.
  apply (proj1 (proj2 (missing_NAME_column
                         no_engine (world_listing listing_no_headers ["1"])))
               listing_no_headers).
  - reflexivity.
  - simpl. intros [H|[H|[H|[]]]]; discriminate.
  - discriminate.
Defined.

Lemma entry_of_Some (m : ServicesMap) (s : string) (e : Env) (d : ServiceDetails) :
  entry_of m s e = Some d <->
  exists o, Map_get m s = Some o /\ get_env o e = Some d.
Proof.
  unfold entry_of. destruct (Map_get m s) as [o|].
  - split; [now exists o | now intros (o' & E & H); inversion E; subst].
  - split; [discriminate | now intros (o' & E & _)].
Qed.

(** X8.  A listing whose header row has no [NAMESPACE] token, parsed
    without a namespace argument, gives entries without a namespace:
    nothing is removed from the names beyond the environment prefix,
    and the commands built from such an entry name the namespace
    [undefined]. *)
Theorem missing_NAMESPACE_column :
  forall (host_regexp : string -> string -> outcome string)
         (podsData : string) (m : ServicesMap) (s : string) (e : Env)
         (d : ServiceDetails) (localPort servicePort : string),
    ~ In "NAMESPACE" (JS.split_spaces (hd "" (lines_of podsData))) ->
    getServicesMap host_regexp podsData None = Ok m ->
    entry_of m s e = Some d ->
    namespace d = None /\
    (exists line nameColumn,
        In line (tl (lines_of podsData)) /\
        JS.at_index (JS.split_spaces line) (nameIndex_of podsData)
        = Some nameColumn /\
        nameColumn = env_name e +++ "-" +++ s +++ "-" +++ id d) /\
    V2.portForwardCommand_of (namespace d) e s (id d) localPort servicePort
    = "kubectl port-forward --namespace undefined " +++
      env_name e +++ "-undefined-" +++ s +++ "-" +++ id d +++ " " +++
      localPort +++ ":" +++ servicePort.
Proof.
  intros host podsData m s e d L D Hno H Hentry.
  apply entry_of_Some in Hentry. destruct Hentry as (o & Hs & He).
  destruct (parsed_entry_qualifies host None _ _ _ _ _ _ H Hs He)
    as (line & Hin & nameColumn & mn & Hn & Hp & Hm & Hlen & Es & Ed).
  unfold namespaceIndex_of in *. rewrite (indexOf_absent _ _ Hno) in *.
  simpl in Hm, Ed.
  assert (Hns : namespace d = None) by now rewrite Ed.
  split; [exact Hns|]. split.
  - exists line, nameColumn. split; [exact Hin|]. split; [exact Hn|].
    unfold modified_name in Hm. inversion Hm as [Hmn]; clear Hm.
    rewrite (strip_env_decompose nameColumn e (startsWith_env_of _ _ Hp)) at 1.
    f_equal. f_equal.
    destruct (name_parts_recompose mn Hlen) as [Hjoin _].
    rewrite Es, Ed. simpl id. rewrite Hjoin. now symmetry.
  - rewrite Hns. unfold V2.portForwardCommand_of. simpl.
    now repeat rewrite append_assoc.
Qed.

Lemma missing_NAMESPACE_column_witness :
  namespace {| id := "ab12-xy34"; namespace := None |} = None /\
  V2.portForwardCommand_of None Dev "team-alpha-checkout" "ab12-xy34"
                           "3000" "8080"
  = "kubectl port-forward --namespace undefined dev-undefined-team-alpha-checkout-ab12-xy34 3000:8080".
Proof.
  destruct (missing_NAMESPACE_column
              no_engine listing_one_namespace
              [("team-alpha-checkout",
                {| dev := Some {| id := "ab12-xy34"; namespace := None |};
                   qa := None; stg := None |})]
              "team-alpha-checkout" Dev
              {| id := "ab12-xy34"; namespace := None |} "3000" "8080")
    as (Hns & _ & Hcmd).
  - simpl. intros [H|[H|[H|[]]]]; discriminate.
  - reflexivity.
  - reflexivity.
  - split; [exact Hns | exact Hcmd].
Defined.

(** ** Commands that fail ([main], its [catch]) *)

Lemma v2_run_thrown_spinning
      (host_regexp : string -> string -> outcome string) (w : World)
      (e : Error) (i : list string) (msg : string) (ev : list event) :
  V2.main_try host_regexp w (V2.getArgValue (argv w) "--namespace")
              (V2.getPodsCommand_of (V2.getArgValue (argv w) "--namespace"))
              (v2_try_state w)
  = (Thrown e, {| input := i; spinning := Some msg; events := ev |}) ->
  V2.run host_regexp w
  = ev ++ [Write (String "013"%char (msg +++ "...done." +++ JS.nl));
           LogError (message e); Close].
Proof.
  intros H. unfold V2.run, V2.script.
  assert (Hmain : V2.main host_regexp w (initial w)
                  = (Normal None,
                     {| input := i; spinning := None;
                        events :=
                          ((ev ++ [Write (String "013"%char
                                            (msg +++ "...done." +++ JS.nl))]) ++
                           [LogError (message e)]) ++ [Close] |})).
  { rewrite v2_main_eq. unfold try_catch. rewrite H.
    open_script. now steps. }
  unfold bind. rewrite Hmain. cbv beta iota delta [ret snd events].
  now repeat rewrite <- app_assoc.
Qed.

Lemma snoc_cons {A : Type} (l r : list A) (a : A) :
  (l ++ [a]) ++ r = l ++ a :: r.
Proof. now rewrite <- app_assoc. Qed.

(** X9.  A [kubectl] command that fails ends the session of version
    0.0.2 through the [catch] of [main]: be it the listing or, after
    all selections, the detection of the port, the spinner is stopped,
    the message of the error is printed, the session is closed, and no
    child process is spawned.  In version 0.0.1 a failing listing
    prints the error or the text on standard error and nothing else
    happens. *)
Theorem failed_command_ends_session :
  forall (host_regexp : string -> string -> outcome string) (w : World),
    (forall e,
        let namespace0 := V2.getArgValue (argv w) "--namespace" in
        V2.execPromise_settle (executed w (V2.getPodsCommand_of namespace0))
        = Throw e ->
        V2.run host_regexp w
        = [Log (V2.colorText V2.c.green
                  (JS.nl +++ "> " +++ V2.getPodsCommand_of namespace0));
           Write "Loading services...";
           Exec (V2.getPodsCommand_of namespace0);
           Write (String "013"%char ("Loading services...done." +++ JS.nl));
           LogError (message e);
           Close]) /\
    (forall podsData servicesMap serviceAnswer envAnswer localPortAnswer rest n
            selectedService environment o serviceDetails e,
        let namespace0 := V2.getArgValue (argv w) "--namespace" in
        let servicesList := JS.sort (Map_keys servicesMap) in
        let getServicePortCommand :=
          V2.getServicePortCommand_of (namespace serviceDetails) environment
                                      selectedService in
        V2.execPromise_settle (executed w (V2.getPodsCommand_of namespace0))
        = Ok podsData ->
        getServicesMap host_regexp podsData namespace0 = Ok servicesMap ->
        typed w = serviceAnswer :: envAnswer :: localPortAnswer :: rest ->
        JS.parseInt (JS.trim serviceAnswer) = Some n ->
        JS.at_index servicesList (n - 1) = Some selectedService ->
        V2.environment_of_choice (V2.envChoice_of (JS.trim envAnswer))
        = Some environment ->
        Map_get servicesMap selectedService = Some o ->
        get_env o environment = Some serviceDetails ->
        V2.execPromise_settle (executed w getServicePortCommand) = Throw e ->
        exists before,
          V2.run host_regexp w
          = before ++
            [Exec getServicePortCommand;
             Write (String "013"%char
                      ("Detecting port on the Kubernetes service...done." +++
                       JS.nl));
             LogError (message e);
             Close] /\
          existsb is_spawn (V2.run host_regexp w) = false) /\
    (let r := executed w "kubectl get pods --all-namespaces" in
     (forall e,
         error r = Some e ->
         V1.run host_regexp w
         = events (v1_callback_state w) ++
           [LogError (V1.colors.fgRed +++ "Error executing kubectl: " +++
                      message e +++ V1.colors.reset)]) /\
     (error r = None -> stderr r <> "" ->
      V1.run host_regexp w
      = events (v1_callback_state w) ++
        [LogError (V1.colors.fgRed +++ "stderr: " +++ stderr r +++
                   V1.colors.reset)])).
Proof.
  intros host w. split; [|split].
  - intros e namespace0 Hexec.
    erewrite v2_run_thrown_spinning; cycle 1.
    + v2_enter namespace0. open_script. steps. rewrite Hexec. steps.
      reflexivity.
    + reflexivity.
  - intros podsData servicesMap a1 a2 a3 rest n S E o d e
           namespace0 servicesList cmd
           Hexec Hparse Htyped Hnum Hat Henv Hobj Hdet Hport.
    pose proof (v2_namespace_resolved _ _ _ _ _ _ _ _ Hparse Hobj Hdet) as Hns.
    eexists.
    erewrite v2_run_thrown_spinning; cycle 1.
    + v2_to_environment namespace0 servicesList Hexec Hparse Htyped Hnum Hat.
      rewrite Henv. steps. rewrite Hobj. steps. rewrite Hdet. steps.
      rewrite Hns. fold cmd. rewrite Hport. steps. reflexivity.
    + split.
      * apply snoc_cons.
      * no_spawn.
  - intros r. split.
    + intros e He. erewrite v1_run_returned; cycle 1.
      * rewrite v1_script_eq. fold r. unfold V1.callback. rewrite He.
        unfold console_error. steps. reflexivity.
      * discriminate.
      * reflexivity.
    + intros He Hs. erewrite v1_run_returned; cycle 1.
      * rewrite v1_script_eq. fold r. unfold V1.callback. rewrite He.
        apply String.eqb_neq in Hs. rewrite Hs. simpl negb. reduce.
        unfold console_error. steps. reflexivity.
      * discriminate.
      * reflexivity.
Qed.

Lemma failed_command_ends_session_witness :
  V2.run no_engine world_unreachable
  = [Log (V2.colorText V2.c.green
            (JS.nl +++ "> kubectl get pods --namespace team-alpha"));
     Write "Loading services...";
     Exec "kubectl get pods --namespace team-alpha";
     Write (String "013"%char ("Loading services...done." +++ JS.nl));
     LogError "error: the server is unreachable";
     Close] /\
  (exists before,
      V2.run no_engine (world_no_service ["2"; "1"; ""])
      = before ++
        [Exec "kubectl get service --namespace team-alpha dev-team-alpha-checkout -o jsonpath={.spec.ports[*].port}";
         Write (String "013"%char
                  ("Detecting port on the Kubernetes service...done." +++ JS.nl));
         LogError "Error from server (NotFound)";
         Close] /\
      existsb is_spawn (V2.run no_engine (world_no_service ["2"; "1"; ""]))
      = false).
Proof.
  split.
  - apply (proj1 (failed_command_ends_session no_engine world_unreachable)
                 (ChildError "error: the server is unreachable")).
    reflexivity.
  - apply (proj1 (proj2 (failed_command_ends_session
                           no_engine (world_no_service ["2"; "1"; ""])))
                 listing1 map1 "2" "1" "" [] 2 "checkout" Dev checkout_object
                 {| id := "ab12-xy34"; namespace := Some "team-alpha" |}
                 (ChildError "Error from server (NotFound)"));
      reflexivity.
Defined.

(** ** The logs ([handleLogsProcess] and the handler of standard output) *)

Lemma handleLogsProcess_run :
  forall (logsCommand : string) (sp : option string) (ev : list event),
    (forall line rest,
        V2.handleLogsProcess logsCommand
          {| input := line :: rest; spinning := sp; events := ev |}
        = (Normal tt,
           if wants_logs line then
             {| input := rest;
                spinning := Some (match sp with
                                  | Some running => running
                                  | None => "Fetching logs for the pod"
                                  end);
                events :=
                  ev ++ logs_question
                  :: Log (V2.colorText V2.c.green (JS.nl +++ "> " +++ logsCommand))
                  :: match sp with
                     | Some _ => []
                     | None => [Write "Fetching logs for the pod..."]
                     end ++
                  [Spawn "kubectl" (JS.slice_from1 (JS.split " " logsCommand));
                   Close] |}
           else
             {| input := rest; spinning := sp;
                events :=
                  ev ++ [logs_question;
                         Log (V2.colorText V2.c.cyan "Skipping logs.");
                         Close] |})) /\
    V2.handleLogsProcess logsCommand
      {| input := []; spinning := sp; events := ev |}
    = (Waiting, {| input := []; spinning := sp; events := ev ++ [logs_question] |}).
Proof.
  intros logsCommand sp ev. split.
  - intros line rest. unfold V2.handleLogsProcess, wants_logs. open_script.
    steps.
    destruct (String.eqb (JS.or_default (toLowerCase (JS.trim line)) "y") "y"
              || String.eqb (JS.or_default (toLowerCase (JS.trim line)) "y") "yes").
    + steps. destruct sp as [running|].
      * rewrite bind_spinner_start_running. steps.
        unfold emit, push. cbv beta iota delta [input spinning events].
        repeat rewrite <- app_assoc. reflexivity.
      * rewrite bind_spinner_start. steps.
        unfold emit, push. cbv beta iota delta [input spinning events].
        repeat rewrite <- app_assoc. reflexivity.
    + steps. unfold emit, push. cbv beta iota delta [input spinning events].
      repeat rewrite <- app_assoc. reflexivity.
  - unfold V2.handleLogsProcess. open_script. now steps.
Qed.

(** The letters that [toLowerCase] takes to [y], [e] and [s]. *)
Lemma lower_y (ch : ascii) :
  Ascii.eqb (lower ch) "y" = Ascii.eqb ch "y" || Ascii.eqb ch "Y".
Proof. destruct ch as [[] [] [] [] [] [] [] []]; reflexivity. Qed.

Lemma lower_e (ch : ascii) :
  Ascii.eqb (lower ch) "e" = Ascii.eqb ch "e" || Ascii.eqb ch "E".
Proof. destruct ch as [[] [] [] [] [] [] [] []]; reflexivity. Qed.

Lemma lower_s (ch : ascii) :
  Ascii.eqb (lower ch) "s" = Ascii.eqb ch "s" || Ascii.eqb ch "S".
Proof. destruct ch as [[] [] [] [] [] [] [] []]; reflexivity. Qed.

Ltac ascii_tests :=
  repeat match goal with
         | |- context [Ascii.eqb ?x ?y] => destruct (Ascii.eqb x y)
         end.

(** The answers taken for a yes, one by one. *)
Lemma wants_logs_answers (line : string) :
  wants_logs line
  = existsb (String.eqb (JS.trim line))
            [""; "y"; "Y";
             "yes"; "yeS"; "yEs"; "yES"; "Yes"; "YeS"; "YEs"; "YES"].
Proof.
  unfold wants_logs, JS.or_default.
  destruct (JS.trim line) as [|a [|b [|c [|d t]]]]; [reflexivity|..];
    cbn [toLowerCase String.eqb existsb];
    rewrite ?lower_y, ?lower_e, ?lower_s;
    ascii_tests; reflexivity.
Qed.

(** X10.  [handleLogsProcess] asks once and reads one line.  The logs
    are followed exactly when the line, without the white space around
    it, is empty or one of [y], [Y], [yes], [yeS], [yEs], [yES], [Yes],
    [YeS], [YEs], [YES]: it then prints the command, starts the spinner
    and spawns [kubectl] with the words of the logs command.  Every
    other answer ([n], [no], [yep], [ye s], ...) makes it print
    "Skipping logs." and spawn nothing.  Either way the session is
    closed last.  When no line is typed, it waits: nothing is spawned
    and the session stays open. *)
Theorem logs_question_answered :
  forall (logsCommand : string) (sp : option string) (ev : list event),
    (forall line rest,
        V2.handleLogsProcess logsCommand
          {| input := line :: rest; spinning := sp; events := ev |}
        = (Normal tt,
           if existsb (String.eqb (JS.trim line))
                      [""; "y"; "Y";
                       "yes"; "yeS"; "yEs"; "yES"; "Yes"; "YeS"; "YEs"; "YES"]
           then
             {| input := rest;
                spinning := Some (match sp with
                                  | Some running => running
                                  | None => "Fetching logs for the pod"
                                  end);
                events :=
                  ev ++
                  Question
                    (V2.colorText V2.c.yellow
                       (JS.nl +++
                        "Would you like to see the logs in real time? (Y/n): "))
                  :: Log (V2.colorText V2.c.green (JS.nl +++ "> " +++ logsCommand))
                  :: match sp with
                     | Some _ => []
                     | None => [Write "Fetching logs for the pod..."]
                     end ++
                  [Spawn "kubectl" (JS.slice_from1 (JS.split " " logsCommand));
                   Close] |}
           else
             {| input := rest; spinning := sp;
                events :=
                  ev ++ [Question
                           (V2.colorText V2.c.yellow
                              (JS.nl +++
                               "Would you like to see the logs in real time? (Y/n): "));
                         Log (V2.colorText V2.c.cyan "Skipping logs.");
                         Close] |})) /\
    V2.handleLogsProcess logsCommand
      {| input := []; spinning := sp; events := ev |}
    = (Waiting,
       {| input := []; spinning := sp;
          events :=
            ev ++ [Question
                     (V2.colorText V2.c.yellow
                        (JS.nl +++
                         "Would you like to see the logs in real time? (Y/n): "))] |}).
Proof.
  intros logsCommand sp ev.
  destruct (handleLogsProcess_run logsCommand sp ev) as [Hline Hnone].
  split; [|exact Hnone].
  intros line rest. rewrite Hline, wants_logs_answers. reflexivity.
Qed.

Example logs_answers :
  wants_logs "" = true /\ wants_logs " Yes " = true /\ wants_logs "Y" = true /\
  wants_logs "n" = false /\ wants_logs "yep" = false.
Proof. repeat split. Qed.

Lemma on_stdout_later (localPort logsCommand : string) (chunks : list string) :
  forall i sp ev,
    V2.on_stdout localPort logsCommand false chunks
                 {| input := i; spinning := sp; events := ev |}
    = (Normal tt,
       {| input := i; spinning := sp;
          events := ev ++ flat_map (chunk_lines localPort) chunks |}).
Proof.
  induction chunks as [|data rest IH]; intros i sp ev.
  - simpl. unfold ret. now rewrite app_nil_r.
  - simpl V2.on_stdout. open_script. steps. rewrite IH.
    simpl flat_map. now repeat rewrite <- app_assoc.
Qed.

Lemma on_stdout_first (localPort logsCommand data : string)
      (rest : list string) (i : list string) (sp : option string)
      (ev : list event) :
  let stopped :=
    match sp with
    | Some running =>
        [Write (String "013"%char (running +++ "...done." +++ JS.nl))]
    | None => []
    end in
  let asked :=
    snd (V2.handleLogsProcess logsCommand
           {| input := i; spinning := None;
              events := (ev ++ stopped) ++ chunk_lines localPort data |}) in
  V2.on_stdout localPort logsCommand true (data :: rest)
               {| input := i; spinning := sp; events := ev |}
  = (Normal tt,
     {| input := input asked; spinning := spinning asked;
        events := events asked ++ flat_map (chunk_lines localPort) rest |}).
Proof.
  intros stopped asked. simpl V2.on_stdout. open_script.
  destruct sp as [running|].
  - rewrite bind_spinner_stop. steps. rewrite bind_detach.
    fold (chunk_lines localPort data).
    match goal with
    | |- context [V2.handleLogsProcess logsCommand ?s0] =>
        replace s0
          with {| input := i; spinning := None;
                  events := (ev ++ stopped) ++ chunk_lines localPort data |}
          by (unfold stopped, chunk_lines; now repeat rewrite <- app_assoc)
    end.
    fold asked. destruct asked as [i' sp' ev']. now rewrite on_stdout_later.
  - rewrite bind_spinner_stop_idle. steps. rewrite bind_detach.
    match goal with
    | |- context [V2.handleLogsProcess logsCommand ?s0] =>
        replace s0
          with {| input := i; spinning := None;
                  events := (ev ++ stopped) ++ chunk_lines localPort data |}
          by (unfold stopped, chunk_lines; rewrite app_nil_r;
              now repeat rewrite <- app_assoc)
    end.
    fold asked. destruct asked as [i' sp' ev']. now rewrite on_stdout_later.
Qed.

Lemma chunk_lines_filters (localPort : string) (chunks : list string) :
  filter is_question (flat_map (chunk_lines localPort) chunks) = [] /\
  filter is_spawn (flat_map (chunk_lines localPort) chunks) = [].
Proof. induction chunks as [|c chunks [IH1 IH2]]; simpl; auto. Qed.

Lemma handleLogsProcess_filters (logsCommand : string) (i : list string)
      (sp : option string) (ev : list event) :
  let asked :=
    snd (V2.handleLogsProcess logsCommand
           {| input := i; spinning := sp; events := ev |}) in
  filter is_question (events asked) = filter is_question ev ++ [logs_question] /\
  (filter is_spawn (events asked) = filter is_spawn ev \/
   filter is_spawn (events asked)
   = filter is_spawn ev ++
     [Spawn "kubectl" (JS.slice_from1 (JS.split " " logsCommand))]).
Proof.
  intros asked. unfold asked.
  destruct (handleLogsProcess_run logsCommand sp ev) as [Hline Hnone].
  destruct i as [|line rest].
  - rewrite Hnone. cbv beta iota delta [snd events].
    rewrite !filter_app. simpl. rewrite app_nil_r. auto.
  - rewrite Hline. cbv beta iota delta [snd].
    destruct (wants_logs line); cbv beta iota delta [events].
    + destruct sp; rewrite !filter_app; simpl; auto.
    + rewrite !filter_app. simpl. rewrite app_nil_r. auto.
Qed.

(** X11.  The question about the logs is a one-shot.  The handler of
    port-forward's standard output prints two lines per chunk; on the
    first chunk it also stops the spinner and lets [handleLogsProcess]
    ask, and on the chunks after the first it does nothing else: it
    asks nothing, spawns nothing and reads no line. *)
Theorem logs_asked_once :
  forall (localPort logsCommand : string) (i : list string)
         (sp : option string) (ev : list event),
    (forall chunks,
        V2.on_stdout localPort logsCommand false chunks
                     {| input := i; spinning := sp; events := ev |}
        = (Normal tt,
           {| input := i; spinning := sp;
              events := ev ++ flat_map (chunk_lines localPort) chunks |})) /\
    (forall data rest,
        filter is_question
               (events (snd (V2.on_stdout localPort logsCommand true
                                          (data :: rest)
                                          {| input := i; spinning := sp;
                                             events := ev |})))
        = filter is_question ev ++ [logs_question]) /\
    V2.on_stdout localPort logsCommand true []
                 {| input := i; spinning := sp; events := ev |}
    = (Normal tt, {| input := i; spinning := sp; events := ev |}).
Proof.
  intros localPort logsCommand i sp ev. split; [|split].
  - intros chunks. apply on_stdout_later.
  - intros data rest. rewrite on_stdout_first.
    cbv beta iota zeta delta [snd events].
    rewrite filter_app.
    rewrite (proj1 (chunk_lines_filters localPort rest)), app_nil_r.
    match goal with
    | |- context [V2.handleLogsProcess logsCommand
                    {| input := ?i0; spinning := ?sp0; events := ?ev0 |}] =>
        destruct (handleLogsProcess_filters logsCommand i0 sp0 ev0) as [Hq _]
    end.
    cbv zeta in Hq.
    match goal with
    | |- ?l = _ => match type of Hq with ?l' = _ => change l with l' end
    end.
    rewrite Hq. rewrite !filter_app.
    destruct sp; simpl; now rewrite ?app_nil_r.
  - reflexivity.
Qed.

(** ** Children in every run ([main], [handleLogsProcess]) *)

Lemma split_logs_head (rest : string) :
  JS.split " " ("kubectl logs --namespace " +++ rest)
  = "kubectl" :: "logs" :: "--namespace" :: JS.split " " rest.
Proof. reflexivity. Qed.

(** One case split at the head of a run. *)
Ltac branch :=
  match goal with
  | |- context [bind (match match ?y with Some _ => _ | None => _ end
                      with Some _ => _ | None => _ end) _ _] =>
      destruct y
  | |- context [bind (lift ?r) _ _] => destruct r
  | |- context [bind (if ?b then _ else _) _ _] => destruct b
  | |- context [bind (match ?x with Some _ => _ | None => _ end) _ _] =>
      destruct x
  | |- context [bind (question _) _
                     {| input := ?i; spinning := _; events := _ |}] =>
      destruct i
  end.

Ltac no_child :=
  cbv beta iota delta [v2_try_ending events]; no_spawn.

Ltac explore := repeat (steps; first [ solve [no_child] | branch; reduce ]).

Lemma v2_try_endings
      (host_regexp : string -> string -> outcome string) (w : World) :
  v2_try_ending
    (V2.main_try host_regexp w (V2.getArgValue (argv w) "--namespace")
                 (V2.getPodsCommand_of (V2.getArgValue (argv w) "--namespace"))
                 (v2_try_state w)).
Proof.
  unfold V2.main_try, v2_try_state. open_script. unfold option_map.
  explore.
  all: steps; cbv beta iota delta [v2_try_ending events].
  all: eexists; eexists; split; [reflexivity|].
  all: split; [no_spawn|].
  all: unfold V2.portForwardCommand_of, V2.logsCommand_of.
  all: rewrite split_command_head, split_logs_head; split; reflexivity.
Qed.

Lemma existsb_false_filter {A : Type} (f : A -> bool) (l : list A) :
  existsb f l = false -> filter f l = [].
Proof.
  induction l as [|x l IH]; simpl; [reflexivity|].
  destruct (f x); simpl; [discriminate | exact IH].
Qed.

Lemma v2_run_waiting
      (host_regexp : string -> string -> outcome string) (w : World) (s : State) :
  V2.main_try host_regexp w (V2.getArgValue (argv w) "--namespace")
              (V2.getPodsCommand_of (V2.getArgValue (argv w) "--namespace"))
              (v2_try_state w)
  = (Waiting, s) ->
  V2.run host_regexp w = events s.
Proof.
  intros H. unfold V2.run, V2.script, bind.
  rewrite v2_main_eq. unfold try_catch. now rewrite H.
Qed.

(** X12.  In every run of version 0.0.2, whatever the cluster answers
    and whatever is typed, the children spawned are none, or
    [kubectl port-forward ...] alone, or [kubectl port-forward ...]
    followed by [kubectl logs ...]: never more than one of each, and
    never the logs without the forwarding. *)
Theorem children_of_every_run :
  forall (host_regexp : string -> string -> outcome string) (w : World),
    filter is_spawn (V2.run host_regexp w) = [] \/
    exists forward,
      hd_error forward = Some "port-forward" /\
      (filter is_spawn (V2.run host_regexp w) = [Spawn "kubectl" forward] \/
       exists logs,
         hd_error logs = Some "logs" /\
         filter is_spawn (V2.run host_regexp w)
         = [Spawn "kubectl" forward; Spawn "kubectl" logs]).
Proof.
  intros host w. pose proof (v2_try_endings host w) as H.
  destruct (V2.main_try host w (V2.getArgValue (argv w) "--namespace")
              (V2.getPodsCommand_of (V2.getArgValue (argv w) "--namespace"))
              (v2_try_state w)) as [c s] eqn:E.
  destruct c as [[[localPort logsCommand]|]|e| |]; simpl in H.
  - right. destruct H as (before & forward & Hev & Hbefore & Hf & Hl).
    exists forward. split; [exact Hf|].
    apply existsb_false_filter in Hbefore.
    unfold V2.run, V2.script, bind. rewrite (v2_main_normal _ _ _ _ E).
    destruct s as [i sp ev]. simpl in Hev. subst ev.
    destruct (forwarded w) as [|data rest].
    + left. simpl. rewrite filter_app, Hbefore. reflexivity.
    + rewrite on_stdout_first. cbv beta iota zeta delta [snd events].
      rewrite filter_app, (proj2 (chunk_lines_filters localPort rest)), app_nil_r.
      match goal with
      | |- context [V2.handleLogsProcess logsCommand
                      {| input := ?i0; spinning := ?sp0; events := ?ev0 |}] =>
          destruct (handleLogsProcess_filters logsCommand i0 sp0 ev0)
            as [_ Hs]
      end.
      cbv zeta in Hs.
      assert (Hprefix :
                filter is_spawn
                       (((before ++ [Spawn "kubectl" forward]) ++
                         match sp with
                         | Some running =>
                             [Write (String "013"%char
                                       (running +++ "...done." +++ JS.nl))]
                         | None => []
                         end) ++ chunk_lines localPort data)
                = [Spawn "kubectl" forward]).
      { rewrite !filter_app, Hbefore. now destruct sp. }
      rewrite Hprefix in Hs. destruct Hs as [Hs|Hs].
      * left. exact Hs.
      * right. eexists. split; [exact Hl | exact Hs].
  - contradiction.
  - left. apply existsb_false_filter in H. destruct s as [i [msg|] ev].
    + rewrite (v2_run_thrown_spinning _ _ _ _ _ _ E).
      rewrite filter_app. simpl in H. rewrite H. reflexivity.
    + rewrite (v2_run_thrown _ _ _ _ _ E).
      rewrite filter_app. simpl in H. rewrite H. reflexivity.
  - left. rewrite (v2_run_returned _ _ _ E). now apply existsb_false_filter.
  - left. rewrite (v2_run_waiting _ _ _ E). now apply existsb_false_filter.
Qed.

(** ** The session in every run *)

Lemma v2_service_lines_no_close (services : list string) :
  forall index, existsb is_close (v2_service_lines services index) = false.
Proof. induction services; intros; simpl; auto. Qed.

Ltac no_close :=
  repeat rewrite existsb_app;
  repeat rewrite v2_service_lines_no_close;
  reflexivity.

Ltac session_over :=
  cbv beta iota delta [v2_try_session events ret];
  first [ no_close
        | eexists; split; [reflexivity | no_close] ].

Ltac explore_session :=
  repeat (steps; first [ solve [session_over] | branch; reduce ]).

Lemma v2_try_sessions
      (host_regexp : string -> string -> outcome string) (w : World) :
  v2_try_session
    (V2.main_try host_regexp w (V2.getArgValue (argv w) "--namespace")
                 (V2.getPodsCommand_of (V2.getArgValue (argv w) "--namespace"))
                 (v2_try_state w)).
Proof.
  unfold V2.main_try, v2_try_state. open_script. unfold option_map.
  explore_session.
  all: steps; session_over.
Qed.

Lemma logs_no_close (l : list event) :
  forallb is_log l = true -> existsb is_close l = false.
Proof.
  induction l as [|x l IH]; simpl; [reflexivity|].
  intros H. apply andb_true_iff in H. destruct H as [Hx Hl].
  rewrite (IH Hl). now destruct x.
Qed.

Lemma chunk_lines_logs (localPort : string) (chunks : list string) :
  forallb is_log (flat_map (chunk_lines localPort) chunks) = true.
Proof. induction chunks as [|c chunks IH]; simpl; auto. Qed.

(** What [handleLogsProcess] leaves of a session that was open. *)
Lemma handleLogsProcess_session (logsCommand : string) (i : list string)
      (sp : option string) (ev : list event) :
  let asked :=
    snd (V2.handleLogsProcess logsCommand
           {| input := i; spinning := sp; events := ev |}) in
  existsb is_close ev = false ->
  existsb is_close (events asked) = false \/
  exists a, events asked = a ++ [Close] /\ existsb is_close a = false.
Proof.
  intros asked Hev. unfold asked.
  destruct (handleLogsProcess_run logsCommand sp ev) as [Hline Hnone].
  destruct i as [|line rest].
  - left. rewrite Hnone. cbv beta iota delta [snd events].
    rewrite existsb_app, Hev. reflexivity.
  - right. rewrite Hline. cbv beta iota delta [snd].
    destruct (wants_logs line); cbv beta iota delta [events].
    + destruct sp.
      * exists (ev ++ [logs_question;
                       Log (V2.colorText V2.c.green
                              (JS.nl +++ "> " +++ logsCommand));
                       Spawn "kubectl"
                             (JS.slice_from1 (JS.split " " logsCommand))]).
        split; [now rewrite <- app_assoc|].
        rewrite existsb_app, Hev. reflexivity.
      * exists (ev ++ [logs_question;
                       Log (V2.colorText V2.c.green
                              (JS.nl +++ "> " +++ logsCommand));
                       Write "Fetching logs for the pod...";
                       Spawn "kubectl"
                             (JS.slice_from1 (JS.split " " logsCommand))]).
        split; [now rewrite <- app_assoc|].
        rewrite existsb_app, Hev. reflexivity.
    + exists (ev ++ [logs_question;
                     Log (V2.colorText V2.c.cyan "Skipping logs.")]).
      split; [now rewrite <- app_assoc|].
      rewrite existsb_app, Hev. reflexivity.
Qed.

(** Every run of version 0.0.2 leaves the session open, or closes it at
    one place, after which there are only lines printed. *)
Lemma v2_run_session
      (host_regexp : string -> string -> outcome string) (w : World) :
  existsb is_close (V2.run host_regexp w) = false \/
  exists a r,
    V2.run host_regexp w = a ++ Close :: r /\
    existsb is_close a = false /\ forallb is_log r = true.
Proof.
  pose proof (v2_try_sessions host_regexp w) as H.
  destruct (V2.main_try host_regexp w (V2.getArgValue (argv w) "--namespace")
              (V2.getPodsCommand_of (V2.getArgValue (argv w) "--namespace"))
              (v2_try_state w)) as [c s] eqn:E.
  destruct c as [handlers|e| |]; simpl in H.
  - unfold V2.run, V2.script, bind. rewrite (v2_main_normal _ _ _ _ E).
    destruct handlers as [[localPort logsCommand]|].
    + destruct s as [i sp ev]. simpl in H.
      destruct (forwarded w) as [|data rest].
      * left. exact H.
      * rewrite on_stdout_first. cbv beta iota zeta delta [snd events].
        match goal with
        | |- context [V2.handleLogsProcess logsCommand
                        {| input := ?i0; spinning := ?sp0; events := ?ev0 |}] =>
            destruct (handleLogsProcess_session logsCommand i0 sp0 ev0)
              as [Hs|(a & Hs & Ha)]
        end.
        { rewrite !existsb_app, H. now destruct sp. }
        all: cbv beta iota zeta delta [snd events] in Hs.
        { left. rewrite existsb_app, Hs.
          apply logs_no_close, chunk_lines_logs. }
        { right. exists a, (flat_map (chunk_lines localPort) rest).
          rewrite Hs. split; [apply snoc_cons|].
          split; [exact Ha | apply chunk_lines_logs]. }
    + left. exact H.
  - right. destruct s as [i [msg|] ev]; simpl in H.
    + rewrite (v2_run_thrown_spinning _ _ _ _ _ _ E).
      exists (ev ++ [Write (String "013"%char (msg +++ "...done." +++ JS.nl));
                     LogError (message e)]), [].
      split; [now rewrite <- app_assoc|].
      split; [|reflexivity]. rewrite existsb_app, H. reflexivity.
    + rewrite (v2_run_thrown _ _ _ _ _ E).
      exists (ev ++ [LogError (message e)]), [].
      split; [now rewrite <- app_assoc|].
      split; [|reflexivity]. rewrite existsb_app, H. reflexivity.
  - right. rewrite (v2_run_returned _ _ _ E).
    destruct H as (before & Hev & Hbefore).
    exists before, []. rewrite Hev. auto.
  - left. rewrite (v2_run_waiting _ _ _ E). exact H.
Qed.

(** ** The handlers under every schedule *)

Lemma closed_well_app (a b : list event) :
  closed_well (a ++ b)
  = if existsb is_close a then closed_well a && forallb is_print b
    else closed_well b.
Proof.
  induction a as [|x a IH]; [reflexivity|].
  destruct x; simpl; try exact IH.
  now rewrite forallb_app.
Qed.

Lemma closed_well_position (l before after : list event) :
  closed_well l = true -> l = before ++ Close :: after ->
  existsb is_close before = false /\ forallb is_print after = true.
Proof.
  revert l. induction before as [|x before IH]; intros l Hl ->.
  - simpl in Hl. auto.
  - destruct x; simpl in Hl |- *;
      try exact (IH _ Hl eq_refl).
    rewrite forallb_app in Hl. simpl in Hl.
    rewrite andb_false_r in Hl. discriminate.
Qed.

Lemma logs_prints (l : list event) :
  forallb is_log l = true -> forallb is_print l = true.
Proof.
  induction l as [|x l IH]; simpl; [reflexivity|].
  intros H. apply andb_true_iff in H. destruct H as [Hx Hl].
  rewrite (IH Hl). now destruct x.
Qed.

Ltac run_handlers :=
  cbv beta iota zeta delta
      [V2.occur V2.portForward_stdout V2.portForward_stderr
       V2.portForward_close V2.handleLogsProcess_slept
       V2.handleLogsProcess_answered V2.take_line V2.logs_stdout
       V2.logs_stderr V2.logs_close V2.print console_log console_error
       rl_close spawn bind ret emit push V2.spinner_stop V2.spinner_start
       input spinning events V2.portForwardFirstTime V2.handleLogs
       V2.logsProcess V2.logsFirstTime negb].

Ltac shape_done Hw Ecl :=
  eexists; eexists; split; [reflexivity|];
  unfold session_shape;
  cbn [events V2.portForwardFirstTime V2.handleLogs];
  repeat rewrite <- app_assoc; cbn [app];
  rewrite ?closed_well_app, ?existsb_app, ?Ecl, ?Hw;
  cbn [closed_well forallb existsb is_close is_print andb orb];
  repeat split; intros; try reflexivity; try discriminate; try congruence.

(** No handler throws, and every one of them keeps the shape. *)
Lemma occur_shape (localPort logsCommand : string) (o : V2.occurrence)
      (h : V2.Handlers) (s : State) :
  session_shape h (events s) ->
  exists h' s',
    V2.occur localPort logsCommand o h s = (Normal h', s') /\
    session_shape h' (events s').
Proof.
  destruct s as [i sp ev]. destruct h as [first point lproc lfirst].
  intros (Hw & Hc & Hn). cbn [events V2.portForwardFirstTime V2.handleLogs] in *.
  destruct (existsb is_close ev) eqn:Ecl.
  - destruct (Hc eq_refl) as [-> ->]. clear Hc Hn.
    destruct o; destruct lproc, lfirst, sp as [running|]; run_handlers;
      shape_done Hw Ecl.
  - clear Hc.
    destruct o; destruct first, point, lproc, lfirst, sp as [running|];
      try (assert (Hf : true = false) by (apply Hn; discriminate);
           discriminate);
      try destruct i as [|line rest];
      run_handlers;
      try match goal with
          | |- context [if ?b then _ else _] => destruct b
          end;
      shape_done Hw Ecl.
Qed.

Lemma occur_all_shape (localPort logsCommand : string)
      (os : list V2.occurrence) :
  forall (h : V2.Handlers) (s : State),
    session_shape h (events s) ->
    exists h' s',
      V2.occur_all localPort logsCommand os h s = (Normal h', s') /\
      session_shape h' (events s').
Proof.
  induction os as [|o os IH]; intros h s H; simpl.
  - now exists h, s.
  - destruct (occur_shape localPort logsCommand o h s H) as (h1 & s1 & E1 & H1).
    unfold bind. rewrite E1. exact (IH h1 s1 H1).
Qed.

(** When [main] ends having spawned port-forward, the session is
    open. *)
Lemma v2_main_some_open
      (host_regexp : string -> string -> outcome string) (w : World)
      (handlers : string * string) (s : State) :
  V2.main host_regexp w (initial w) = (Normal (Some handlers), s) ->
  existsb is_close (events s) = false.
Proof.
  intros H. pose proof (v2_try_sessions host_regexp w) as Hs.
  rewrite v2_main_eq in H. unfold try_catch in H.
  destruct (V2.main_try host_regexp w
              (V2.getArgValue (argv w) "--namespace")
              (V2.getPodsCommand_of (V2.getArgValue (argv w) "--namespace"))
              (v2_try_state w)) as [c s0].
  destruct c as [x|e| |]; try discriminate.
  - inversion H; subst. exact Hs.
  - exfalso. destruct s0 as [i [msg|] ev]; inversion H.
Qed.

(** When it ends otherwise, nothing can occur. *)
Lemma v2_schedule_without_child
      (host_regexp : string -> string -> outcome string) (w : World)
      (os : list V2.occurrence) :
  (forall handlers s,
      V2.main host_regexp w (initial w) <> (Normal (Some handlers), s)) ->
  V2.run_schedule host_regexp w os = V2.run host_regexp w.
Proof.
  intros H. unfold V2.run_schedule, V2.run, V2.script, bind.
  destruct (V2.main host_regexp w (initial w)) as [c s].
  destruct c as [[[localPort logsCommand]|]|e| |]; try reflexivity.
  now contradiction (H (localPort, logsCommand) s).
Qed.

Lemma open_closed_well (ev : list event) :
  existsb is_close ev = false -> closed_well ev = true.
Proof.
  induction ev as [|x ev IH]; [reflexivity|].
  simpl. intros H. apply orb_false_iff in H. destruct H as [Hx Hev].
  destruct x; try discriminate; exact (IH Hev).
Qed.

Lemma v2_run_well
      (host_regexp : string -> string -> outcome string) (w : World) :
  closed_well (V2.run host_regexp w) = true.
Proof.
  destruct (v2_run_session host_regexp w) as [Hno|(a & r & -> & Ha & Hr)].
  - now apply open_closed_well.
  - rewrite closed_well_app, Ha. simpl. now apply logs_prints.
Qed.

Lemma v2_run_schedule_well
      (host_regexp : string -> string -> outcome string) (w : World)
      (os : list V2.occurrence) :
  closed_well (V2.run_schedule host_regexp w os) = true.
Proof.
  destruct (V2.main host_regexp w (initial w)) as [c s] eqn:E.
  destruct c as [[[localPort logsCommand]|]|e| |];
    try (rewrite v2_schedule_without_child
          by (intros p s0; rewrite E; discriminate);
         apply v2_run_well).
  unfold V2.run_schedule. rewrite E.
  pose proof (v2_main_some_open _ _ _ _ E) as Hopen.
  assert (H0 : session_shape V2.registered (events s)).
  { split; [now apply open_closed_well|]. split.
    - rewrite Hopen. discriminate.
    - intros Hn. now contradiction Hn. }
  destruct (occur_all_shape localPort logsCommand os _ _ H0)
    as (h' & s' & -> & Hw & _).
  exact Hw.
Qed.

(** X13.  In every run of version 0.0.2, whatever the cluster answers,
    whatever is typed, and in whatever order the chunks of the two
    children, their ends, the timer of [handleLogsProcess] and the
    answer to its question occur, the session is closed at most once,
    and once it is closed the script asks nothing, runs no command and
    spawns no child: what follows the close are prints ([console.log],
    [console.error], the spinner's "done."), those of the handlers of
    the two children.  (The ticks of the spinner, which are left out
    here, are writes to the terminal as well.) *)
Theorem closed_once_then_only_prints :
  forall (host_regexp : string -> string -> outcome string) (w : World)
         (os : list V2.occurrence) (before after : list event),
    V2.run_schedule host_regexp w os = before ++ Close :: after ->
    existsb is_close before = false /\ forallb is_print after = true.
Proof.
  intros host w os before after H.
  exact (closed_well_position _ _ _ (v2_run_schedule_well host w os) H).
Qed.

Lemma closed_once_then_only_prints_witness :
  V2.run_schedule no_engine (world1 ["2"; "1"; ""; ""; "Y"])
                  schedule_interleaved
  = firstn 34 (V2.run_schedule no_engine (world1 ["2"; "1"; ""; ""; "Y"])
                               schedule_interleaved)
    ++ Close
    :: skipn 35 (V2.run_schedule no_engine (world1 ["2"; "1"; ""; ""; "Y"])
                                 schedule_interleaved) /\
  existsb is_close
          (firstn 34 (V2.run_schedule no_engine
                                      (world1 ["2"; "1"; ""; ""; "Y"])
                                      schedule_interleaved))
  = false /\
  forallb is_print
          (skipn 35 (V2.run_schedule no_engine
                                     (world1 ["2"; "1"; ""; ""; "Y"])
                                     schedule_interleaved))
  = true /\
  forallb is_log
          (skipn 35 (V2.run_schedule no_engine
                                     (world1 ["2"; "1"; ""; ""; "Y"])
                                     schedule_interleaved))
  = false.
Proof.
  split; [vm_compute; reflexivity|].
  split; [|split; [|vm_compute; reflexivity]].
  - apply (closed_once_then_only_prints
             no_engine (world1 ["2"; "1"; ""; ""; "Y"]) schedule_interleaved
             (firstn 34 (V2.run_schedule no_engine
                                         (world1 ["2"; "1"; ""; ""; "Y"])
                                         schedule_interleaved))
             (skipn 35 (V2.run_schedule no_engine
                                        (world1 ["2"; "1"; ""; ""; "Y"])
                                        schedule_interleaved))).
    vm_compute. reflexivity.
  - apply (closed_once_then_only_prints
             no_engine (world1 ["2"; "1"; ""; ""; "Y"]) schedule_interleaved
             (firstn 34 (V2.run_schedule no_engine
                                         (world1 ["2"; "1"; ""; ""; "Y"])
                                         schedule_interleaved))
             (skipn 35 (V2.run_schedule no_engine
                                        (world1 ["2"; "1"; ""; ""; "Y"])
                                        schedule_interleaved))).
    vm_compute. reflexivity.
Defined.

(** [script] is the schedule in which the timer fires and the answer
    arrives before the second chunk, and in which nothing else occurs. *)
Lemma occur_all_later (localPort logsCommand : string) (rest : list string) :
  forall (h : V2.Handlers) (i : list string) (sp : option string)
         (ev : list event),
    V2.portForwardFirstTime h = false ->
    V2.occur_all localPort logsCommand (map V2.ForwardOut rest) h
                 {| input := i; spinning := sp; events := ev |}
    = (Normal h,
       {| input := i; spinning := sp;
          events := ev ++ flat_map (chunk_lines localPort) rest |}).
Proof.
  induction rest as [|data rest IH]; intros h i sp ev Hf.
  - simpl. unfold ret. now rewrite app_nil_r.
  - destruct h as [first point lproc lfirst]. simpl in Hf. subst first.
    simpl map. cbn [V2.occur_all]. unfold bind at 1.
    assert (E : V2.occur localPort logsCommand (V2.ForwardOut data)
                         {| V2.portForwardFirstTime := false;
                            V2.handleLogs := point; V2.logsProcess := lproc;
                            V2.logsFirstTime := lfirst |}
                         {| input := i; spinning := sp; events := ev |}
                = (Normal {| V2.portForwardFirstTime := false;
                             V2.handleLogs := point; V2.logsProcess := lproc;
                             V2.logsFirstTime := lfirst |},
                   {| input := i; spinning := sp;
                      events := ev ++ chunk_lines localPort data |})).
    { run_handlers. unfold chunk_lines. now rewrite <- app_assoc. }
    rewrite E, IH by reflexivity.
    simpl flat_map. unfold chunk_lines. now rewrite <- app_assoc.
Qed.

Lemma run_is_a_schedule
      (host_regexp : string -> string -> outcome string) (w : World) :
  V2.run host_regexp w
  = V2.run_schedule host_regexp w (V2.schedule_of (forwarded w)).
Proof.
  unfold V2.run, V2.script, V2.run_schedule, bind.
  destruct (V2.main host_regexp w (initial w)) as [c s].
  destruct c as [[[localPort logsCommand]|]|e| |]; try reflexivity.
  destruct s as [i sp ev].
  destruct (forwarded w) as [|data rest]; [reflexivity|].
  rewrite on_stdout_first. cbv zeta.
  destruct (handleLogsProcess_run
              logsCommand None
              ((ev ++ match sp with
                      | Some running =>
                          [Write (String "013"%char
                                    (running +++ "...done." +++ JS.nl))]
                      | None => []
                      end) ++ chunk_lines localPort data))
    as [Hline Hnone].
  simpl V2.schedule_of. cbn [V2.occur_all]. unfold V2.registered.
  destruct i as [|line rest'].
  - rewrite Hnone.
    destruct sp as [running|]; run_handlers;
      rewrite occur_all_later by reflexivity;
      cbv beta iota delta [snd events]; unfold chunk_lines, logs_question;
      repeat rewrite <- app_assoc; reflexivity.
  - rewrite Hline. unfold wants_logs. cbv zeta.
    destruct sp as [running|]; run_handlers;
      match goal with
      | |- context [if ?b then _ else _] => destruct b
      end;
      run_handlers;
      rewrite occur_all_later by reflexivity;
      cbv beta iota delta [snd events]; unfold chunk_lines, logs_question;
      repeat rewrite <- app_assoc; reflexivity.
Qed.

(** ** The children under every schedule *)

Lemma v2_main_some_try
      (host_regexp : string -> string -> outcome string) (w : World)
      (handlers : string * string) (s : State) :
  V2.main host_regexp w (initial w) = (Normal (Some handlers), s) ->
  V2.main_try host_regexp w (V2.getArgValue (argv w) "--namespace")
              (V2.getPodsCommand_of (V2.getArgValue (argv w) "--namespace"))
              (v2_try_state w)
  = (Normal (Some handlers), s).
Proof.
  intros H. rewrite v2_main_eq in H. unfold try_catch in H.
  destruct (V2.main_try host_regexp w
              (V2.getArgValue (argv w) "--namespace")
              (V2.getPodsCommand_of (V2.getArgValue (argv w) "--namespace"))
              (v2_try_state w)) as [c s0].
  destruct c as [x|e| |]; try discriminate; [exact H|].
  exfalso. destruct s0 as [i [msg|] ev]; inversion H.
Qed.

Lemma v2_run_without_child
      (host_regexp : string -> string -> outcome string) (w : World) :
  (forall handlers s,
      V2.main host_regexp w (initial w) <> (Normal (Some handlers), s)) ->
  filter is_spawn (V2.run host_regexp w) = [].
Proof.
  intros Hmain. pose proof (v2_try_endings host_regexp w) as H.
  destruct (V2.main_try host_regexp w
              (V2.getArgValue (argv w) "--namespace")
              (V2.getPodsCommand_of (V2.getArgValue (argv w) "--namespace"))
              (v2_try_state w)) as [c s] eqn:E.
  destruct c as [[handlers|]|e| |]; simpl in H.
  - now contradiction (Hmain handlers s (v2_main_normal _ _ _ _ E)).
  - contradiction.
  - apply existsb_false_filter in H. destruct s as [i [msg|] ev].
    + rewrite (v2_run_thrown_spinning _ _ _ _ _ _ E).
      rewrite filter_app. simpl in H. rewrite H. reflexivity.
    + rewrite (v2_run_thrown _ _ _ _ _ E).
      rewrite filter_app. simpl in H. rewrite H. reflexivity.
  - rewrite (v2_run_returned _ _ _ E). now apply existsb_false_filter.
  - rewrite (v2_run_waiting _ _ _ E). now apply existsb_false_filter.
Qed.

Ltac children_done H :=
  eexists; eexists; split; [reflexivity|];
  unfold children_shape;
  cbn [events V2.handleLogs V2.portForwardFirstTime];
  repeat rewrite <- app_assoc; cbn [app];
  rewrite ?filter_app, ?H;
  cbn [filter is_spawn app];
  split;
  [ intros; try reflexivity; try congruence
  | first [ left; reflexivity | right; split; reflexivity ] ].

(** No handler but the one of the answer spawns, and that one once. *)
Lemma occur_children (localPort logsCommand : string) (forward : list string)
      (o : V2.occurrence) (h : V2.Handlers) (s : State) :
  children_shape forward (JS.slice_from1 (JS.split " " logsCommand))
                 h (events s) ->
  exists h' s',
    V2.occur localPort logsCommand o h s = (Normal h', s') /\
    children_shape forward (JS.slice_from1 (JS.split " " logsCommand))
                   h' (events s').
Proof.
  destruct s as [i sp ev]. destruct h as [first point lproc lfirst].
  intros [Hn [H|[Hp H]]];
    cbn [events V2.handleLogs V2.portForwardFirstTime] in *.
  - destruct o; destruct first, point, lproc, lfirst, sp as [running|];
      try (assert (Hf : true = false) by (apply Hn; discriminate);
           discriminate);
      try destruct i as [|line rest];
      run_handlers;
      try match goal with
          | |- context [if ?b then _ else _] => destruct b
          end;
      children_done H.
  - subst point.
    assert (Hf : first = false) by (apply Hn; discriminate). subst first.
    destruct o; destruct lproc, lfirst, sp as [running|];
      run_handlers; children_done H.
Qed.

Lemma occur_all_children (localPort logsCommand : string)
      (forward : list string) (os : list V2.occurrence) :
  forall (h : V2.Handlers) (s : State),
    children_shape forward (JS.slice_from1 (JS.split " " logsCommand))
                   h (events s) ->
    exists h' s',
      V2.occur_all localPort logsCommand os h s = (Normal h', s') /\
      children_shape forward (JS.slice_from1 (JS.split " " logsCommand))
                     h' (events s').
Proof.
  induction os as [|o os IH]; intros h s H; simpl.
  - now exists h, s.
  - destruct (occur_children localPort logsCommand forward o h s H)
      as (h1 & s1 & E1 & H1).
    unfold bind. rewrite E1. exact (IH h1 s1 H1).
Qed.

(** X18.  The children of a run do not depend on the timing.  In every
    run of version 0.0.2, whatever the cluster answers, whatever is
    typed, and in whatever order the output and the ends of the two
    children, the timer of [handleLogsProcess] and the answer to its
    question occur, the children spawned are none, or
    [kubectl port-forward ...] alone, or [kubectl port-forward ...]
    followed by [kubectl logs ...]. *)
Theorem children_under_every_schedule :
  forall (host_regexp : string -> string -> outcome string) (w : World)
         (os : list V2.occurrence),
    filter is_spawn (V2.run_schedule host_regexp w os) = [] \/
    exists forward,
      hd_error forward = Some "port-forward" /\
      (filter is_spawn (V2.run_schedule host_regexp w os)
       = [Spawn "kubectl" forward] \/
       exists logs,
         hd_error logs = Some "logs" /\
         filter is_spawn (V2.run_schedule host_regexp w os)
         = [Spawn "kubectl" forward; Spawn "kubectl" logs]).
Proof.
  intros host w os.
  destruct (V2.main host w (initial w)) as [c s] eqn:E.
  destruct c as [[[localPort logsCommand]|]|e| |];
    try (left;
         rewrite v2_schedule_without_child
           by (intros p s0; rewrite E; discriminate);
         apply v2_run_without_child;
         intros p s0; rewrite E; discriminate).
  right. pose proof (v2_try_endings host w) as H.
  rewrite (v2_main_some_try _ _ _ _ E) in H. simpl in H.
  destruct H as (before & forward & Hev & Hbefore & Hf & Hl).
  exists forward. split; [exact Hf|].
  unfold V2.run_schedule. rewrite E.
  assert (H0 : children_shape forward
                              (JS.slice_from1 (JS.split " " logsCommand))
                              V2.registered (events s)).
  { split; [intros Hn; now contradiction Hn|].
    left. rewrite Hev, filter_app, (existsb_false_filter _ _ Hbefore).
    reflexivity. }
  destruct (occur_all_children localPort logsCommand forward os _ _ H0)
    as (h' & s' & -> & _ & [Hs|[_ Hs]]).
  - left. exact Hs.
  - right. eexists. split; [exact Hl | exact Hs].
Qed.

(** ** The child in every run of version 0.0.1 *)

Lemma v1_service_lines_no_close (services : list string) :
  forall index, existsb is_close (v1_service_lines services index) = false.
Proof. induction services; intros; simpl; auto. Qed.

Ltac v1_no_child :=
  left; cbv beta iota delta [events snd ret]; no_spawn.

Ltac v1_branch :=
  match goal with
  | |- context [(match match ?y with Some _ => _ | None => _ end
                 with Some _ => _ | None => _ end)
                  {| input := _; spinning := _; events := _ |}] =>
      destruct y
  | |- context [(if ?b then _ else _)
                  {| input := _; spinning := _; events := _ |}] =>
      destruct b
  end.

Ltac v1_explore :=
  repeat (steps;
          first [ solve [v1_no_child] | branch; reduce | v1_branch; reduce ]).

Lemma v1_callback_endings
      (host_regexp : string -> string -> outcome string) (w : World) :
  v1_ending (V1.callback host_regexp
                         (executed w "kubectl get pods --all-namespaces")
                         (v1_callback_state w)).
Proof.
  unfold v1_ending, V1.callback, v1_callback_state.
  destruct (error (executed w "kubectl get pods --all-namespaces")).
  { unfold console_error. steps. v1_no_child. }
  destruct (negb (stderr (executed w "kubectl get pods --all-namespaces") =? "")%string).
  { unfold console_error. steps. v1_no_child. }
  unfold V1.after_listing, console_log, rl_close, spawn. unfold option_map.
  v1_explore.
  all: steps; unfold emit, push.
  all: cbv beta iota delta [events snd fst input spinning].
  all: try solve [left; no_spawn].
  all: right; do 4 eexists; split; [apply snoc2|].
  all: split; [no_spawn|]; split; [|reflexivity].
  all: repeat rewrite existsb_app; rewrite v1_service_lines_no_close.
  all: reflexivity.
Qed.

(** X14.  In every run of version 0.0.1, whatever the cluster answers
    and whatever is typed, at most one child is spawned.  When one is,
    it is [kubectl port-forward --namespace N POD L:3000], the port on
    the side of the cluster being 3000 always; it is spawned after
    every question, and the session is closed right after it and not
    before. *)
Theorem v1_child_of_every_run :
  forall (host_regexp : string -> string -> outcome string) (w : World),
    existsb is_spawn (V1.run host_regexp w) = false \/
    exists before namespace_ pod localPort,
      V1.run host_regexp w
      = before ++
        [Spawn "kubectl"
               ["port-forward"; "--namespace"; namespace_; pod;
                localPort +++ ":3000"];
         Close] /\
      existsb is_spawn before = false /\
      existsb is_close before = false.
Proof.
  intros host w. unfold V1.run. rewrite v1_script_eq.
  pose proof (v1_callback_endings host w) as H. unfold v1_ending in H.
  destruct (V1.callback host (executed w "kubectl get pods --all-namespaces")
                        (v1_callback_state w)) as [c s].
  cbv beta iota delta [fst snd] in H.
  destruct H as [H|(before & ns & pod & port & Hev & Hs & Hc & Hn)].
  - left. destruct c; try exact H.
    rewrite existsb_app, H. reflexivity.
  - right. subst c. exists before, ns, pod, port. auto.
Qed.

(** ** White space around the answers *)

Lemma trimEnd_idempotent (s : string) : JS.trimEnd (JS.trimEnd s) = JS.trimEnd s.
Proof.
  induction s as [|ch s IH]; [reflexivity|].
  simpl. destruct (JS.trimEnd s) as [|d t] eqn:E.
  - destruct (JS.is_space ch) eqn:Hc; simpl; [reflexivity|].
    now rewrite Hc.
  - change (JS.trimEnd (String ch (String d t)))
      with (match JS.trimEnd (String d t) with
            | "" => if JS.is_space ch then "" else String ch ""
            | t' => String ch t'
            end).
    now rewrite IH.
Qed.

Lemma trimStart_head (s : string) :
  match JS.trimStart s with
  | "" => True
  | String ch _ => JS.is_space ch = false
  end.
Proof.
  induction s as [|ch s IH]; simpl; [exact I|].
  destruct (JS.is_space ch) eqn:Hc; [exact IH | exact Hc].
Qed.

Lemma trimStart_trimEnd (ch : ascii) (s : string) :
  JS.is_space ch = false ->
  JS.trimStart (JS.trimEnd (String ch s)) = JS.trimEnd (String ch s).
Proof.
  intros Hc. simpl.
  destruct (JS.trimEnd s); rewrite ?Hc; simpl; now rewrite Hc.
Qed.

Lemma trim_idempotent (s : string) : JS.trim (JS.trim s) = JS.trim s.
Proof.
  unfold JS.trim. pose proof (trimStart_head s) as H.
  destruct (JS.trimStart s) as [|ch t]; [reflexivity|].
  rewrite (trimStart_trimEnd ch t H). apply trimEnd_idempotent.
Qed.

Lemma rt_ret {A : Type} (a : A) : reads_trimmed (ret a).
Proof. intros s. reflexivity. Qed.

Lemma rt_throw {A : Type} (e : Error) : reads_trimmed (@throw A e).
Proof. intros s. reflexivity. Qed.

Lemma rt_return {A : Type} : reads_trimmed (@return_ A).
Proof. intros s. reflexivity. Qed.

Lemma rt_emit (e : event) : reads_trimmed (emit e).
Proof. intros s. reflexivity. Qed.

Lemma rt_lift {A : Type} (r : outcome A) : reads_trimmed (lift r).
Proof. destruct r; intros s; reflexivity. Qed.

Lemma rt_spinner_start (msg : string) : reads_trimmed (V2.spinner_start msg).
Proof. intros [i [running|] ev]; reflexivity. Qed.

Lemma rt_spinner_stop : reads_trimmed V2.spinner_stop.
Proof. intros [i [running|] ev]; reflexivity. Qed.

Lemma rt_bind {A B : Type} (m : Script A) (k : A -> Script B) :
  reads_trimmed m -> (forall a, reads_trimmed (k a)) ->
  reads_trimmed (bind m k).
Proof.
  intros Hm Hk s. unfold bind. rewrite Hm.
  destruct (m s) as [[a|e| |] s1]; simpl; try reflexivity.
  apply Hk.
Qed.

Lemma rt_try_catch {A : Type} (body : Script A) (handler : Error -> Script A) :
  reads_trimmed body -> (forall e, reads_trimmed (handler e)) ->
  reads_trimmed (try_catch body handler).
Proof.
  intros Hb Hh s. unfold try_catch. rewrite Hb.
  destruct (body s) as [[a|e| |] s1]; simpl; try reflexivity.
  apply Hh.
Qed.

Lemma rt_detach {A : Type} (m : Script A) :
  reads_trimmed m -> reads_trimmed (detach m).
Proof. intros Hm s. unfold detach. now rewrite Hm. Qed.

(** [prompt] is where the lines are read, and it trims them. *)
Lemma rt_prompt (query : string) : reads_trimmed (V2.prompt query).
Proof.
  intros [[|line rest] sp ev]; [reflexivity|].
  unfold V2.prompt, bind, question, ret, trim_input. simpl.
  now rewrite trim_idempotent.
Qed.

Lemma rt_print_services (services : list string) :
  forall index, reads_trimmed (V2.print_services services index).
Proof.
  induction services as [|service rest IH]; intros index; simpl.
  - apply rt_ret.
  - apply rt_bind; [apply rt_emit | intros _; apply IH].
Qed.

Ltac rt :=
  repeat (cbv beta zeta;
          first
            [ match goal with
              | |- reads_trimmed (if ?b then _ else _) => destruct b
              | |- reads_trimmed (match ?x with Some _ => _ | None => _ end) =>
                  destruct x
              end
            | apply rt_prompt
            | apply rt_bind; [|intros ?]
            | apply rt_print_services
            | apply rt_spinner_start
            | apply rt_spinner_stop
            | apply rt_emit
            | apply rt_lift
            | apply rt_ret
            | apply rt_throw
            | apply rt_return ]).

Lemma rt_main
      (host_regexp : string -> string -> outcome string) (w : World) :
  reads_trimmed (V2.main host_regexp w).
Proof.
  unfold V2.main, V2.main_try, V2.execPromise, V2.print, console_log,
    console_error, rl_close, spawn.
  cbv zeta. apply rt_bind; [apply rt_emit | intros _].
  apply rt_bind; [apply rt_spinner_start | intros _].
  apply rt_try_catch; [|intros e]; rt.
Qed.

Lemma rt_handleLogsProcess (logsCommand : string) :
  reads_trimmed (V2.handleLogsProcess logsCommand).
Proof.
  unfold V2.handleLogsProcess, V2.print, console_log, rl_close, spawn. rt.
Qed.

Lemma rt_on_stdout (localPort logsCommand : string) (chunks : list string) :
  forall first, reads_trimmed (V2.on_stdout localPort logsCommand first chunks).
Proof.
  induction chunks as [|data rest IH]; intros first; simpl.
  - apply rt_ret.
  - unfold V2.print, console_log.
    apply rt_bind; [destruct first; [apply rt_spinner_stop | apply rt_ret]|].
    intros _. apply rt_bind; [apply rt_emit | intros _].
    apply rt_bind; [apply rt_emit | intros _].
    apply rt_bind; [|intros _; apply IH].
    destruct first; [apply rt_detach, rt_handleLogsProcess | apply rt_ret].
Qed.

Lemma rt_script
      (host_regexp : string -> string -> outcome string) (w : World) :
  reads_trimmed (V2.script host_regexp w).
Proof.
  unfold V2.script. apply rt_bind; [apply rt_main|].
  intros [[localPort logsCommand]|]; [apply rt_on_stdout | apply rt_ret].
Qed.

Lemma script_with_typed
      (host_regexp : string -> string -> outcome string) (w : World)
      (lines : list string) :
  V2.script host_regexp (with_typed w lines) = V2.script host_regexp w.
Proof. reflexivity. Qed.

(** X15.  Version 0.0.2 reads every answer through [prompt], which
    trims it: white space around the lines typed changes nothing of a
    run, whatever the cluster answers. *)
Theorem answers_read_trimmed :
  forall (host_regexp : string -> string -> outcome string) (w : World)
         (lines : list string),
    map JS.trim lines = map JS.trim (typed w) ->
    V2.run host_regexp (with_typed w lines) = V2.run host_regexp w.
Proof.
  intros host w lines H. unfold V2.run. rewrite script_with_typed.
  assert (Hs : trim_input (initial (with_typed w lines))
               = trim_input (initial w)).
  { unfold trim_input, initial. simpl. now rewrite H. }
  pose proof (rt_script host w (initial (with_typed w lines))) as H1.
  pose proof (rt_script host w (initial w)) as H2.
  rewrite Hs, H2 in H1. inversion H1 as [[Hc Hst]].
  unfold trim_input in Hst. now inversion Hst.
Qed.

Lemma answers_read_trimmed_witness :
  map JS.trim [" 2"; "1 "; "  "; ""; " Y "]
  = map JS.trim (typed (world1_forwarding ["2"; "1"; ""; ""; "Y"])) /\
  V2.run no_engine
         (with_typed (world1_forwarding ["2"; "1"; ""; ""; "Y"])
                     [" 2"; "1 "; "  "; ""; " Y "])
  = V2.run no_engine (world1_forwarding ["2"; "1"; ""; ""; "Y"]).
Proof.
  split; [reflexivity|].
  apply (answers_read_trimmed
           no_engine (world1_forwarding ["2"; "1"; ""; ""; "Y"])
           [" 2"; "1 "; "  "; ""; " Y "]).
  reflexivity.
Defined.

(** Version 0.0.1 compares the answer about the environment as it is
    typed: with a space before it, [1] is no valid choice. *)
Example v1_environment_answer_not_trimmed :
  existsb is_spawn (V1.run no_engine (world1 ["2"; "1"; ""])) = true /\
  existsb is_spawn (V1.run no_engine (world1 ["2"; " 1"; ""])) = false.
Proof. split; vm_compute; reflexivity. Qed.

(** ** The spinner *)

(** X16.  The spinner's two methods (its timer left aside): [start] on
    a spinner that runs is ignored, so that of two starts the first
    one counts; [stop] twice is [stop] once; a start and a stop of an
    idle spinner write the message and then "done." for the same
    message; and on a spinner that runs, a start followed by a stop
    reports the message that was running, not the new one. *)
Theorem spinner_start_stop :
  forall (i : list string) (sp : option string) (ev : list event)
         (m m' running : string),
    let s := {| input := i; spinning := sp; events := ev |} in
    (V2.spinner_start m ;; V2.spinner_start m') s = V2.spinner_start m s /\
    (V2.spinner_stop ;; V2.spinner_stop) s = V2.spinner_stop s /\
    (V2.spinner_start m ;; V2.spinner_stop)
      {| input := i; spinning := None; events := ev |}
    = (Normal tt,
       {| input := i; spinning := None;
          events := (ev ++ [Write (m +++ "...")]) ++
                    [Write (String "013"%char (m +++ "...done." +++ JS.nl))] |}) /\
    (V2.spinner_start m ;; V2.spinner_stop)
      {| input := i; spinning := Some running; events := ev |}
    = (Normal tt,
       {| input := i; spinning := None;
          events := ev ++ [Write (String "013"%char
                                    (running +++ "...done." +++ JS.nl))] |}).
Proof.
  intros i sp ev m m' running s. unfold s.
  repeat split; destruct sp; reflexivity.
Qed.

(** ** The commands of every run *)

Lemma v2_service_lines_no_exec (services : list string) :
  forall index, filter is_exec (v2_service_lines services index) = [].
Proof. induction services; intros; simpl; auto. Qed.

Lemma v1_service_lines_no_exec (services : list string) :
  forall index, filter is_exec (v1_service_lines services index) = [].
Proof. induction services; intros; simpl; auto. Qed.

Ltac commands_over :=
  unfold v2_try_commands;
  cbv beta iota zeta delta [events snd ret];
  repeat rewrite filter_app;
  repeat rewrite v2_service_lines_no_exec;
  first [ left; reflexivity | right; do 3 eexists; reflexivity ].

Ltac explore_commands :=
  repeat (steps; first [ solve [commands_over] | branch; reduce ]).

Lemma v2_try_commands_run
      (host_regexp : string -> string -> outcome string) (w : World) :
  v2_try_commands w
    (V2.main_try host_regexp w (V2.getArgValue (argv w) "--namespace")
                 (V2.getPodsCommand_of (V2.getArgValue (argv w) "--namespace"))
                 (v2_try_state w)).
Proof.
  unfold V2.main_try, v2_try_state. open_script. unfold option_map.
  explore_commands.
  all: steps; commands_over.
Qed.

Lemma chunk_lines_no_exec (localPort : string) (chunks : list string) :
  filter is_exec (flat_map (chunk_lines localPort) chunks) = [].
Proof. induction chunks as [|c chunks IH]; simpl; auto. Qed.

Lemma handleLogsProcess_no_exec (logsCommand : string) (i : list string)
      (sp : option string) (ev : list event) :
  filter is_exec
         (events (snd (V2.handleLogsProcess logsCommand
                         {| input := i; spinning := sp; events := ev |})))
  = filter is_exec ev.
Proof.
  destruct (handleLogsProcess_run logsCommand sp ev) as [Hline Hnone].
  destruct i as [|line rest].
  - rewrite Hnone. cbv beta iota delta [snd events].
    rewrite filter_app. simpl. apply app_nil_r.
  - rewrite Hline. cbv beta iota delta [snd].
    destruct (wants_logs line); cbv beta iota delta [events].
    + destruct sp; rewrite filter_app; simpl; apply app_nil_r.
    + rewrite filter_app. simpl. apply app_nil_r.
Qed.

Ltac v1_commands_over :=
  cbv beta iota zeta delta [events snd ret];
  repeat rewrite filter_app;
  repeat rewrite v1_service_lines_no_exec;
  reflexivity.

Ltac v1_explore_commands :=
  repeat (steps;
          first [ solve [v1_commands_over] | branch; reduce
                | v1_branch; reduce ]).

Lemma v1_callback_commands
      (host_regexp : string -> string -> outcome string) (w : World) :
  filter is_exec
         (events (snd (V1.callback host_regexp
                         (executed w "kubectl get pods --all-namespaces")
                         (v1_callback_state w))))
  = [Exec "kubectl get pods --all-namespaces"].
Proof.
  unfold V1.callback, v1_callback_state.
  destruct (error (executed w "kubectl get pods --all-namespaces")).
  { unfold console_error. steps. v1_commands_over. }
  destruct (negb (stderr (executed w "kubectl get pods --all-namespaces") =? "")%string).
  { unfold console_error. steps. v1_commands_over. }
  unfold V1.after_listing, console_log, rl_close, spawn. unfold option_map.
  v1_explore_commands.
  all: steps; unfold emit, push.
  all: cbv beta iota delta [events snd fst input spinning].
  all: repeat rewrite filter_app; repeat rewrite v1_service_lines_no_exec.
  all: reflexivity.
Qed.

(** X17.  The commands run through the shell.  In every run of version
    0.0.2, whatever the cluster answers and whatever is typed, the
    listing of the pods is run, once and first, and after it at most
    one other command, a [kubectl get service --namespace N E-N-S -o
    jsonpath=...]; nothing that follows the block of [try] runs a
    command.  Every run of version 0.0.1 runs one command, [kubectl get
    pods --all-namespaces]. *)
Theorem commands_of_every_run :
  forall (host_regexp : string -> string -> outcome string) (w : World),
    (filter is_exec (V2.run host_regexp w)
     = [Exec (V2.getPodsCommand_of (V2.getArgValue (argv w) "--namespace"))] \/
     exists namespace_ environment selectedService,
       filter is_exec (V2.run host_regexp w)
       = [Exec (V2.getPodsCommand_of (V2.getArgValue (argv w) "--namespace"));
          Exec (V2.getServicePortCommand_of namespace_ environment
                                            selectedService)]) /\
    filter is_exec (V1.run host_regexp w)
    = [Exec "kubectl get pods --all-namespaces"].
Proof.
  intros host w. split.
  - pose proof (v2_try_commands_run host w) as H. unfold v2_try_commands in H.
    cbv zeta in H.
    destruct (V2.main_try host w (V2.getArgValue (argv w) "--namespace")
                (V2.getPodsCommand_of (V2.getArgValue (argv w) "--namespace"))
                (v2_try_state w)) as [c s] eqn:E.
    cbv beta iota delta [snd] in H.
    assert (Hrun : filter is_exec (V2.run host w) = filter is_exec (events s)).
    { destruct c as [[[localPort logsCommand]|]|e| |].
      - unfold V2.run, V2.script, bind. rewrite (v2_main_normal _ _ _ _ E).
        destruct s as [i sp ev]. destruct (forwarded w) as [|data rest].
        + reflexivity.
        + rewrite on_stdout_first. cbv beta iota zeta delta [snd events].
          rewrite filter_app, chunk_lines_no_exec, app_nil_r.
          match goal with
          | |- context [V2.handleLogsProcess logsCommand
                          {| input := ?i0; spinning := ?sp0; events := ?ev0 |}] =>
              pose proof (handleLogsProcess_no_exec logsCommand i0 sp0 ev0)
                as Hs
          end.
          cbv beta iota zeta delta [snd events] in Hs. rewrite Hs.
          rewrite !filter_app. destruct sp; simpl; now rewrite !app_nil_r.
      - unfold V2.run, V2.script, bind. rewrite (v2_main_normal _ _ _ _ E).
        reflexivity.
      - destruct s as [i [msg|] ev].
        + rewrite (v2_run_thrown_spinning _ _ _ _ _ _ E).
          rewrite filter_app. simpl. apply app_nil_r.
        + rewrite (v2_run_thrown _ _ _ _ _ E).
          rewrite filter_app. simpl. apply app_nil_r.
      - now rewrite (v2_run_returned _ _ _ E).
      - now rewrite (v2_run_waiting _ _ _ E). }
    rewrite Hrun. exact H.
  - unfold V1.run. rewrite v1_script_eq.
    pose proof (v1_callback_commands host w) as H.
    destruct (V1.callback host (executed w "kubectl get pods --all-namespaces")
                          (v1_callback_state w)) as [c s].
    cbv beta iota delta [snd] in H.
    destruct c; try exact H.
    rewrite filter_app, H. reflexivity.
Qed.

(** ** The namespace argument (C10) *)

Lemma prefix_nil (s : string) : String.prefix "" s = true.
Proof. now destruct s. Qed.

Lemma strip_env_named (e : Env) (rest : string) :
  strip_env (env_name e +++ "-" +++ rest) = rest.
Proof.
  destruct e; unfold strip_env; simpl; now rewrite prefix_nil.
Qed.

Lemma env_of_named (e : Env) (rest : string) :
  env_of (env_name e +++ "-" +++ rest) = Some e.
Proof.
  destruct e; unfold env_of, JS.startsWith; simpl; now rewrite prefix_nil.
Qed.

(** A name that goes on with the namespace and a hyphen loses both
    prefixes. *)
Lemma modified_name_named
      (host_regexp : string -> string -> outcome string)
      (e : Env) (ns rest : string) :
  ordinary ns = true -> ns <> "" ->
  modified_name host_regexp (Some ns)
                (env_name e +++ "-" +++ ns +++ "-" +++ rest)
  = Ok rest.
Proof.
  intros Hord Hns. unfold modified_name. rewrite strip_env_named.
  apply String.eqb_neq in Hns. rewrite Hns.
  rewrite (strip_namespace_ordinary host_regexp ns _ Hord).
  rewrite <- append_assoc, prefix_append.
  replace (String.length ns + 1)%nat with (String.length (ns +++ "-"))
    by (rewrite length_append; reflexivity).
  now rewrite drop_append.
Qed.

(** A name that does not go on with the namespace and a hyphen loses
    the environment prefix only. *)
Lemma modified_name_other
      (host_regexp : string -> string -> outcome string)
      (e : Env) (ns rest : string) :
  ordinary ns = true -> ns <> "" ->
  String.prefix (ns +++ "-") rest = false ->
  modified_name host_regexp (Some ns) (env_name e +++ "-" +++ rest) = Ok rest.
Proof.
  intros Hord Hns Hpre. unfold modified_name. rewrite strip_env_named.
  apply String.eqb_neq in Hns. rewrite Hns.
  now rewrite (strip_namespace_ordinary host_regexp ns _ Hord), Hpre.
Qed.

(** The segments of [service-a-b]. *)
Lemma split_name_id (service a b : string) :
  occurs "-" a = false -> occurs "-" b = false ->
  JS.split "-" (service +++ "-" +++ a +++ "-" +++ b)
  = JS.split "-" service ++ [a; b].
Proof.
  intros Ha Hb.
  assert (E : service +++ "-" +++ a +++ "-" +++ b
              = JS.join "-" (JS.split "-" service ++ [a; b])).
  { rewrite join_app by (try apply split_not_nil; discriminate).
    now rewrite (join_split "-"). }
  rewrite E. apply (split_join "-").
  - intros H. apply app_eq_nil in H. destruct H as [_ H]. discriminate.
  - apply Forall_app. split; [apply split_pieces|].
    repeat constructor; assumption.
Qed.

Lemma slice_but_last2_app {A : Type} (l : list A) (a b : A) :
  JS.slice_but_last2 (l ++ [a; b]) = l.
Proof.
  unfold JS.slice_but_last2. rewrite length_app. simpl.
  replace (length l + 2 - 2)%nat with (length l + 0)%nat by lia.
  rewrite firstn_app_2. simpl. apply app_nil_r.
Qed.

Lemma slice_last2_app {A : Type} (l : list A) (a b : A) :
  JS.slice_last2 (l ++ [a; b]) = [a; b].
Proof.
  unfold JS.slice_last2. rewrite length_app. simpl.
  replace (length l + 2 - 2)%nat with (length l) by lia.
  rewrite skipn_app, skipn_all, Nat.sub_diag. reflexivity.
Qed.

(** One turn of the loop on a row named [E-rest], when the two
    replacements leave [service-a-b] of the name. *)
Lemma loop_body_named
      (host_regexp : string -> string -> outcome string)
      (namespace_arg : option string) (namespaceIndex nameIndex : Z)
      (line nameColumn : string) (m : ServicesMap)
      (e : Env) (service a b : string) :
  JS.at_index (JS.split_spaces line) nameIndex = Some nameColumn ->
  env_of nameColumn = Some e ->
  modified_name host_regexp
    (JS.nullish namespace_arg
                (JS.at_index (JS.split_spaces line) namespaceIndex))
    nameColumn
  = Ok (service +++ "-" +++ a +++ "-" +++ b) ->
  occurs "-" a = false -> occurs "-" b = false ->
  loop_body host_regexp namespace_arg namespaceIndex nameIndex line m
  = Ok (store m service e
              {| id := a +++ "-" +++ b;
                 namespace :=
                   JS.nullish namespace_arg
                              (JS.at_index (JS.split_spaces line)
                                           namespaceIndex) |}).
Proof.
  intros Hn He Hm Ha Hb. unfold loop_body. rewrite Hn, He, Hm.
  rewrite (split_name_id service a b Ha Hb).
  rewrite slice_but_last2_app, slice_last2_app, (join_split "-").
  rewrite length_app. simpl length.
  replace (2 <? length (JS.split "-" service) + 2)%nat with true; [reflexivity|].
  symmetry. apply Nat.ltb_lt.
  pose proof (split_not_nil "-" service) as Hnil.
  destruct (JS.split "-" service); [now contradiction Hnil | simpl; lia].
Qed.

(** An entry, once stored, is never removed. *)
Lemma loop_body_keeps_entry
      (host_regexp : string -> string -> outcome string)
      (namespace_arg : option string) (namespaceIndex nameIndex : Z)
      (line : string) (m m' : ServicesMap) (s : string) (e : Env) :
  loop_body host_regexp namespace_arg namespaceIndex nameIndex line m = Ok m' ->
  entry_of m s e <> None -> entry_of m' s e <> None.
Proof.
  intros H Hm.
  destruct (loop_body_cases _ _ _ _ _ _ _ H) as (nameColumn & Hn & Hc).
  destruct Hc as [[_ ->] | (e0 & mn & He0 & Hmn & [[_ ->] | [Hlen ->]])];
    try exact Hm.
  destruct (string_dec (JS.join "-" (JS.slice_but_last2 (JS.split "-" mn))) s)
    as [Es|Es].
  - destruct (Env_eq_dec e0 e) as [Ee|Ee].
    + subst. rewrite entry_of_store_same. discriminate.
    + rewrite entry_of_store_other by now right. exact Hm.
  - rewrite entry_of_store_other by now left. exact Hm.
Qed.

Lemma loop_keeps_entry
      (host_regexp : string -> string -> outcome string)
      (namespace_arg : option string) (namespaceIndex nameIndex : Z)
      (rows : list string) (s : string) (e : Env) :
  forall m m',
    loop host_regexp namespace_arg namespaceIndex nameIndex rows m = Ok m' ->
    entry_of m s e <> None -> entry_of m' s e <> None.
Proof.
  induction rows as [|line rows IH]; simpl; intros m m' H Hm.
  - now inversion H; subst.
  - destruct (loop_body host_regexp namespace_arg namespaceIndex nameIndex line m)
      as [m1|err] eqn:Hb; [|discriminate].
    apply (IH _ _ H). exact (loop_body_keeps_entry _ _ _ _ _ _ _ _ _ Hb Hm).
Qed.

(** C10.  With a namespace argument [NS] the parser takes [NS] for the
    namespace of every row and does not look at the NAMESPACE column.

    - Rows that agree on the NAME column give the same result whatever
      the other columns hold and whichever column is taken for
      NAMESPACE, and every entry of the mapping carries [NS].
    - [NS] is what is removed from the names: a row named
      [E-NS-service-a-b], whatever its NAMESPACE column, gives
      [service] the entry of id [a-b] and namespace [NS] under [E],
      from any mapping; and the mapping returned for a listing with
      such a row has an entry for [service] under [E], with namespace
      [NS].
    - Nothing else is removed: a row named [E-service-a-b] where
      [service-a-b] does not go on with [NS-], be it that the name
      carries the namespace of its own NAMESPACE column, gives
      [service], whole, the entry of id [a-b] and namespace [NS].

    Without the argument the NAMESPACE column of the row is used for
    both: a row of namespace [C] named [E-C-service-a-b] gives
    [service] the entry of id [a-b] and namespace [C], and every entry
    of a mapping returned stems from a row whose own column was used
    for the replacement and stored in the entry.

    ([NS] and [C] of ordinary characters and not empty, [a] and [b]
    without hyphen, where they occur.) *)
Theorem namespace_argument_overrides_column :
  forall (host_regexp : string -> string -> outcome string) (NS : string),
    (forall namespaceIndex namespaceIndex' nameIndex line line' m,
        JS.at_index (JS.split_spaces line) nameIndex
        = JS.at_index (JS.split_spaces line') nameIndex ->
        loop_body host_regexp (Some NS) namespaceIndex nameIndex line m
        = loop_body host_regexp (Some NS) namespaceIndex' nameIndex line' m) /\
    (forall podsData m s o e d,
        getServicesMap host_regexp podsData (Some NS) = Ok m ->
        Map_get m s = Some o -> get_env o e = Some d ->
        namespace d = Some NS) /\
    (forall podsData m s o e d,
        getServicesMap host_regexp podsData None = Ok m ->
        Map_get m s = Some o -> get_env o e = Some d ->
        exists line nameColumn modifiedName,
          In line (tl (lines_of podsData)) /\
          JS.at_index (JS.split_spaces line) (nameIndex_of podsData)
          = Some nameColumn /\
          modified_name host_regexp
            (JS.at_index (JS.split_spaces line) (namespaceIndex_of podsData))
            nameColumn = Ok modifiedName /\
          s = JS.join "-" (JS.slice_but_last2 (JS.split "-" modifiedName)) /\
          namespace d
          = JS.at_index (JS.split_spaces line) (namespaceIndex_of podsData)) /\
    (ordinary NS = true -> NS <> "" ->
     forall namespaceIndex nameIndex line m e service a b,
       JS.at_index (JS.split_spaces line) nameIndex
       = Some (env_name e +++ "-" +++ NS +++ "-" +++
               service +++ "-" +++ a +++ "-" +++ b) ->
       occurs "-" a = false -> occurs "-" b = false ->
       exists m',
         loop_body host_regexp (Some NS) namespaceIndex nameIndex line m
         = Ok m' /\
         entry_of m' service e
         = Some {| id := a +++ "-" +++ b; namespace := Some NS |}) /\
    (ordinary NS = true -> NS <> "" ->
     forall podsData m line e service a b,
       getServicesMap host_regexp podsData (Some NS) = Ok m ->
       In line (tl (lines_of podsData)) ->
       JS.at_index (JS.split_spaces line) (nameIndex_of podsData)
       = Some (env_name e +++ "-" +++ NS +++ "-" +++
               service +++ "-" +++ a +++ "-" +++ b) ->
       occurs "-" a = false -> occurs "-" b = false ->
       exists d, entry_of m service e = Some d /\ namespace d = Some NS) /\
    (ordinary NS = true -> NS <> "" ->
     forall namespaceIndex nameIndex line m e service a b,
       JS.at_index (JS.split_spaces line) nameIndex
       = Some (env_name e +++ "-" +++ service +++ "-" +++ a +++ "-" +++ b) ->
       String.prefix (NS +++ "-") (service +++ "-" +++ a +++ "-" +++ b) = false ->
       occurs "-" a = false -> occurs "-" b = false ->
       exists m',
         loop_body host_regexp (Some NS) namespaceIndex nameIndex line m
         = Ok m' /\
         entry_of m' service e
         = Some {| id := a +++ "-" +++ b; namespace := Some NS |}) /\
    (forall C namespaceIndex nameIndex line m e service a b,
        ordinary C = true -> C <> "" ->
        JS.at_index (JS.split_spaces line) namespaceIndex = Some C ->
        JS.at_index (JS.split_spaces line) nameIndex
        = Some (env_name e +++ "-" +++ C +++ "-" +++
                service +++ "-" +++ a +++ "-" +++ b) ->
        occurs "-" a = false -> occurs "-" b = false ->
        exists m',
          loop_body host_regexp None namespaceIndex nameIndex line m = Ok m' /\
          entry_of m' service e
          = Some {| id := a +++ "-" +++ b; namespace := Some C |}).
Proof.
  intros host NS.
  assert (Hturn :
            ordinary NS = true -> NS <> "" ->
            forall namespaceIndex nameIndex line m e service a b,
              JS.at_index (JS.split_spaces line) nameIndex
              = Some (env_name e +++ "-" +++ NS +++ "-" +++
                      service +++ "-" +++ a +++ "-" +++ b) ->
              occurs "-" a = false -> occurs "-" b = false ->
              loop_body host (Some NS) namespaceIndex nameIndex line m
              = Ok (store m service e {| id := a +++ "-" +++ b;
                                   namespace := Some NS |})).
  { intros Hord Hns nsI nI line m e service a b Hn Ha Hb.
    apply (loop_body_named host (Some NS) nsI nI line _ m e service a b Hn);
      [apply env_of_named | | exact Ha | exact Hb].
    simpl JS.nullish. now apply modified_name_named. }
  split; [|split; [|split; [|split; [|split; [|split]]]]].
  - intros nsI nsI' nI line line' m H. unfold loop_body. simpl. now rewrite H.
  - intros podsData m s o e d H Hs He.
    destruct (parsed_entry_qualifies host (Some NS) _ _ _ _ _ _ H Hs He)
      as (line & _ & nameColumn & mn & _ & _ & _ & _ & _ & ->).
    reflexivity.
  - intros podsData m s o e d H Hs He.
    destruct (parsed_entry_qualifies host None _ _ _ _ _ _ H Hs He)
      as (line & Hin & nameColumn & mn & Hn & _ & Hm & _ & -> & ->).
    exists line, nameColumn, mn. simpl in *. auto.
  - intros Hord Hns nsI nI line m e service a b Hn Ha Hb.
    eexists. split; [exact (Hturn Hord Hns nsI nI line m e service a b Hn Ha Hb)|].
    apply entry_of_store_same.
  - intros Hord Hns podsData m line e service a b H Hin Hn Ha Hb.
    assert (Hsome : entry_of m service e <> None).
    { unfold getServicesMap in H. fold (lines_of podsData) in H.
      fold (namespaceIndex_of podsData) in H. fold (nameIndex_of podsData) in H.
      destruct (in_split _ _ Hin) as (before & after & Hrows).
      rewrite Hrows in H.
      destruct (loop_append _ _ _ _ _ _ _ _ H) as (m1 & _ & H1).
      simpl in H1.
      rewrite (Hturn Hord Hns _ _ line m1 e service a b Hn Ha Hb) in H1.
      apply (loop_keeps_entry _ _ _ _ _ _ _ _ _ H1).
      rewrite entry_of_store_same. discriminate. }
    destruct (entry_of m service e) as [d|] eqn:Ed; [|now contradiction Hsome].
    exists d. split; [reflexivity|].
    apply entry_of_Some in Ed. destruct Ed as (o & Hs & He).
    destruct (parsed_entry_qualifies host (Some NS) _ _ _ _ _ _ H Hs He)
      as (l & _ & nameColumn & mn & _ & _ & _ & _ & _ & ->).
    reflexivity.
  - intros Hord Hns nsI nI line m e service a b Hn Hpre Ha Hb.
    eexists. split; [|apply entry_of_store_same].
    apply (loop_body_named host (Some NS) nsI nI line _ m e service a b Hn);
      [apply env_of_named | | exact Ha | exact Hb].
    simpl JS.nullish. now apply modified_name_other.
  - intros C nsI nI line m e service a b Hord Hns Hc Hn Ha Hb.
    eexists. split; [|apply entry_of_store_same].
    replace (Some C)
      with (JS.nullish None (JS.at_index (JS.split_spaces line) nsI))
      by (simpl; exact Hc).
    apply (loop_body_named host None nsI nI line _ m e service a b Hn);
      [apply env_of_named | | exact Ha | exact Hb].
    simpl JS.nullish. rewrite Hc. now apply modified_name_named.
Qed.

Lemma namespace_argument_overrides_column_witness :
  (exists m',
      loop_body no_engine (Some "team-alpha") 0 1
                "other   dev-team-alpha-checkout-ab12-xy34   0/1" []
      = Ok m' /\
      entry_of m' "checkout" Dev
      = Some {| id := "ab12-xy34"; namespace := Some "team-alpha" |}) /\
  (exists m',
      loop_body no_engine (Some "team-alpha") 0 1
                "other   dev-other-checkout-ab12-xy34   0/1" []
      = Ok m' /\
      entry_of m' "other-checkout" Dev
      = Some {| id := "ab12-xy34"; namespace := Some "team-alpha" |}).
Proof.
  pose proof (namespace_argument_overrides_column no_engine "team-alpha")
    as (_ & _ & _ & Hnamed & _ & Hother & _).
  split.
  - apply (Hnamed eq_refl ltac:(discriminate) 0 1
                  "other   dev-team-alpha-checkout-ab12-xy34   0/1" []
                  Dev "checkout" "ab12" "xy34");
      reflexivity.
  - apply (Hother eq_refl ltac:(discriminate) 0 1
                  "other   dev-other-checkout-ab12-xy34   0/1" []
                  Dev "other-checkout" "ab12" "xy34");
      reflexivity.
Defined.
